(** * convert.mjs: VSCode theme variables to DTCG colour tokens

    A shallow embedding of the colour parser, the token-path resolver, the
    variable-set extractor, the nester and the union merger of
    [src/convert.mjs], with the properties the specification states about
    them.

    Modelling conventions.
    - A JavaScript string is the list of its UTF-16 code units ([N]).
    - A JavaScript number is an IEEE 754 binary64 value: [spec_float] with
      precision 53 and maximal exponent 1024, with the Standard Library's
      correctly rounded operations.
    - A plain object used as a map is an association list in property
      insertion order.  Objects that the program mutates after sharing them
      (the nested trees and the tokens hung into them) live in an explicit
      heap, see [Module Heap]. *)

From Stdlib Require Import String Ascii.
From Stdlib Require Import ZArith NArith List Bool Lia.
From Stdlib Require Import Sorting.Sorted Sorting.Permutation.
From Stdlib Require Import Floats.SpecFloat.
Import ListNotations.

(* ================================================================== *)
(** ** Strings *)

Module JsString.

Definition jsstring := list N.

Definition ch (c : ascii) : N := N_of_ascii c.

(** The JavaScript string with the same characters as an ASCII literal. *)
Fixpoint js (s : string) : jsstring :=
  match s with
  | EmptyString => []
  | String c rest => ch c :: js rest
  end.

Definition eqb (s t : jsstring) : bool :=
  if list_eq_dec N.eq_dec s t then true else false.

(** WhiteSpace and LineTerminator code points of ECMAScript: what
    [String.prototype.trim] strips and what [\s] matches. *)
Definition is_ws (c : N) : bool :=
  (existsb (N.eqb c)
     [9; 10; 11; 12; 13; 32; 160; 5760; 8232; 8233; 8239; 8287; 12288; 65279]
   || ((8192 <=? c) && (c <=? 8202)))%N.

Fixpoint trimStart (s : jsstring) : jsstring :=
  match s with
  | c :: rest => if is_ws c then trimStart rest else s
  | [] => []
  end.

Definition trimEnd (s : jsstring) : jsstring := rev (trimStart (rev s)).

Definition trim (s : jsstring) : jsstring := trimEnd (trimStart s).

Definition is_upper (c : N) : bool := ((65 <=? c) && (c <=? 90))%N.
Definition is_lower (c : N) : bool := ((97 <=? c) && (c <=? 122))%N.

(** [toLowerCase] and [toUpperCase] on the ASCII range.  Every call site
    of the program applies them to ASCII text (matched hex digits, the
    output of [Number.prototype.toString]). *)
Definition lower_char (c : N) : N := if is_upper c then (c + 32)%N else c.
Definition upper_char (c : N) : N := if is_lower c then (c - 32)%N else c.
Definition toLowerCase (s : jsstring) : jsstring := map lower_char s.
Definition toUpperCase (s : jsstring) : jsstring := map upper_char s.

(** [s.slice(i, j)] for [0 <= i <= j]. *)
Definition slice (i j : nat) (s : jsstring) : jsstring :=
  firstn (j - i) (skipn i s).

Fixpoint startsWith (p s : jsstring) : bool :=
  match p, s with
  | [], _ => true
  | c :: p', d :: s' => N.eqb c d && startsWith p' s'
  | _ :: _, [] => false
  end.

(** [s.replace(/^p/, "")] for a literal [p]: one leading occurrence is
    removed. *)
Fixpoint strip_prefix (p s : jsstring) : option jsstring :=
  match p, s with
  | [], _ => Some s
  | c :: p', d :: s' => if N.eqb c d then strip_prefix p' s' else None
  | _ :: _, [] => None
  end.

Definition replace_prefix (p s : jsstring) : jsstring :=
  match strip_prefix p s with
  | Some rest => rest
  | None => s
  end.

(** [s.split(sep)] for a one-character separator: never empty. *)
Fixpoint split (sep : N) (s : jsstring) : list jsstring :=
  match s with
  | [] => [[]]
  | c :: rest =>
      if N.eqb c sep then [] :: split sep rest
      else match split sep rest with
           | seg :: segs => (c :: seg) :: segs
           | [] => [[c]]
           end
  end.

(** The longest prefix of characters satisfying [p], and the rest. *)
Fixpoint span (p : N -> bool) (s : jsstring) : jsstring * jsstring :=
  match s with
  | c :: rest =>
      if p c then let (x, y) := span p rest in (c :: x, y) else ([], s)
  | [] => ([], [])
  end.

(** [parts.join(sep)]. *)
Fixpoint join (sep : jsstring) (parts : list jsstring) : jsstring :=
  match parts with
  | [] => []
  | [p] => p
  | p :: rest => p ++ sep ++ join sep rest
  end.

(** [s.padStart(n, "0")]. *)
Definition padStart0 (n : nat) (s : jsstring) : jsstring :=
  repeat (ch "0") (n - length s) ++ s.

(** The order of [Array.prototype.sort] without a comparator: code unit by
    code unit, a proper prefix first. *)
Fixpoint ltb (s t : jsstring) : bool :=
  match s, t with
  | [], [] => false
  | [], _ :: _ => true
  | _ :: _, [] => false
  | c :: s', d :: t' =>
      if (c <? d)%N then true
      else if (d <? c)%N then false
      else ltb s' t'
  end.

End JsString.

Import JsString.

(* ================================================================== *)
(** ** Numbers *)

Module JsNumber.

Definition number := spec_float.

Definition prec : Z := 53.
Definition emax : Z := 1024.

Definition NaN : number := S754_nan.

(** The number closest to an integer (exact below 2^53). *)
Definition of_Z (z : Z) : number := binary_normalize prec emax z 0 false.

(** [x / y]. *)
Definition div (x y : number) : number := SFdiv prec emax x y.

Definition ltb (x y : number) : bool := SFltb x y.
Definition leb (x y : number) : bool := SFleb x y.

Definition is_nan (x : number) : bool :=
  match x with S754_nan => true | _ => false end.

(** [Math.max(x, y)]: NaN if either is, and +0 above -0. *)
Definition Math_max (x y : number) : number :=
  if is_nan x || is_nan y then NaN
  else if ltb x y then y
  else if ltb y x then x
  else match x with S754_zero true => y | _ => x end.

(** [Math.min(x, y)]: NaN if either is, and -0 below +0. *)
Definition Math_min (x y : number) : number :=
  if is_nan x || is_nan y then NaN
  else if ltb x y then x
  else if ltb y x then y
  else match y with S754_zero true => y | _ => x end.

(** The integer a finite number denotes when it is one, its floor
    otherwise. *)
Definition floor_Z (s : bool) (m : positive) (e : Z) : Z :=
  let v := if s then Z.neg m else Z.pos m in
  if (0 <=? e)%Z then (v * 2 ^ e)%Z else (v / 2 ^ (- e))%Z.

(** [Math.round(x)]: the nearest integer, halves towards +Infinity; the
    sign of a zero result is that of [x]. *)
Definition Math_round (x : number) : number :=
  match x with
  | S754_finite s m e =>
      if (0 <=? e)%Z then x
      else
        let v := if s then Z.neg m else Z.pos m in
        let d := (2 ^ (- e))%Z in
        let n := ((2 * v + d) / (2 * d))%Z in
        binary_normalize prec emax n 0 s
  | _ => x
  end.

Definition hex_digit (d : Z) : N :=
  if (d <? 10)%Z then (48 + Z.to_N d)%N else (87 + Z.to_N d)%N.

Fixpoint hex_digits (fuel : nat) (z : Z) (acc : jsstring) : jsstring :=
  match fuel with
  | O => acc
  | S fuel' =>
      if (z <? 16)%Z then hex_digit z :: acc
      else hex_digits fuel' (z / 16) (hex_digit (z mod 16) :: acc)
  end.

(** The lower-case hexadecimal numeral of a natural number. *)
Definition hex_of_Z (z : Z) : jsstring := hex_digits (S (Z.to_nat (Z.log2 z))) z [].

(** [x.toString(16)] for the values [Math.round] returns: NaN, the
    infinities and integers, the latter digit for digit.  (A fraction
    would follow the integer part after a point; no call site passes
    one, see [Math_round_integral].) *)
Definition toString16 (x : number) : jsstring :=
  match x with
  | S754_nan => js "NaN"
  | S754_infinity false => js "Infinity"
  | S754_infinity true => js "-Infinity"
  | S754_zero _ => js "0"
  | S754_finite s m e =>
      let z := Z.abs (floor_Z false m e) in
      (if s then js "-" else []) ++ hex_of_Z z
  end.

Definition is_digit (c : N) : bool := ((48 <=? c) && (c <=? 57))%N.

Definition digit_val (c : N) : Z := Z.of_N (c - 48).

Definition decimal_value (ds : jsstring) : Z :=
  fold_left (fun acc c => (acc * 10 + digit_val c)%Z) ds 0%Z.

(** An integer as an exact, not yet rounded, operand of a division. *)
Definition exact_Z (z : Z) : number :=
  match z with
  | Z0 => S754_zero false
  | Zpos p => S754_finite false p 0
  | Zneg p => S754_finite true p 0
  end.

(** [Number(s)] for a string of digits and points (all the program passes
    to it, see the [rgb] pattern): the decimal literals [d+], [d+.],
    [d+.d+] and [.d+] denote the nearest number, ties to even, as the
    engines compute it (ECMAScript leaves them latitude past 20
    significant digits); anything else is NaN. *)
Definition Number (s : jsstring) : number :=
  let (ip, rest) := span is_digit s in
  match rest with
  | [] => of_Z (decimal_value ip)
  | c :: rest' =>
      if N.eqb c (ch ".") then
        let (fp, tail) := span is_digit rest' in
        match tail, ip ++ fp with
        | [], [] => NaN
        | [], ds => div (exact_Z (decimal_value ds)) (exact_Z (10 ^ Z.of_nat (length fp)))
        | _ :: _, _ => NaN
        end
      else NaN
  end.

Definition hex_val (c : N) : Z :=
  if is_digit c then Z.of_N (c - 48)
  else if ((97 <=? c) && (c <=? 102))%N then Z.of_N (c - 87)
  else Z.of_N (c - 55).

Definition is_hex_char (c : N) : bool :=
  (is_digit c || ((97 <=? c) && (c <=? 102)) || ((65 <=? c) && (c <=? 70)))%N.

Definition hex_value (ds : jsstring) : Z :=
  fold_left (fun acc c => (acc * 16 + hex_val c)%Z) ds 0%Z.

(** [parseInt(s, 16)]: leading white space, a sign and a [0x] prefix are
    passed over, then the longest run of hex digits is read; NaN when
    there is none. *)
Definition parseInt16 (s : jsstring) : number :=
  let s := trimStart s in
  let (neg, s) :=
    match s with
    | c :: rest =>
        if N.eqb c (ch "-") then (true, rest)
        else if N.eqb c (ch "+") then (false, rest)
        else (false, s)
    | [] => (false, s)
    end in
  let s :=
    match s with
    | c :: x :: rest =>
        if N.eqb c (ch "0") && N.eqb (lower_char x) (ch "x") then rest else s
    | _ => s
    end in
  match fst (span is_hex_char s) with
  | [] => NaN
  | ds =>
      binary_normalize prec emax
        (if neg then (- hex_value ds)%Z else hex_value ds) 0 neg
  end.

End JsNumber.

Import JsNumber.

(* ================================================================== *)
(** ** The colour parser ([parseColor], lines 85-135) *)

Module ColorParser.

Record NormalizedColor := mkColor {
  r : number;
  g : number;
  b : number;
  a : number;
  hex : jsstring
}.

(** [clamp01(x) = Math.min(1, Math.max(0, x))]. *)
Definition clamp01 (x : number) : number :=
  Math_min (of_Z 1) (Math_max (of_Z 0) x).

(** A character [[0-9a-f]] matches under the [i] flag. *)
Definition is_hex_digit (c : N) : bool := is_hex_char c.

(** [v.match(/^#([0-9a-f]{3,4}|[0-9a-f]{6}|[0-9a-f]{8})$/i)]: the text of
    group 1 when the pattern matches. *)
Definition match_hex (v : jsstring) : option jsstring :=
  match v with
  | c :: h =>
      if N.eqb c (ch "#") && forallb is_hex_digit h
         && existsb (Nat.eqb (length h)) [3; 4; 6; 8]
      then Some h else None
  | [] => None
  end.

(** One pattern character under the [i] flag: the letter in either case. *)
Definition expect_ci (c : N) (s : jsstring) : option jsstring :=
  match s with
  | d :: rest => if N.eqb (lower_char d) c then Some rest else None
  | [] => None
  end.

Definition expect (c : N) (s : jsstring) : option jsstring :=
  match s with
  | d :: rest => if N.eqb d c then Some rest else None
  | [] => None
  end.

(** [\s*]. *)
Definition skip_ws (s : jsstring) : jsstring := snd (span is_ws s).

(** A character of [[\d.]]. *)
Definition is_num_char (c : N) : bool := is_digit c || N.eqb c (ch ".").

(** [([\d.]+)\s*]: the group and what follows the white space. *)
Definition channel (s : jsstring) : option (jsstring * jsstring) :=
  match span is_num_char s with
  | ([], _) => None
  | (d, rest) => Some (d, skip_ws rest)
  end.

Notation "x <- e ;; k" :=
  (match e with Some x => k | None => None end)
  (at level 61, e at next level, right associativity, only parsing).
Notation "' p <- e ;; k" :=
  (match e with Some p => k | None => None end)
  (at level 61, p pattern, e at next level, right associativity, only parsing).

(** The groups 1 to 4 of the [rgb] pattern (line 117) when it matches:
    anchored at both ends and case-insensitive, it reads [rgb], an
    optional [a], an opening parenthesis, three channels [\s* ([\d.]+) \s*]
    separated by commas, optionally a comma and a fourth channel, and a
    closing parenthesis.  The character classes of neighbouring pieces are
    disjoint, so the match is found without backtracking. *)
Definition match_rgb (v : jsstring)
  : option (jsstring * jsstring * jsstring * option jsstring) :=
  s <- expect_ci (ch "r") v ;;
  s <- expect_ci (ch "g") s ;;
  s <- expect_ci (ch "b") s ;;
  let s := match expect_ci (ch "a") s with Some s' => s' | None => s end in
  s <- expect (ch "(") s ;;
  '(c1, s) <- channel (skip_ws s) ;;
  s <- expect (ch ",") s ;;
  '(c2, s) <- channel (skip_ws s) ;;
  s <- expect (ch ",") s ;;
  '(c3, s) <- channel (skip_ws s) ;;
  match expect (ch ",") s with
  | Some s =>
      '(c4, s) <- channel (skip_ws s) ;;
      match expect (ch ")") s with
      | Some [] => Some (c1, c2, c3, Some c4)
      | _ => None
      end
  | None =>
      match expect (ch ")") s with
      | Some [] => Some (c1, c2, c3, None)
      | _ => None
      end
  end.

(** [(n) => Math.round(n).toString(16).padStart(2, "0").toUpperCase()]. *)
Definition toHex (n : number) : jsstring :=
  toUpperCase (padStart0 2 (toString16 (Math_round n))).

(** The hex branch, from the text of group 1. *)
Definition color_of_hex (h0 : jsstring) : NormalizedColor :=
  let h := toLowerCase h0 in
  let h :=
    if Nat.eqb (length h) 3 || Nat.eqb (length h) 4
    then concat (map (fun c => [c; c]) h) else h in
  let r := parseInt16 (slice 0 2 h) in
  let g := parseInt16 (slice 2 4 h) in
  let b := parseInt16 (slice 4 6 h) in
  let a :=
    if Nat.eqb (length h) 8 then div (parseInt16 (slice 6 8 h)) (of_Z 255)
    else of_Z 1 in
  {| r := div r (of_Z 255);
     g := div g (of_Z 255);
     b := div b (of_Z 255);
     a := clamp01 a;
     hex := ch "#" :: toUpperCase (slice 0 6 h) |}.

(** The functional branch, from the groups. *)
Definition color_of_rgb (c1 c2 c3 : jsstring) (c4 : option jsstring)
  : NormalizedColor :=
  let r := Number c1 in
  let g := Number c2 in
  let b := Number c3 in
  let a := match c4 with None => of_Z 1 | Some s => Number s end in
  {| r := clamp01 (div r (of_Z 255));
     g := clamp01 (div g (of_Z 255));
     b := clamp01 (div b (of_Z 255));
     a := clamp01 a;
     hex := ch "#" :: toHex r ++ toHex g ++ toHex b |}.

(** [parseColor(v)] for a string [v]; [None] is [null].  (The default
    of [v ?? ...] only serves a missing value; the callers pass strings.) *)
Definition parseColor (v : jsstring) : option NormalizedColor :=
  let v := trim v in
  if JsString.eqb v (js "transparent") then
    Some {| r := of_Z 0; g := of_Z 0; b := of_Z 0; a := of_Z 0;
            hex := js "#000000" |}
  else
    match match_hex v with
    | Some h => Some (color_of_hex h)
    | None =>
        match match_rgb v with
        | Some (c1, c2, c3, c4) => Some (color_of_rgb c1 c2 c3 c4)
        | None => None
        end
    end.

End ColorParser.

Import ColorParser.

(* ================================================================== *)
(** ** Plain objects used as maps *)

Module Obj.

Section Obj.
Variable V : Type.

(** The own properties, in insertion order.  (JavaScript lists
    array-index keys first; no key of this program's maps that matters
    here is one: variable names start with two dashes.) *)
Definition t := list (jsstring * V).

Fixpoint get (o : t) (k : jsstring) : option V :=
  match o with
  | [] => None
  | (k', v) :: rest => if JsString.eqb k' k then Some v else get rest k
  end.

(** The own property [k] gets the value [v]: in place if the object has
    the key, appended otherwise. *)
Fixpoint define (o : t) (k : jsstring) (v : V) : t :=
  match o with
  | [] => [(k, v)]
  | (k', v') :: rest =>
      if JsString.eqb k' k then (k', v) :: rest else (k', v') :: define rest k v
  end.

(** [o[k] = v] on a plain object.  The key [__proto__] reaches the
    setter of [Object.prototype] and defines no property. *)
Definition set (o : t) (k : jsstring) (v : V) : t :=
  if JsString.eqb k (js "__proto__") then o else define o k v.

(** [Object.keys(o)]. *)
Definition keys (o : t) : list jsstring := map fst o.

End Obj.

Arguments get {V} o k.
Arguments define {V} o k v.
Arguments set {V} o k v.
Arguments keys {V} o.

End Obj.

(* ================================================================== *)
(** ** Tokens, paths and the variable-set extractor (lines 137-189) *)

Module Token.

Record ColorValue := mkValue {
  colorSpace : jsstring;
  components : list number;
  alpha : number;
  hex : jsstring
}.

(** The fields [$type] and [$value]. *)
Record ColorToken := mkToken {
  type : jsstring;
  value : ColorValue
}.

End Token.

Definition makeDtcgColorTokenFromParsedColor (c : NormalizedColor)
  : Token.ColorToken :=
  {| Token.type := js "color";
     Token.value :=
       {| Token.colorSpace := js "srgb";
          Token.components := [r c; g c; b c];
          Token.alpha := a c;
          Token.hex := hex c |} |}.

Definition TRANSPARENT_TOKEN : Token.ColorToken :=
  makeDtcgColorTokenFromParsedColor
    {| r := of_Z 0; g := of_Z 0; b := of_Z 0; a := of_Z 0;
       hex := js "#000000" |}.

Definition toTokenPath (cssVarName : jsstring) : list jsstring :=
  let n := trim cssVarName in
  let n := replace_prefix (js "--") n in
  let n := replace_prefix (js "vscode-") n in
  let parts := split (ch "-") n in
  match parts with
  | [p] => [js "vscode"; p]
  | _ => [js "vscode"; hd [] parts; join (js "-") (tl parts)]
  end.

(** [flattenCssVarsToColorTokens(cssVars)], on the entries of [cssVars]
    in the order [Object.entries] lists them. *)
Definition flattenCssVarsToColorTokens (cssVars : list (jsstring * jsstring))
  : Obj.t Token.ColorToken :=
  fold_left
    (fun (flat : Obj.t Token.ColorToken) (kv : jsstring * jsstring) =>
       let (k, v) := kv in
       if startsWith (js "--vscode-") k then
         match parseColor v with
         | Some c => Obj.set flat k (makeDtcgColorTokenFromParsedColor c)
         | None => flat
         end
       else flat)
    cssVars ([] : Obj.t Token.ColorToken).

(* ================================================================== *)
(** ** The union block of [main] (lines 386-418, 426) *)

(** The keys and the report of the union block, over flat sets whose
    tokens are values.  This is what the block computes of names and
    counts; the token objects, the nester's calls and the files of lines
    411-414, after which a round can end the run, are in [Main]. *)
Module Union.

(** What the union block reads of an item. *)
Record Item := mkItem {
  name : jsstring;
  flat : Obj.t Token.ColorToken
}.

(** [unionKeySet.add(k)]. *)
Definition set_add (set : list jsstring) (k : jsstring) : list jsstring :=
  if existsb (JsString.eqb k) set then set else set ++ [k].

Definition unionKeySet (items : list Item) : list jsstring :=
  fold_left (fun set it => fold_left set_add (Obj.keys (flat it)) set) items [].

Fixpoint insert (k : jsstring) (l : list jsstring) : list jsstring :=
  match l with
  | [] => [k]
  | x :: rest => if JsString.ltb x k then x :: insert k rest else k :: l
  end.

(** [Array.from(unionKeySet).sort()]: the elements in the order
    [JsString.ltb]; whatever algorithm the engine runs, a list of distinct
    strings has one sorted arrangement. *)
Definition sort (l : list jsstring) : list jsstring := fold_right insert [] l.

Definition unionKeys (items : list Item) : list jsstring :=
  sort (unionKeySet items).

(** The loop over [unionKeys] for one item: the [missing] list and
    [unionFlat], for flat sets whose names all begin with [--vscode-]
    (no such name is a member of [Object.prototype], so [it.flat[k]] is
    the own property or nothing). *)
Definition fill (keys : list jsstring) (it : Item)
  : list jsstring * Obj.t Token.ColorToken :=
  fold_left
    (fun (acc : list jsstring * Obj.t Token.ColorToken) k =>
       let (missing, unionFlat) := acc in
       match Obj.get (flat it) k with
       | Some token => (missing, Obj.set unionFlat k token)
       | None => (missing ++ [k], Obj.set unionFlat k TRANSPARENT_TOKEN)
       end)
    keys ([], ([] : Obj.t Token.ColorToken)).

Record SourceReport := mkReport {
  missing : list jsstring;
  present : Z
}.

(** The report written at line 426, and per item, in order, its name and
    the [unionFlat] handed to the nester together with [unionKeys]. *)
Record Output := mkOutput {
  totalUnionKeys : Z;
  report : Obj.t SourceReport;
  unionFlats : list (jsstring * Obj.t Token.ColorToken)
}.

Definition len (l : list jsstring) : Z := Z.of_nat (length l).

Definition step (keys : list jsstring)
    (acc : Obj.t SourceReport * list (jsstring * Obj.t Token.ColorToken))
    (it : Item) :=
  let (rep, flats) := acc in
  let (missing, unionFlat) := fill keys it in
  (Obj.set rep (name it)
     {| missing := missing; present := len keys - len missing |},
   flats ++ [(name it, unionFlat)]).

(** The block guarded by [unionEnabled && items.length >= 2]; [None]
    when the guard fails. *)
Definition union (unionEnabled : bool) (items : list Item) : option Output :=
  if unionEnabled && (2 <=? length items)%nat then
    let keys := unionKeys items in
    let (rep, flats) := fold_left (step keys) items (([] : Obj.t SourceReport), []) in
    Some {| totalUnionKeys := len keys; report := rep; unionFlats := flats |}
  else None.

End Union.

(* ================================================================== *)
(** ** The nester ([setNested], [nestFlatTokens], lines 167-200) *)

Module Heap.

(** The nester creates objects and assigns into objects it did not
    create: a token found at a path's middle segment receives the
    property.  The tokens are shared (with the flat map, and the
    placeholder with every use of it), so objects are heap cells and a
    value refers to one by its location.  [VBuiltin k] is the function
    that [Object.prototype] holds under the name [k]: what reading [k]
    gives on an object that has no property of that name itself. *)
Definition loc := nat.

Inductive value :=
| VUndefined
| VNull
| VBool (b : bool)
| VNum (n : number)
| VStr (s : jsstring)
| VObj (l : loc)
| VBuiltin (k : jsstring).

Definition object := Obj.t value.

Definition heap := list object.

Definition own (h : heap) (l : loc) : object := nth l h [].

Fixpoint update (l : loc) (o : object) (h : heap) : heap :=
  match h, l with
  | [], _ => []
  | _ :: rest, O => o :: rest
  | x :: rest, S l' => x :: update l' o rest
  end.

(** An empty object literal. *)
Definition alloc (h : heap) : heap * loc := (h ++ [[]], length h).

(** What a step of the program does: a result, a thrown [TypeError], or
    an access this model does not follow ([Inherited]): one that would
    change [Object.prototype], the prototype of an object or a function
    of the realm.  So as long as a run is followed, these are as the
    realm made them. *)
Inductive result (A : Type) :=
| Ok (x : A)
| TypeError
| Inherited.
Arguments Ok {A} x.
Arguments TypeError {A}.
Arguments Inherited {A}.

(** The members of [Object.prototype]: the accessor [__proto__] and
    eleven functions.  A key that names none of them is found on an
    object only as an own property. *)
Definition object_prototype_names : list jsstring :=
  map js
    ["constructor"; "__proto__"; "hasOwnProperty"; "isPrototypeOf";
     "propertyIsEnumerable"; "toLocaleString"; "toString"; "valueOf";
     "__defineGetter__"; "__defineSetter__"; "__lookupGetter__";
     "__lookupSetter__"]%string.

Definition own_key (k : jsstring) : bool :=
  negb (existsb (JsString.eqb k) object_prototype_names).

Definition get_prop (h : heap) (l : loc) (k : jsstring) : value :=
  match Obj.get (own h l) k with
  | Some v => v
  | None => VUndefined
  end.

Definition set_prop (h : heap) (l : loc) (k : jsstring) (v : value) : heap :=
  update l (Obj.set (own h l) k v) h.

(** [cur[k] = v] in strict code (a module).  On an object the key
    [__proto__] reaches the setter of [Object.prototype]; any other key
    becomes or is an own property.  A function of the realm has [name]
    and [length] as properties that are not writable, so assigning to
    them throws; another key would change the function.  On anything
    else the assignment throws. *)
Definition put (h : heap) (cur : value) (k : jsstring) (v : value)
  : result heap :=
  match cur with
  | VObj l =>
      if JsString.eqb k (js "__proto__") then Inherited
      else Ok (set_prop h l k v)
  | VBuiltin _ =>
      if JsString.eqb k (js "name") || JsString.eqb k (js "length")
      then TypeError
      else Inherited
  | _ => TypeError
  end.

(** One round of the loop: [cur[k] ??= {}; cur = cur[k]].  With a key
    that names a function of [Object.prototype], an object that has no
    property of that name itself gives the function, which is neither
    [null] nor [undefined]: nothing is assigned, and [cur] becomes the
    function.  With [__proto__], [cur] would become [Object.prototype]
    and the assignment after the loop would change it. *)
Definition descend (h : heap) (cur : value) (k : jsstring)
  : result (heap * value) :=
  match cur with
  | VObj l =>
      if own_key k then
        match get_prop h l k with
        | VUndefined | VNull =>
            let (h', fresh) := alloc h in
            Ok (set_prop h' l k (VObj fresh), VObj fresh)
        | v => Ok (h, v)
        end
      else if JsString.eqb k (js "__proto__") then Inherited
      else
        match Obj.get (own h l) k with
        | Some VUndefined | Some VNull =>
            let (h', fresh) := alloc h in
            Ok (set_prop h' l k (VObj fresh), VObj fresh)
        | Some v => Ok (h, v)
        | None => Ok (h, VBuiltin k)
        end
  | VBuiltin _ => Inherited
  | _ => TypeError
  end.

(** [setNested(obj, pathArr, value)]; of an empty [pathArr] the last
    element is [undefined], which as a key reads [undefined]. *)
Fixpoint setNested (h : heap) (cur : value) (pathArr : list jsstring)
    (v : value) : result heap :=
  match pathArr with
  | [] => put h cur (js "undefined") v
  | [k] => put h cur k v
  | k :: rest =>
      match descend h cur k with
      | Ok (h', cur') => setNested h' cur' rest v
      | TypeError => TypeError
      | Inherited => Inherited
      end
  end.

Definition truthy (v : value) : bool :=
  match v with
  | VUndefined | VNull => false
  | VBool b => b
  | VNum (S754_zero _) | VNum S754_nan => false
  | VNum _ => true
  | VStr [] => false
  | VStr _ => true
  | VObj _ => true
  | VBuiltin _ => true
  end.

(** The loop of [nestFlatTokens] over [keys], filling [out]. *)
Fixpoint nest_keys (h : heap) (flatMap : object) (out : loc)
    (keys : list jsstring) : result heap :=
  match keys with
  | [] => Ok h
  | k :: rest =>
      if own_key k then
        let token := match Obj.get flatMap k with
                     | Some v => v
                     | None => VUndefined
                     end in
        if truthy token then
          match setNested h (VObj out) (toTokenPath k) token with
          | Ok h' => nest_keys h' flatMap out rest
          | TypeError => TypeError
          | Inherited => Inherited
          end
        else nest_keys h flatMap out rest
      else Inherited
  end.

(** [nestFlatTokens(flatMap, orderedKeys)]: the heap afterwards and the
    location of [out].  The flat map is only read; its values refer to
    the token objects of the heap. *)
Definition nestFlatTokens (h : heap) (flatMap : object)
    (orderedKeys : option (list jsstring)) : result (heap * loc) :=
  let (h1, out) := alloc h in
  let keys := match orderedKeys with
              | Some ks => ks
              | None => Obj.keys flatMap
              end in
  match nest_keys h1 flatMap out keys with
  | Ok h' => Ok (h', out)
  | TypeError => TypeError
  | Inherited => Inherited
  end.

(** [v[p1][p2]...] by own properties; [undefined] where it stops. *)
Fixpoint lookup (h : heap) (v : value) (path : list jsstring) : value :=
  match path with
  | [] => v
  | k :: rest =>
      match v with
      | VObj l => lookup h (get_prop h l k) rest
      | _ => VUndefined
      end
  end.

End Heap.


(* ================================================================== *)
(** ** The declaration reader ([CSS_PATTERN], [parseCssDeclarations],
       lines 28-56) *)

Module CssParser.

(** [\w] (the pattern has no flag): a letter, a digit or the underscore. *)
Definition is_word (c : N) : bool :=
  is_digit c || is_upper c || is_lower c || N.eqb c (ch "_").

(** [[_A-Za-z]]. *)
Definition is_name_start (c : N) : bool :=
  N.eqb c (ch "_") || is_upper c || is_lower c.

(** [[\w-]]. *)
Definition is_name_char (c : N) : bool := is_word c || N.eqb c (ch "-").

(** What the dot of a pattern does not match. *)
Definition is_line_terminator (c : N) : bool :=
  existsb (N.eqb c) [10; 13; 8232; 8233]%N.

(** [content.split(/\r?\n/)]: a line ends at a line feed; a carriage
    return right before it belongs to the separator. *)
Fixpoint split_lines (s : jsstring) : list jsstring :=
  match s with
  | [] => [[]]
  | c :: rest =>
      let keep := match split_lines rest with
                  | seg :: segs => (c :: seg) :: segs
                  | [] => [[c]]
                  end in
      if N.eqb c 10 then [] :: split_lines rest
      else if N.eqb c 13 then
        match rest with
        | d :: rest' => if N.eqb d 10 then [] :: split_lines rest' else keep
        | [] => keep
        end
      else keep
  end.

(** Group 1, [([_A-Za-z][\w-]*|--[\w-]+)], and what follows it.  Both
    runs are taken whole: the pattern goes on with [\s*:], which no name
    character starts, and the two alternatives differ in their first
    character. *)
Definition match_name (s : jsstring) : option (jsstring * jsstring) :=
  match s with
  | c :: rest =>
      if is_name_start c then
        let (x, y) := span is_name_char rest in Some (c :: x, y)
      else
        match strip_prefix (js "--") s with
        | Some rest' =>
            match span is_name_char rest' with
            | ([], _) => None
            | (x, y) => Some (js "--" ++ x, y)
            end
        | None => None
        end
  | [] => None
  end.

(** [\s*;\s*$]. *)
Definition match_end (s : jsstring) : bool :=
  match skip_ws s with
  | c :: rest =>
      N.eqb c (ch ";") && match skip_ws rest with [] => true | _ :: _ => false end
  | [] => false
  end.

(** [(.+?)\s*;\s*$]: the lazy group takes one character, then one more
    each time the rest of the pattern fails after it. *)
Fixpoint match_value (s : jsstring) : option jsstring :=
  match s with
  | c :: rest =>
      if is_line_terminator c then None
      else if match_end rest then Some [c]
      else match match_value rest with
           | Some v => Some (c :: v)
           | None => None
           end
  | [] => None
  end.

(** [\s*(.+?)\s*;\s*$]: the white space is taken greedily and given back
    character by character while the rest fails. *)
Fixpoint match_after_colon (s : jsstring) : option jsstring :=
  match s with
  | c :: rest =>
      if is_ws c then
        match match_after_colon rest with
        | Some v => Some v
        | None => match_value s
        end
      else match_value s
  | [] => None
  end.

(** [CSS_PATTERN.exec(raw)]: the groups 1 and 2 when the pattern matches.
    Up to the colon there is one way to match: white space, the name,
    white space and the colon exclude each other. *)
Definition CSS_PATTERN_exec (raw : jsstring) : option (jsstring * jsstring) :=
  '(name, s) <- match_name (skip_ws raw) ;;
  s <- expect (ch ":") (skip_ws s) ;;
  v <- match_after_colon s ;;
  Some (name, v).

(** [line.endsWith(p)]. *)
Definition endsWith (p s : jsstring) : bool := startsWith (rev p) (rev s).

Record Parsed := mkParsed {
  vars : Obj.t jsstring;
  skipped : Z
}.

(** One round of the loop over the lines. *)
Definition step (acc : Parsed) (raw : jsstring) : Parsed :=
  let skip := {| vars := vars acc; skipped := skipped acc + 1 |} in
  let line := trim raw in
  match line with
  | [] => acc
  | _ :: _ =>
      if JsString.eqb line (js "{") || JsString.eqb line (js "}") then skip
      else if endsWith (js "{") line || startsWith (js ".") line then skip
      else if startsWith (js "/*") line || startsWith (js "*") line
              || startsWith (js "//") line then skip
      else
        match CSS_PATTERN_exec raw with
        | None => skip
        | Some (name, value) =>
            {| vars := Obj.set (vars acc) (trim name) (trim value);
               skipped := skipped acc |}
        end
  end.

Definition parseCssDeclarations (content : jsstring) : Parsed :=
  fold_left step (split_lines content) {| vars := []; skipped := 0 |}.

End CssParser.

(* ================================================================== *)
(** ** Counting the tokens of a tree ([countLeafTokens], lines 202-208) *)

Module Leaves.

Import Heap.

(** [countLeafTokens(obj)] on the heap of the nester.  The recursion
    follows the properties of objects and need not end (an object can
    hold itself): the model counts with [fuel], one unit for each level
    of objects it descends, and gives [None] when it runs out.  The sum
    over [Object.values(obj)] does not depend on the order of the
    properties. *)
Fixpoint countLeafTokens (fuel : nat) (h : heap) (obj : value) : option Z :=
  match obj with
  | VObj l =>
      if truthy (get_prop h l (js "$type")) && truthy (get_prop h l (js "$value"))
      then Some 1%Z
      else
        match fuel with
        | O => None
        | S fuel' =>
            fold_left
              (fun (n : option Z) (v : value) =>
                 match n, countLeafTokens fuel' h v with
                 | Some n, Some m => Some (n + m)%Z
                 | _, _ => None
                 end)
              (map snd (own h l)) (Some 0%Z)
        end
  | _ => Some 0%Z
  end.

End Leaves.

(* ================================================================== *)
(** ** The table printer ([displayWidth], [padEndByWidth], [printTable],
       lines 295-337) *)

Module Table.

Definition is_high_surrogate (c : N) : bool := ((55296 <=? c) && (c <=? 56319))%N.
Definition is_low_surrogate (c : N) : bool := ((56320 <=? c) && (c <=? 57343))%N.

(** [for (const ch of str)]: the strings the iterator yields, one for
    each code point; a high surrogate and the low surrogate after it
    make one. *)
Fixpoint code_points (str : jsstring) : list jsstring :=
  match str with
  | [] => []
  | c :: rest =>
      match rest with
      | d :: rest' =>
          if is_high_surrogate c && is_low_surrogate d
          then [c; d] :: code_points rest'
          else [c] :: code_points rest
      | [] => [[c]]
      end
  end.

(** A code unit of the pattern's class (line 299): from 4E00 to 9FFF,
    from 3000 to 303F or from FF00 to FFEF. *)
Definition is_wide (c : N) : bool :=
  (((19968 <=? c) && (c <=? 40959)) || ((12288 <=? c) && (c <=? 12351))
   || ((65280 <=? c) && (c <=? 65519)))%N.

(** The pattern's [test(ch)]: without the [u] flag it looks for a code
    unit of the class. *)
Definition wide_test (ch : jsstring) : bool := existsb is_wide ch.

Definition displayWidth (str : jsstring) : Z :=
  fold_left (fun width ch => if wide_test ch then width + 2 else width + 1)%Z
    (code_points str) 0%Z.

(** [padEndByWidth(str, targetWidth)].  The width is [None] when the
    caller read it past the end of [colWidths]: the difference is then
    NaN, as is the maximum, and [repeat] takes it for 0. *)
Definition padEndByWidth (str : jsstring) (targetWidth : option Z) : jsstring :=
  match targetWidth with
  | Some w =>
      let currentWidth := displayWidth str in
      let padding := Z.max 0 (w - currentWidth) in
      str ++ repeat (ch " ") (Z.to_nat padding)
  | None => str
  end.

(** What the program puts into a table: strings and counts. *)
Inductive cell :=
| Text (s : jsstring)
| Count (n : N).

Fixpoint digits (u : Decimal.uint) : jsstring :=
  match u with
  | Decimal.Nil => []
  | Decimal.D0 u => ch "0" :: digits u
  | Decimal.D1 u => ch "1" :: digits u
  | Decimal.D2 u => ch "2" :: digits u
  | Decimal.D3 u => ch "3" :: digits u
  | Decimal.D4 u => ch "4" :: digits u
  | Decimal.D5 u => ch "5" :: digits u
  | Decimal.D6 u => ch "6" :: digits u
  | Decimal.D7 u => ch "7" :: digits u
  | Decimal.D8 u => ch "8" :: digits u
  | Decimal.D9 u => ch "9" :: digits u
  end.

(** [String(c)], of a missing cell [undefined].  A count is written with
    all its digits (as numbers below 10^21 are). *)
Definition String_ (c : option cell) : jsstring :=
  match c with
  | Some (Text s) => s
  | Some (Count n) => digits (N.to_uint n)
  | None => js "undefined"
  end.

(** [xs.map((x, i) => f(x, i))]. *)
Fixpoint mapi_from {A B : Type} (f : A -> nat -> B) (i : nat) (xs : list A)
  : list B :=
  match xs with
  | [] => []
  | x :: rest => f x i :: mapi_from f (S i) rest
  end.

Definition mapi {A B : Type} (f : A -> nat -> B) (xs : list A) : list B :=
  mapi_from f 0 xs.

(** [Math.max(first, ...rest)] on widths. *)
Definition Math_max_of (first : Z) (rest : list Z) : Z := fold_left Z.max rest first.

Definition colWidths (headers : list jsstring) (rows : list (list cell))
  : list Z :=
  mapi
    (fun h i =>
       let maxWidth :=
         Math_max_of (displayWidth h)
           (map (fun r => displayWidth (String_ (nth_error r i))) rows) in
       (maxWidth + 2)%Z)
    headers.

(** [c.repeat(w)]. *)
Definition repeat_char (c : N) (w : Z) : jsstring := repeat c (Z.to_nat w).

(** [printTable(headers, rows)]: the lines it logs, in order. *)
Definition printTable (headers : list jsstring) (rows : list (list cell))
  : list jsstring :=
  let colWidths := colWidths headers rows in
  let separator := join (js "+") (map (repeat_char (ch "-")) colWidths) in
  let border := js "+" ++ separator ++ js "+" in
  [border;
   js "|"
   ++ join (js "|")
        (mapi (fun h i => padEndByWidth h (nth_error colWidths i)) headers)
   ++ js "|";
   border]
  ++ map (fun row =>
            js "|"
            ++ join (js "|")
                 (mapi (fun c i =>
                          padEndByWidth (String_ (Some c)) (nth_error colWidths i))
                    row)
            ++ js "|")
       rows
  ++ [border].

End Table.

(* ================================================================== *)
(** ** The two loops of [main] on the heap (lines 149, 362-426) *)

Module Main.

Import Heap.

(** The first error ends a run. *)
Definition bind {A B : Type} (r : result A) (f : A -> result B) : result B :=
  match r with
  | Ok x => f x
  | TypeError => TypeError
  | Inherited => Inherited
  end.

(** [makeDtcgColorTokenFromParsedColor(c)] (lines 137-147): the literal
    creates the token object, the object of its [$value] and the array
    of the components, in this order.  The array has its elements under
    the indices; its [length] is not enumerable. *)
Definition makeDtcgColorTokenFromParsedColor (h : heap) (c : NormalizedColor)
  : heap * loc :=
  let t := length h in
  (h ++ [ [(js "$type", VStr (js "color")); (js "$value", VObj (S t))];
          [(js "colorSpace", VStr (js "srgb"));
           (js "components", VObj (S (S t)));
           (js "alpha", VNum (a c));
           (js "hex", VStr (hex c))];
          [(js "0", VNum (r c)); (js "1", VNum (g c)); (js "2", VNum (b c))] ],
   t).

(** The heap when [main] starts: the module has created
    [TRANSPARENT_TOKEN] (line 149), one object for the whole run. *)
Definition initial_heap : heap :=
  fst (makeDtcgColorTokenFromParsedColor []
         {| r := of_Z 0; g := of_Z 0; b := of_Z 0; a := of_Z 0;
            hex := js "#000000" |}).

Definition TRANSPARENT_TOKEN : loc := 0.

(** [flattenCssVarsToColorTokens(cssVars)] (lines 177-189) on the
    entries of [cssVars]: a token object is created for every entry that
    is kept, and [flat] refers to it. *)
Definition flattenCssVarsToColorTokens (h : heap)
    (cssVars : list (jsstring * jsstring)) : heap * object :=
  fold_left
    (fun (acc : heap * object) (kv : jsstring * jsstring) =>
       let (h, flat) := acc in
       let (k, v) := kv in
       if startsWith (js "--vscode-") k then
         match parseColor v with
         | Some c =>
             let (h', token) := makeDtcgColorTokenFromParsedColor h c in
             (h', Obj.set flat k (VObj token))
         | None => (h, flat)
         end
       else (h, flat))
    cssVars (h, ([] : object)).

(** Lines 371-372: the flat set of a variable map and its tree. *)
Definition tokens_tree (h : heap) (cssVars : list (jsstring * jsstring))
  : object * result (heap * loc) :=
  let (h1, flat) := flattenCssVarsToColorTokens h cssVars in
  (flat, nestFlatTokens h1 flat None).

(** [JSON.stringify(value)] as far as it can fail: it goes through the
    own properties of objects, property by property, and throws a
    [TypeError] when it comes to an object it is inside of (a cyclic
    structure).  Before that it reads [toJSON] of the object and calls it
    if it is a function, which this model does not follow.  The objects
    it is inside of are [stack]; one unit of [fuel] is used for each
    level, and a structure that is not cyclic has fewer levels than the
    heap has objects. *)
Fixpoint serialize (fuel : nat) (h : heap) (stack : list loc) (v : value)
  : result unit :=
  match v with
  | VObj l =>
      match Obj.get (own h l) (js "toJSON") with
      | Some (VBuiltin _) => Inherited
      | _ =>
          if existsb (Nat.eqb l) stack then TypeError
          else
            match fuel with
            | O => Inherited
            | S fuel' =>
                fold_left
                  (fun (r : result unit) (kv : jsstring * value) =>
                     bind r (fun _ => serialize fuel' h (l :: stack) (snd kv)))
                  (own h l) (Ok tt)
            end
      end
  | _ => Ok tt
  end.

(** [writeJson(filePath, data)] (lines 214-217), the file system taken
    to accept the file. *)
Definition writeJson (h : heap) (data : value) : result unit :=
  serialize (S (length h)) h [] data.

(** What [main] has of an input file when it converts it: the name (the
    file's base name without its extension) and the entries of the
    variable map [readInputAsVarMap] returned. *)
Record Input := mkInput {
  input_name : jsstring;
  vars : list (jsstring * jsstring)
}.

(** An element of [items] (line 379), as far as the union block reads
    it, and the tree. *)
Record Item := mkItem {
  name : jsstring;
  flat : object;
  nested : loc
}.

(** One round of the first loop (lines 369-380). *)
Definition convert (st : heap * list Item) (input : Input)
  : result (heap * list Item) :=
  let (h, items) := st in
  let (flat, tree) := tokens_tree h (vars input) in
  bind tree (fun hn =>
    let (h', nested) := hn in
    bind (writeJson h' (VObj nested)) (fun _ =>
      Ok (h', items ++ [ {| name := input_name input;
                            flat := flat;
                            nested := nested |} ]))).

(** Lines 387-391. *)
Definition unionKeySet (items : list Item) : list jsstring :=
  fold_left (fun set it => fold_left Union.set_add (Obj.keys (flat it)) set)
    items [].

Definition unionKeys (items : list Item) : list jsstring :=
  Union.sort (unionKeySet items).

(** The loop over [unionKeys] for one item (lines 401-409): the
    [missing] list and [unionFlat].  [it.flat[k]] is an own property or
    nothing when [k] names no member of [Object.prototype]. *)
Definition fill (keys : list jsstring) (it : Item)
  : result (list jsstring * object) :=
  fold_left
    (fun (acc : result (list jsstring * object)) (k : jsstring) =>
       bind acc (fun mu =>
         let (missing, unionFlat) := mu in
         if own_key k then
           let token := match Obj.get (flat it) k with
                        | Some v => v
                        | None => VUndefined
                        end in
           if truthy token then Ok (missing, Obj.set unionFlat k token)
           else Ok (missing ++ [k],
                    Obj.set unionFlat k (VObj TRANSPARENT_TOKEN))
         else Inherited))
    keys (Ok ([], ([] : object))).

(** What one round of the union loop makes: the heap when the nester is
    called, [unionFlat], [missing] and the tree. *)
Record Filled := mkFilled {
  source : jsstring;
  before : heap;
  unionFlat : object;
  missing : list jsstring;
  unionNested : loc
}.

Record UnionState := mkState {
  heap_now : heap;
  report : Obj.t Union.SourceReport;
  filled : list Filled
}.

(** One round of the union loop (lines 397-418). *)
Definition union_step (keys : list jsstring) (st : UnionState) (it : Item)
  : result UnionState :=
  bind (fill keys it) (fun mu =>
    let (missing, unionFlat) := mu in
    bind (nestFlatTokens (heap_now st) unionFlat (Some keys)) (fun hn =>
      let (h', unionNested) := hn in
      bind (writeJson h' (VObj unionNested)) (fun _ =>
        Ok {| heap_now := h';
              report :=
                Obj.set (report st) (name it)
                  {| Union.missing := missing;
                     Union.present := Union.len keys - Union.len missing |};
              filled :=
                filled st
                ++ [ {| source := name it;
                        before := heap_now st;
                        unionFlat := unionFlat;
                        missing := missing;
                        unionNested := unionNested |} ] |}))).

Record UnionOutput := mkUnion {
  totalUnionKeys : Z;
  union_report : Obj.t Union.SourceReport;
  union_filled : list Filled
}.

Record Output := mkOutput {
  items : list Item;
  heap_end : heap;
  union : option UnionOutput
}.

(** The block guarded by [unionEnabled && items.length >= 2].  The
    report it writes in the end (line 426) is made of new arrays and
    numbers, which [JSON.stringify] accepts. *)
Definition union_block (h : heap) (items : list Item) : result Output :=
  let keys := unionKeys items in
  bind (fold_left (fun acc it => bind acc (fun st => union_step keys st it))
          items (Ok {| heap_now := h; report := []; filled := [] |}))
    (fun st =>
       Ok {| items := items;
             heap_end := heap_now st;
             union := Some {| totalUnionKeys := Union.len keys;
                              union_report := report st;
                              union_filled := filled st |} |}).

(** [main] from the first loop on, for the inputs it has collected.  The
    tables it prints are left out: [countLeafTokens] is called on trees
    that [JSON.stringify] has accepted, and changes nothing. *)
Definition main (unionEnabled : bool) (inputs : list Input) : result Output :=
  bind (fold_left (fun acc input => bind acc (fun st => convert st input))
          inputs (Ok (initial_heap, [])))
    (fun st =>
       let (h, items) := st in
       if unionEnabled && (2 <=? length items)%nat then union_block h items
       else Ok {| items := items; heap_end := h; union := None |}).

End Main.
(* ================================================================== *)
(** ** Facts about strings and character classes *)

(** Split a conjunction into its parts, without touching the parts. *)
Ltac conjuncts := repeat match goal with |- _ /\ _ => split end.

Ltac b2p :=
  repeat match goal with
  | H : (_ && _)%bool = true |- _ => apply andb_true_iff in H; destruct H
  | H : (_ || _)%bool = true |- _ => apply orb_true_iff in H; destruct H
  | H : (_ && _)%bool = false |- _ => apply andb_false_iff in H; destruct H
  | H : (_ || _)%bool = false |- _ => apply orb_false_iff in H; destruct H
  | H : (_ =? _)%N = true |- _ => apply N.eqb_eq in H
  | H : (_ =? _)%N = false |- _ => apply N.eqb_neq in H
  | H : (_ <=? _)%N = true |- _ => apply N.leb_le in H
  | H : (_ <=? _)%N = false |- _ => apply N.leb_gt in H
  | H : (_ <? _)%N = true |- _ => apply N.ltb_lt in H
  | H : (_ <? _)%N = false |- _ => apply N.ltb_ge in H
  end.

Lemma eqb_eq (s t : jsstring) : JsString.eqb s t = true <-> s = t.
Proof.
  unfold JsString.eqb. destruct (list_eq_dec N.eq_dec s t); split; congruence.
Qed.

Lemma eqb_neq (s t : jsstring) : JsString.eqb s t = false <-> s <> t.
Proof.
  unfold JsString.eqb. destruct (list_eq_dec N.eq_dec s t); split; congruence.
Qed.

Lemma hex_digit_not_ws (c : N) : is_hex_digit c = true -> is_ws c = false.
Proof.
  unfold is_hex_digit, is_hex_char, is_digit, is_ws. cbn [existsb]. intros H.
  destruct (_ || _)%bool eqn:E at 1; [| reflexivity ].
  exfalso. b2p; lia.
Qed.

Lemma trimStart_head (c : N) (s : jsstring) :
  is_ws c = false -> trimStart (c :: s) = c :: s.
Proof. intros H. cbn. now rewrite H. Qed.

(** Trimming leaves a string alone when its first and last characters are
    not white space. *)
Lemma trim_no_ws (s : jsstring) :
  Forall (fun c => is_ws c = false) s -> trim s = s.
Proof.
  intros H. unfold trim, trimEnd.
  assert (Hs : forall t, Forall (fun c => is_ws c = false) t -> trimStart t = t).
  { intros [| c t] Ht; [ reflexivity | ]. inversion Ht; subst. now apply trimStart_head. }
  rewrite (Hs s H). rewrite Hs by now apply Forall_rev. apply rev_involutive.
Qed.

Lemma hex_digits_no_ws (h : jsstring) :
  forallb is_hex_digit h = true -> Forall (fun c => is_ws c = false) h.
Proof.
  intros H. apply Forall_forall. intros c Hc.
  apply hex_digit_not_ws. rewrite forallb_forall in H. now apply H.
Qed.

Lemma upper_lower_char (c : N) : upper_char (lower_char c) = upper_char c.
Proof.
  unfold upper_char, lower_char, is_upper, is_lower.
  destruct ((65 <=? c) && (c <=? 90))%N eqn:E1; [| reflexivity ].
  destruct ((97 <=? c + 32) && (c + 32 <=? 122))%N eqn:E2;
    destruct ((97 <=? c) && (c <=? 122))%N eqn:E3; b2p; lia.
Qed.

Lemma toUpperCase_toLowerCase (s : jsstring) :
  toUpperCase (toLowerCase s) = toUpperCase s.
Proof.
  unfold toUpperCase, toLowerCase. rewrite map_map.
  apply map_ext. apply upper_lower_char.
Qed.

Lemma lower_hex_digit (c : N) :
  is_hex_digit c = true -> is_hex_digit (lower_char c) = true.
Proof.
  unfold is_hex_digit, is_hex_char, is_digit, lower_char, is_upper. intros H.
  destruct ((65 <=? c) && (c <=? 90))%N eqn:E; [| exact H ].
  apply orb_true_iff. left. apply orb_true_iff. right.
  apply andb_true_iff. split; apply N.leb_le; b2p; lia.
Qed.

Lemma hex_val_lower (c : N) :
  is_hex_digit c = true -> hex_val (lower_char c) = hex_val c.
Proof.
  unfold is_hex_digit, is_hex_char, hex_val, is_digit, lower_char, is_upper. intros H.
  destruct ((65 <=? c) && (c <=? 90))%N eqn:E; [| reflexivity ].
  destruct ((48 <=? c + 32) && (c + 32 <=? 57))%N eqn:E1;
    destruct ((97 <=? c + 32) && (c + 32 <=? 102))%N eqn:E2;
    destruct ((48 <=? c) && (c <=? 57))%N eqn:E3;
    destruct ((97 <=? c) && (c <=? 102))%N eqn:E4; b2p; lia.
Qed.

Lemma hex_val_range (c : N) :
  is_hex_digit c = true -> (0 <= hex_val c <= 15)%Z.
Proof.
  unfold is_hex_digit, is_hex_char, hex_val, is_digit. intros H.
  destruct ((48 <=? c) && (c <=? 57))%N eqn:E3;
    destruct ((97 <=? c) && (c <=? 102))%N eqn:E4; b2p; lia.
Qed.

(* ================================================================== *)
(** ** Facts about numbers *)

Definition number_eqb (x y : number) : bool :=
  match x, y with
  | S754_zero s, S754_zero t => Bool.eqb s t
  | S754_infinity s, S754_infinity t => Bool.eqb s t
  | S754_nan, S754_nan => true
  | S754_finite s m e, S754_finite t n f =>
      Bool.eqb s t && Pos.eqb m n && Z.eqb e f
  | _, _ => false
  end.

Lemma number_eqb_eq (x y : number) : number_eqb x y = true -> x = y.
Proof.
  destruct x, y; cbn; try discriminate; intros H.
  - apply eqb_prop in H. now subst.
  - apply eqb_prop in H. now subst.
  - reflexivity.
  - apply andb_true_iff in H. destruct H as [H He].
    apply andb_true_iff in H. destruct H as [Hs Hm].
    apply eqb_prop in Hs. apply Pos.eqb_eq in Hm. apply Z.eqb_eq in He.
    now subst.
Qed.

(** [x] lies in the interval from 0 to 1. *)
Definition in01 (x : number) : bool := leb (of_Z 0) x && leb x (of_Z 1).

(** The quotient of a byte by 255, as [parseColor] computes it. *)
Definition unit_of_byte (n : Z) : number := div (of_Z n) (of_Z 255).

Lemma bytes_enumerated (n : Z) :
  (0 <= n <= 255)%Z -> In n (map Z.of_nat (seq 0 256)).
Proof.
  intros H. apply in_map_iff. exists (Z.to_nat n). split; [ lia | ].
  apply in_seq. lia.
Qed.

Lemma byte_facts (n : Z) :
  (0 <= n <= 255)%Z ->
  in01 (unit_of_byte n) = true /\ clamp01 (unit_of_byte n) = unit_of_byte n.
Proof.
  intros H.
  assert (E : forallb (fun n => in01 (unit_of_byte n)
                      && number_eqb (clamp01 (unit_of_byte n)) (unit_of_byte n))
                (map Z.of_nat (seq 0 256)) = true) by (vm_compute; reflexivity).
  rewrite forallb_forall in E. specialize (E n (bytes_enumerated n H)).
  apply andb_true_iff in E. destruct E as [E1 E2].
  split; [ exact E1 | now apply number_eqb_eq ].
Qed.

(* ================================================================== *)
(** ** [Math.round] returns integers *)

(** The number is NaN, infinite or an integer. *)
Definition integral (x : number) : bool :=
  match x with
  | S754_finite _ m e => ((0 <=? e) || (Z.pos m mod 2 ^ (- e) =? 0))%Z
  | _ => true
  end.

Lemma shr_exponent (mrs : shr_record) (e n : Z) : (e <= snd (shr mrs e n))%Z.
Proof. unfold shr. destruct n; cbn [snd]; lia. Qed.

Lemma round_aux_from_nonneg (sx : bool) (mx ex : Z) (lx : location) :
  (0 <= ex)%Z -> integral (binary_round_aux prec emax sx mx ex lx) = true.
Proof.
  intros Hex. unfold binary_round_aux, shr_fexp.
  pose proof (shr_exponent (shr_record_of_loc mx lx) ex
                (fexp prec emax (Zdigits2 mx + ex) - ex)) as H1.
  destruct (shr (shr_record_of_loc mx lx) ex _) as [mrs' e'].
  cbn [snd] in H1.
  match goal with
  | |- context [shr ?r e' ?n] =>
      pose proof (shr_exponent r e' n) as H2; destruct (shr r e' n) as [mrs'' e'']
  end.
  cbn [snd] in H2.
  destruct (shr_m mrs''); try reflexivity.
  destruct (e'' <=? emax - prec)%Z; [| reflexivity ].
  cbn [integral]. apply orb_true_iff. left. apply Z.leb_le. lia.
Qed.

Lemma iter_xO_digits (m d : positive) :
  digits2_pos (Pos.iter xO m d) = (digits2_pos m + d)%positive.
Proof.
  induction d as [| d IH] using Pos.peano_ind.
  - cbn. lia.
  - rewrite Pos.iter_succ. cbn [digits2_pos]. rewrite IH. lia.
Qed.

Lemma iter_xO_value (m d : positive) :
  Z.pos (Pos.iter xO m d) = (Z.pos m * 2 ^ Z.pos d)%Z.
Proof.
  induction d as [| d IH] using Pos.peano_ind.
  - cbn. lia.
  - rewrite Pos.iter_succ, Pos2Z.inj_succ, Z.pow_succ_r by lia.
    rewrite Pos2Z.inj_xO, IH. lia.
Qed.

Lemma round_aux_aligned (sx : bool) (mz : positive) (ez : Z) :
  fexp prec emax (Z.pos (digits2_pos mz) + ez) = ez ->
  binary_round_aux prec emax sx (Z.pos mz) ez loc_Exact
  = if (ez <=? emax - prec)%Z then S754_finite sx mz ez
    else S754_infinity sx.
Proof.
  intros H. unfold binary_round_aux, shr_fexp. cbn [Zdigits2 shr_record_of_loc].
  rewrite H, Z.sub_diag. cbn [shr shr_m loc_of_shr_record round_nearest_even].
  cbn [Zdigits2 shr_record_of_loc]. rewrite H, Z.sub_diag. reflexivity.
Qed.

Lemma binary_round_integral (sx : bool) (mx : positive) :
  integral (binary_round prec emax sx mx 0) = true.
Proof.
  unfold binary_round, shl_align. rewrite Z.add_0_r, Z.sub_0_r.
  destruct (fexp prec emax (Z.pos (digits2_pos mx))) as [| e | d] eqn:E.
  - now apply round_aux_from_nonneg.
  - now apply round_aux_from_nonneg.
  - rewrite round_aux_aligned.
    2:{ rewrite iter_xO_digits, Pos2Z.inj_add.
        replace (Z.pos (digits2_pos mx) + Z.pos d + Z.neg d)%Z
          with (Z.pos (digits2_pos mx)) by lia.
        exact E. }
    destruct (Z.neg d <=? emax - prec)%Z; [| reflexivity ].
    cbn [integral]. apply orb_true_iff. right. apply Z.eqb_eq.
    rewrite iter_xO_value. change (- Z.neg d)%Z with (Z.pos d).
    apply Z.mod_mul. lia.
Qed.

(** What [toString16] is given is NaN, an infinity or an integer. *)
Lemma Math_round_integral (x : number) : integral (Math_round x) = true.
Proof.
  destruct x as [s | s | | s m e]; try reflexivity.
  unfold Math_round. destruct (0 <=? e)%Z eqn:E.
  - cbn [integral]. now rewrite E.
  - unfold binary_normalize.
    destruct ((2 * (if s then Z.neg m else Z.pos m) + 2 ^ (- e)) / (2 * 2 ^ (- e)))%Z;
      [ reflexivity | apply binary_round_integral | apply binary_round_integral ].
Qed.

(* ================================================================== *)
(** ** The colour parser: hex forms *)

Lemma not_transparent (c : N) (s : jsstring) :
  c <> ch "t" -> JsString.eqb (c :: s) (js "transparent") = false.
Proof.
  intros H. apply eqb_neq. intros E. cbn in E. injection E as E _. now apply H.
Qed.

(** A sharp followed by 3, 4, 6 or 8 hex digits takes the hex branch. *)
Lemma parseColor_hex (h : jsstring) :
  forallb is_hex_digit h = true ->
  existsb (Nat.eqb (length h)) [3; 4; 6; 8] = true ->
  parseColor (ch "#" :: h) = Some (color_of_hex h).
Proof.
  intros Hd Hl. unfold parseColor.
  rewrite trim_no_ws.
  2:{ constructor; [ reflexivity | now apply hex_digits_no_ws ]. }
  rewrite not_transparent by discriminate.
  unfold match_hex. rewrite N.eqb_refl, Hd, Hl. reflexivity.
Qed.

Ltac list_of_length h :=
  repeat match goal with
  | H : length h = _ |- _ => destruct h; cbn in H; try discriminate H
  | H : S _ = S _ |- _ => apply Nat.succ_inj in H
  | H : length ?t = _ |- _ => destruct t; cbn in H; try discriminate H
  end.

(** The byte two hex digits denote. *)
Definition byte_of_digits (s : jsstring) : Z :=
  match s with
  | [x; y] => 16 * hex_val x + hex_val y
  | _ => 0
  end.

Lemma byte_of_digits_range (x y : N) :
  is_hex_digit x = true -> is_hex_digit y = true ->
  (0 <= byte_of_digits [x; y] <= 255)%Z.
Proof.
  intros Hx Hy. apply hex_val_range in Hx, Hy. unfold byte_of_digits. lia.
Qed.

Lemma lower_hex_facts (c : N) :
  is_hex_digit c = true ->
  is_ws (lower_char c) = false
  /\ N.eqb (lower_char c) (ch "-") = false
  /\ N.eqb (lower_char c) (ch "+") = false
  /\ N.eqb (lower_char (lower_char c)) (ch "x") = false
  /\ is_hex_char (lower_char c) = true.
Proof.
  intros H. pose proof (lower_hex_digit c H) as Hl.
  split; [ now apply hex_digit_not_ws | ].
  unfold is_hex_digit, is_hex_char, is_hex_char, is_digit in Hl.
  assert (R : (48 <= lower_char c <= 102)%N) by (b2p; lia).
  assert (L : lower_char (lower_char c) = lower_char c).
  { unfold lower_char at 1. unfold is_upper.
    destruct ((65 <=? lower_char c) && (lower_char c <=? 90))%N eqn:E;
      [| reflexivity ].
    exfalso. revert E. unfold lower_char, is_upper.
    destruct ((65 <=? c) && (c <=? 90))%N eqn:E'; intros E; b2p; lia. }
  rewrite L.
  change (ch "-") with 45%N. change (ch "+") with 43%N. change (ch "x") with 120%N.
  repeat split; try (apply N.eqb_neq; b2p; lia). exact Hl.
Qed.

Lemma parseInt16_pair (x y : N) :
  is_hex_digit x = true -> is_hex_digit y = true ->
  parseInt16 [lower_char x; lower_char y] = of_Z (byte_of_digits [x; y]).
Proof.
  intros Hx Hy.
  destruct (lower_hex_facts x Hx) as [X1 [X2 [X3 [_ X5]]]].
  destruct (lower_hex_facts y Hy) as [_ [_ [_ [Y4 Y5]]]].
  unfold parseInt16. cbn [trimStart]. rewrite X1, X2, X3, Y4, andb_false_r.
  cbn [span]. rewrite X5, Y5. cbn [fst].
  unfold hex_value, byte_of_digits, of_Z. cbn [fold_left].
  rewrite !hex_val_lower by assumption. f_equal. lia.
Qed.

Lemma clamp01_one : clamp01 (of_Z 1) = of_Z 1.
Proof. reflexivity. Qed.

(** C2. For every valid 6-digit hex input the parser returns alpha 1 and
    the upper-cased input as [hex]; for every valid 8-digit input, alpha
    is the last digit pair as a byte divided by 255, and [hex] is the
    upper-cased 6-digit RGB part: alpha never enters [hex]. *)
Theorem parse_hex6_hex8 (h : jsstring) :
  forallb is_hex_digit h = true ->
  length h = 6 \/ length h = 8 ->
  exists c,
    parseColor (ch "#" :: h) = Some c
    /\ hex c = ch "#" :: toUpperCase (firstn 6 h)
    /\ length (hex c) = 7
    /\ (length h = 6 -> a c = of_Z 1 /\ hex c = toUpperCase (ch "#" :: h))
    /\ (length h = 8 -> a c = div (of_Z (byte_of_digits (skipn 6 h))) (of_Z 255)).
Proof.
  intros Hd Hl. exists (color_of_hex h). split.
  { apply parseColor_hex; [ assumption | ]. destruct Hl as [E | E]; now rewrite E. }
  assert (Hhex : hex (color_of_hex h) = ch "#" :: toUpperCase (firstn 6 h)).
  { unfold color_of_hex. cbn [hex]. f_equal.
    replace (length (toLowerCase h)) with (length h) by (unfold toLowerCase; now rewrite length_map).
    destruct Hl as [E | E]; rewrite E; cbn [Nat.eqb orb];
      unfold slice; cbn [skipn Nat.sub];
      unfold toLowerCase; rewrite firstn_map;
      apply (toUpperCase_toLowerCase (firstn 6 h)). }
  split; [ exact Hhex | ]. split.
  { rewrite Hhex. cbn [length]. unfold toUpperCase. rewrite length_map, length_firstn.
    destruct Hl as [E | E]; rewrite E; reflexivity. }
  split.
  - intros E. split.
    + clear Hhex. list_of_length h. reflexivity.
    + rewrite Hhex. rewrite firstn_all2 by lia. reflexivity.
  - intros E. list_of_length h.
    cbn in Hd. b2p.
    unfold color_of_hex. cbn [a toLowerCase map length Nat.eqb orb slice skipn firstn Nat.sub].
    rewrite parseInt16_pair by assumption.
    apply byte_facts. now apply byte_of_digits_range.
Qed.

Lemma parse_hex6_hex8_witness :
  exists c,
    parseColor (js "#1e1E1eFf") = Some c
    /\ hex c = js "#1E1E1E"
    /\ length (hex c) = 7
    /\ (length (js "1e1E1eFf") = 6 -> a c = of_Z 1 /\ hex c = toUpperCase (js "#1e1E1eFf"))
    /\ (length (js "1e1E1eFf") = 8 -> a c = div (of_Z 255) (of_Z 255)).
Proof.
  exact (parse_hex6_hex8 (js "1e1E1eFf") eq_refl (or_intror eq_refl)).
Defined.

(** Every digit written twice. *)
Definition doubled (h : jsstring) : jsstring := concat (map (fun c => [c; c]) h).

(** C8. A 3-digit hex input parses to the same colour as its
    digit-doubled 6-digit form, and a 4-digit input to the same colour as
    its digit-doubled 8-digit form. *)
Theorem parse_short_hex_doubled (h : jsstring) :
  forallb is_hex_digit h = true ->
  length h = 3 \/ length h = 4 ->
  parseColor (ch "#" :: h) = parseColor (ch "#" :: doubled h)
  /\ parseColor (ch "#" :: h) = Some (color_of_hex h).
Proof.
  intros Hd Hl.
  assert (E1 : parseColor (ch "#" :: h) = Some (color_of_hex h)).
  { apply parseColor_hex; [ assumption | ]. destruct Hl as [E | E]; now rewrite E. }
  split; [| exact E1 ]. rewrite E1.
  destruct Hl as [E | E]; list_of_length h; cbn in Hd; b2p.
  all: rewrite parseColor_hex;
    [ reflexivity
    | cbn; repeat (apply andb_true_iff; split); assumption
    | reflexivity ].
Qed.

Lemma parse_short_hex_doubled_witness :
  parseColor (js "#abc") = parseColor (js "#aabbcc")
  /\ parseColor (js "#abc") = Some (color_of_hex (js "abc")).
Proof.
  exact (parse_short_hex_doubled (js "abc") eq_refl (or_introl eq_refl)).
Defined.

(* ================================================================== *)
(** ** The colour parser: letter case *)

Section CaseMap.

(** A change of letter case, as the patterns see it. *)
Variable f : N -> N.
Hypothesis f_lower : forall d, lower_char (f d) = lower_char d.
Hypothesis f_ws : forall d, is_ws (f d) = is_ws d.
Hypothesis f_num : forall d, is_num_char (f d) = is_num_char d.
Hypothesis f_num_id : forall d, is_num_char d = true -> f d = d.
Hypothesis f_hex : forall d, is_hex_digit (f d) = is_hex_digit d.
Hypothesis f_punct :
  forall c d, In c [ch "#"; ch "("; ch ","; ch ")"] -> N.eqb (f d) c = N.eqb d c.









End CaseMap.













(* ================================================================== *)
(** ** The colour parser: the invariant of a normalized colour, and null *)

(** [x * y]. *)
Definition mul (x y : number) : number := SFmul prec emax x y.

(** A sharp followed by six upper-case hex digits. *)
Definition is_hex6_upper (s : jsstring) : bool :=
  match s with
  | c :: h =>
      N.eqb c (ch "#") && Nat.eqb (length h) 6
      && forallb (fun d => is_digit d || ((65 <=? d) && (d <=? 70))%N) h
  | [] => false
  end.

(** The hex text of the components, each scaled to a byte and rounded. *)
Definition encode_rgb (c : NormalizedColor) : jsstring :=
  ch "#" :: toHex (mul (r c) (of_Z 255)) ++ toHex (mul (g c) (of_Z 255))
         ++ toHex (mul (b c) (of_Z 255)).

(** The invariant the specification states of a normalized colour. *)
Definition normalized (c : NormalizedColor) : bool :=
  in01 (r c) && in01 (g c) && in01 (b c) && in01 (a c)
  && is_hex6_upper (hex c) && JsString.eqb (hex c) (encode_rgb c).

(** C1. The invariant of a normalized colour fails on the functional
    branch: the channel 300 is clamped in the component and not in the hex
    text, which gets three digits for it; a channel that is no number
    (1.2.3) gives a NaN component and the letters NAN in the hex text. *)
Theorem parse_rgb_breaks_invariant :
  parseColor (js "rgb(300, 0, 0)")
  = Some {| r := of_Z 1; g := of_Z 0; b := of_Z 0; a := of_Z 1;
            hex := js "#12C0000" |}
  /\ is_hex6_upper (js "#12C0000") = false
  /\ encode_rgb {| r := of_Z 1; g := of_Z 0; b := of_Z 0; a := of_Z 1;
                   hex := js "#12C0000" |} = js "#FF0000"
  /\ parseColor (js "rgb(1.2.3, 0, 0)")
     = Some {| r := NaN; g := of_Z 0; b := of_Z 0; a := of_Z 1;
               hex := js "#NAN0000" |}
  /\ in01 NaN = false
  /\ is_hex6_upper (js "#NAN0000") = false.
Proof. conjuncts; vm_compute; reflexivity. Qed.

(** A channel value as the specification words it: an integer or a
    decimal numeral (a point with digits on at least one side). *)
Definition is_numeral (s : jsstring) : bool :=
  let (ip, rest) := span is_digit s in
  match rest with
  | [] => negb (Nat.eqb (length ip) 0)
  | c :: fp =>
      N.eqb c (ch ".") && forallb is_digit fp
      && negb (Nat.eqb (length (ip ++ fp)) 0)
  end.

(** The functional form of the specification: the shape of the [rgb]
    pattern with channel values that are numbers. *)
Definition is_functional_form (v : jsstring) : bool :=
  match match_rgb v with
  | Some (c1, c2, c3, c4) =>
      is_numeral c1 && is_numeral c2 && is_numeral c3
      && match c4 with Some c => is_numeral c | None => true end
  | None => false
  end.

(** The keyword, a hex form or a functional form. *)
Definition is_color_form (v : jsstring) : bool :=
  JsString.eqb v (js "transparent")
  || match match_hex v with Some _ => true | None => false end
  || is_functional_form v.

Lemma trim_all_ws (v : jsstring) : forallb is_ws v = true -> trim v = [].
Proof.
  intros H. unfold trim.
  assert (E : trimStart v = []).
  { induction v as [| c v IH]; [ reflexivity | ].
    cbn in H. apply andb_true_iff in H. destruct H as [Hc Hv].
    cbn. rewrite Hc. now apply IH. }
  now rewrite E.
Qed.

Lemma parse_none_no_form (v : jsstring) :
  parseColor v = None -> is_color_form (trim v) = false.
Proof.
  unfold parseColor, is_color_form, is_functional_form.
  destruct (JsString.eqb (trim v) (js "transparent")); [ discriminate | ].
  destruct (match_hex (trim v)); [ discriminate | ].
  destruct (match_rgb (trim v)) as [[[[c1 c2] c3] c4] |]; [ discriminate | ].
  reflexivity.
Qed.

(** C7. The parser gives null on empty and white-space-only input, on
    [var(--foo)] and on [currentColor], and the colour of the keyword on
    [transparent]; whenever it gives null the trimmed input is none of
    the three forms.  The converse fails: an input of the functional
    shape whose channel is no number is no functional form and still
    gets a colour, of NaN. *)
Theorem parse_null :
  parseColor (js "") = None
  /\ (forall v, forallb is_ws v = true -> parseColor v = None)
  /\ parseColor (js "var(--foo)") = None
  /\ parseColor (js "currentColor") = None
  /\ parseColor (js "transparent")
     = Some {| r := of_Z 0; g := of_Z 0; b := of_Z 0; a := of_Z 0;
               hex := js "#000000" |}
  /\ (forall v, parseColor v = None -> is_color_form (trim v) = false)
  /\ is_color_form (trim (js "rgb(1.2.3, 0, 0)")) = false
  /\ parseColor (js "rgb(1.2.3, 0, 0)")
     = Some {| r := NaN; g := of_Z 0; b := of_Z 0; a := of_Z 1;
               hex := js "#NAN0000" |}.
Proof.
  split; [ vm_compute; reflexivity | ].
  split.
  { intros v Hv. unfold parseColor. now rewrite (trim_all_ws v Hv). }
  split; [ vm_compute; reflexivity | ].
  split; [ vm_compute; reflexivity | ].
  split; [ vm_compute; reflexivity | ].
  split; [ exact parse_none_no_form | ].
  split; vm_compute; reflexivity.
Qed.

(* ================================================================== *)
(** ** The invariant on the keyword and hex branches *)

(** The two upper-case hex digits of a byte. *)
Definition byte_hex (n : Z) : jsstring :=
  let digit d := if (d <? 10)%Z then (48 + Z.to_N d)%N else (55 + Z.to_N d)%N in
  [digit (n / 16)%Z; digit (n mod 16)%Z].

Lemma byte_reencoded (n : Z) :
  (0 <= n <= 255)%Z -> toHex (mul (unit_of_byte n) (of_Z 255)) = byte_hex n.
Proof.
  intros H.
  assert (E : forallb (fun n => JsString.eqb
                         (toHex (mul (unit_of_byte n) (of_Z 255))) (byte_hex n))
                (map Z.of_nat (seq 0 256)) = true) by (vm_compute; reflexivity).
  rewrite forallb_forall in E. apply eqb_eq. apply E. now apply bytes_enumerated.
Qed.

Lemma hex_digit_upper (x : N) :
  is_hex_digit x = true ->
  upper_char x = (if (hex_val x <? 10)%Z then 48 + Z.to_N (hex_val x)
                  else 55 + Z.to_N (hex_val x))%N
  /\ (is_digit (upper_char x) || ((65 <=? upper_char x) && (upper_char x <=? 70))%N)
     = true.
Proof.
  unfold is_hex_digit, is_hex_char, hex_val, upper_char, is_lower, is_digit.
  intros H.
  destruct ((48 <=? x) && (x <=? 57))%N eqn:E1;
    destruct ((97 <=? x) && (x <=? 102))%N eqn:E2;
    destruct ((97 <=? x) && (x <=? 122))%N eqn:E3;
    try (exfalso; b2p; lia).
  - assert (R : (48 <= x <= 57)%N) by (b2p; lia).
    replace (Z.of_N (x - 48) <? 10)%Z with true by (symmetry; apply Z.ltb_lt; lia).
    split; [ lia | ]. apply orb_true_iff. left.
    apply andb_true_iff. split; apply N.leb_le; lia.
  - assert (R : (97 <= x <= 102)%N) by (b2p; lia).
    replace (Z.of_N (x - 87) <? 10)%Z with false by (symmetry; apply Z.ltb_ge; lia).
    split; [ lia | ]. apply orb_true_iff. right.
    apply andb_true_iff. split; apply N.leb_le; lia.
  - assert (R : (65 <= x <= 70)%N) by (b2p; lia).
    replace (Z.of_N (x - 55) <? 10)%Z with false by (symmetry; apply Z.ltb_ge; lia).
    split; [ lia | ]. apply orb_true_iff. right.
    apply andb_true_iff. split; apply N.leb_le; lia.
Qed.

Lemma pair_hex (x y : N) :
  is_hex_digit x = true -> is_hex_digit y = true ->
  byte_hex (byte_of_digits [x; y]) = [upper_char x; upper_char y].
Proof.
  intros Hx Hy.
  destruct (hex_digit_upper x Hx) as [-> _].
  destruct (hex_digit_upper y Hy) as [-> _].
  apply hex_val_range in Hx, Hy.
  unfold byte_hex, byte_of_digits.
  replace ((16 * hex_val x + hex_val y) / 16)%Z with (hex_val x)
    by (apply Z.div_unique with (r := hex_val y); lia).
  replace ((16 * hex_val x + hex_val y) mod 16)%Z with (hex_val y)
    by (apply Z.mod_unique with (q := hex_val x); lia).
  reflexivity.
Qed.

(** The colour of six hex digits, channel by channel. *)
Lemma color_of_hex_six (x1 x2 x3 x4 x5 x6 : N) :
  forallb is_hex_digit [x1; x2; x3; x4; x5; x6] = true ->
  color_of_hex [x1; x2; x3; x4; x5; x6]
  = {| r := unit_of_byte (byte_of_digits [x1; x2]);
       g := unit_of_byte (byte_of_digits [x3; x4]);
       b := unit_of_byte (byte_of_digits [x5; x6]);
       a := of_Z 1;
       hex := ch "#" :: map upper_char [x1; x2; x3; x4; x5; x6] |}.
Proof.
  intros H. cbn in H. b2p.
  unfold color_of_hex.
  cbn [toLowerCase toUpperCase map length Nat.eqb orb slice skipn firstn Nat.sub].
  rewrite !parseInt16_pair by assumption.
  rewrite !upper_lower_char. reflexivity.
Qed.

Lemma color_of_hex_eight (x1 x2 x3 x4 x5 x6 x7 x8 : N) :
  forallb is_hex_digit [x1; x2; x3; x4; x5; x6; x7; x8] = true ->
  color_of_hex [x1; x2; x3; x4; x5; x6; x7; x8]
  = {| r := unit_of_byte (byte_of_digits [x1; x2]);
       g := unit_of_byte (byte_of_digits [x3; x4]);
       b := unit_of_byte (byte_of_digits [x5; x6]);
       a := unit_of_byte (byte_of_digits [x7; x8]);
       hex := ch "#" :: map upper_char [x1; x2; x3; x4; x5; x6] |}.
Proof.
  intros H. cbn in H. b2p.
  unfold color_of_hex.
  cbn [toLowerCase toUpperCase map length Nat.eqb orb slice skipn firstn Nat.sub].
  rewrite !parseInt16_pair by assumption.
  rewrite !upper_lower_char.
  fold (unit_of_byte (byte_of_digits [x7; x8])).
  rewrite (proj2 (byte_facts _ (byte_of_digits_range x7 x8 ltac:(assumption) ltac:(assumption)))).
  reflexivity.
Qed.

Lemma normalized_channels (x1 x2 x3 x4 x5 x6 : N) (alpha : number) :
  forallb is_hex_digit [x1; x2; x3; x4; x5; x6] = true ->
  in01 alpha = true ->
  normalized
    {| r := unit_of_byte (byte_of_digits [x1; x2]);
       g := unit_of_byte (byte_of_digits [x3; x4]);
       b := unit_of_byte (byte_of_digits [x5; x6]);
       a := alpha;
       hex := ch "#" :: map upper_char [x1; x2; x3; x4; x5; x6] |} = true.
Proof.
  intros H Ha. cbn in H. b2p.
  pose proof (byte_of_digits_range x1 x2 ltac:(assumption) ltac:(assumption)) as R1.
  pose proof (byte_of_digits_range x3 x4 ltac:(assumption) ltac:(assumption)) as R2.
  pose proof (byte_of_digits_range x5 x6 ltac:(assumption) ltac:(assumption)) as R3.
  unfold normalized, encode_rgb. cbn [r g b a hex].
  rewrite (proj1 (byte_facts _ R1)), (proj1 (byte_facts _ R2)),
    (proj1 (byte_facts _ R3)), Ha.
  rewrite !byte_reencoded by assumption.
  rewrite !pair_hex by assumption.
  cbn [andb app map].
  replace (JsString.eqb _ _) with true by (symmetry; now apply eqb_eq).
  rewrite andb_true_r.
  unfold is_hex6_upper. rewrite N.eqb_refl. cbn [length Nat.eqb andb forallb].
  repeat match goal with
  | H : is_hex_digit ?x = true |- _ =>
      rewrite (proj2 (hex_digit_upper x H)); clear H
  end.
  reflexivity.
Qed.

Lemma color_of_hex_normalized (h : jsstring) :
  forallb is_hex_digit h = true ->
  existsb (Nat.eqb (length h)) [3; 4; 6; 8] = true ->
  normalized (color_of_hex h) = true.
Proof.
  intros Hd Hl. cbn [existsb] in Hl.
  assert (L : length h = 3 \/ length h = 4 \/ length h = 6 \/ length h = 8).
  { repeat (apply orb_true_iff in Hl; destruct Hl as [Hl | Hl]);
      try discriminate Hl; apply Nat.eqb_eq in Hl; tauto. }
  clear Hl.
  destruct L as [L | [L | [L | L]]]; list_of_length h; pose proof Hd as Hd';
    cbn in Hd'; b2p.
  - change (color_of_hex [n; n0; n1]) with (color_of_hex [n; n; n0; n0; n1; n1]).
    rewrite color_of_hex_six by (cbn; repeat (apply andb_true_iff; split); assumption).
    apply normalized_channels; [| reflexivity ].
    cbn; repeat (apply andb_true_iff; split); assumption.
  - change (color_of_hex [n; n0; n1; n2])
      with (color_of_hex [n; n; n0; n0; n1; n1; n2; n2]).
    rewrite color_of_hex_eight by (cbn; repeat (apply andb_true_iff; split); assumption).
    apply normalized_channels.
    + cbn; repeat (apply andb_true_iff; split); assumption.
    + apply byte_facts. now apply byte_of_digits_range.
  - rewrite color_of_hex_six by exact Hd.
    apply normalized_channels; [ exact Hd | reflexivity ].
  - rewrite color_of_hex_eight by exact Hd.
    apply normalized_channels.
    + cbn; repeat (apply andb_true_iff; split); assumption.
    + apply byte_facts. now apply byte_of_digits_range.
Qed.

Lemma match_hex_digits (v h : jsstring) :
  match_hex v = Some h ->
  v = ch "#" :: h
  /\ forallb is_hex_digit h = true
  /\ existsb (Nat.eqb (length h)) [3; 4; 6; 8] = true.
Proof.
  unfold match_hex. destruct v as [| c h']; [ discriminate | ].
  destruct (N.eqb c (ch "#") && forallb is_hex_digit h'
            && existsb (Nat.eqb (length h')) [3; 4; 6; 8]) eqn:E;
    [| discriminate ].
  intros [= <-]. apply andb_true_iff in E. destruct E as [E E3].
  apply andb_true_iff in E. destruct E as [E1 E2]. apply N.eqb_eq in E1.
  subst c. tauto.
Qed.

(** On the keyword and on every hex form the result satisfies the
    invariant of a normalized colour: components and alpha from 0 to 1,
    and a hex text of six upper-case digits that encodes the components
    rounded to bytes. *)
Theorem parse_hex_normalized (v : jsstring) (c : NormalizedColor) :
  parseColor v = Some c -> match_rgb (trim v) = None -> normalized c = true.
Proof.
  unfold parseColor. intros H Hrgb.
  destruct (JsString.eqb (trim v) (js "transparent")).
  - injection H as <-. vm_compute. reflexivity.
  - destruct (match_hex (trim v)) as [h |] eqn:E.
    + injection H as <-. apply match_hex_digits in E.
      now apply color_of_hex_normalized.
    + rewrite Hrgb in H. discriminate H.
Qed.

Lemma parse_hex_normalized_witness :
  parseColor (js " #1e1E1e80 ") = Some (color_of_hex (js "1e1E1e80"))
  /\ normalized (color_of_hex (js "1e1E1e80")) = true.
Proof.
  split; [ vm_compute; reflexivity | ].
  exact (parse_hex_normalized (js " #1e1E1e80 ") (color_of_hex (js "1e1E1e80"))
           eq_refl eq_refl).
Defined.

(* ================================================================== *)
(** ** What the [rgb] pattern accepts *)

Definition all_ws (w : jsstring) : Prop := forallb is_ws w = true.

(** A non-empty run of digits and points. *)
Definition numeric_run (c : jsstring) : Prop :=
  c <> [] /\ forallb is_num_char c = true.

(** The text the pattern describes: the function name, and between the
    parentheses three channels, each in optional white space, separated
    by commas, and a tail. *)
Definition rgb_text (name w1 c1 w2 w3 c2 w4 w5 c3 w6 tail : jsstring)
  : jsstring :=
  name ++ ch "(" :: w1 ++ c1 ++ w2 ++ ch "," :: w3 ++ c2 ++ w4
       ++ ch "," :: w5 ++ c3 ++ w6 ++ tail ++ [ch ")"].

(** The tail is empty, or a comma and a fourth channel. *)
Definition rgb_shape (v c1 c2 c3 : jsstring) (c4 : option jsstring) : Prop :=
  exists name w1 w2 w3 w4 w5 w6 tail,
    v = rgb_text name w1 c1 w2 w3 c2 w4 w5 c3 w6 tail
    /\ (toLowerCase name = js "rgb" \/ toLowerCase name = js "rgba")
    /\ Forall all_ws [w1; w2; w3; w4; w5; w6]
    /\ Forall numeric_run [c1; c2; c3]
    /\ match c4 with
       | None => tail = []
       | Some c =>
           exists w7 w8,
             tail = ch "," :: w7 ++ c ++ w8
             /\ all_ws w7 /\ all_ws w8 /\ numeric_run c
       end.

Definition stops (p : N -> bool) (s : jsstring) : Prop :=
  match s with
  | [] => True
  | d :: _ => p d = false
  end.

Lemma span_split (p : N -> bool) (s x y : jsstring) :
  span p s = (x, y) -> s = x ++ y /\ forallb p x = true /\ stops p y.
Proof.
  revert x y. induction s as [| d s IH]; intros x y; cbn.
  - intros [= <- <-]. now cbn.
  - destruct (p d) eqn:E.
    + destruct (span p s) as [x' y']. intros [= <- <-].
      destruct (IH x' y' eq_refl) as [-> [H1 H2]].
      cbn. now rewrite E, H1.
    + intros [= <- <-]. now cbn.
Qed.

Lemma span_app (p : N -> bool) (x y : jsstring) :
  forallb p x = true -> stops p y -> span p (x ++ y) = (x, y).
Proof.
  intros Hx Hy. induction x as [| d x IH]; cbn.
  - destruct y as [| d y]; cbn; [ reflexivity | ]. cbn in Hy. now rewrite Hy.
  - cbn in Hx. apply andb_true_iff in Hx. destruct Hx as [Hd Hx].
    now rewrite Hd, IH.
Qed.

Lemma num_char_not_ws (d : N) : is_num_char d = true -> is_ws d = false.
Proof.
  unfold is_num_char, is_digit, is_ws. change (ch ".") with 46%N.
  cbn [existsb]. intros H.
  destruct (_ || _)%bool eqn:E at 1; [| reflexivity ].
  exfalso. b2p; lia.
Qed.

Lemma ws_not_num_char (d : N) : is_ws d = true -> is_num_char d = false.
Proof.
  intros H. destruct (is_num_char d) eqn:E; [| reflexivity ].
  apply num_char_not_ws in E. congruence.
Qed.

Lemma stops_ws_after (w rest : jsstring) (d : N) :
  all_ws w -> is_num_char d = false -> stops is_num_char (w ++ d :: rest).
Proof.
  intros Hw Hd. destruct w as [| c w]; cbn; [ exact Hd | ].
  unfold all_ws in Hw. cbn in Hw. apply andb_true_iff in Hw.
  apply ws_not_num_char. tauto.
Qed.

(** A channel in white space, up to a delimiter. *)
Lemma channel_run (w c w' rest : jsstring) (d : N) :
  all_ws w -> numeric_run c -> all_ws w' ->
  is_ws d = false -> is_num_char d = false ->
  channel (skip_ws (w ++ c ++ w' ++ d :: rest)) = Some (c, d :: rest).
Proof.
  intros Hw [Hne Hc] Hw' Hd1 Hd2.
  unfold skip_ws. rewrite span_app; [ | exact Hw | ].
  2:{ destruct c as [| x c]; [ contradiction | ]. cbn.
      cbn in Hc. apply andb_true_iff in Hc. apply num_char_not_ws. tauto. }
  cbn [snd]. unfold channel.
  rewrite span_app; [ | exact Hc | now apply stops_ws_after ].
  destruct c as [| x c]; [ contradiction | ].
  unfold skip_ws. rewrite span_app; [ reflexivity | exact Hw' | exact Hd1 ].
Qed.

Lemma channel_split (s c rest : jsstring) :
  channel (skip_ws s) = Some (c, rest) ->
  exists w w', s = w ++ c ++ w' ++ rest /\ all_ws w /\ numeric_run c /\ all_ws w'.
Proof.
  unfold channel, skip_ws.
  destruct (span is_ws s) as [w s1] eqn:E1. cbn [snd].
  destruct (span is_num_char s1) as [c' s2] eqn:E2.
  destruct c' as [| x c']; [ discriminate | ].
  destruct (span is_ws s2) as [w' s3] eqn:E3. cbn [snd].
  intros [= <- <-].
  apply span_split in E1, E2, E3.
  destruct E1 as [-> [H1 _]], E2 as [-> [H2 _]], E3 as [-> [H3 _]].
  exists w, w'. split; [ reflexivity | ]. split; [ exact H1 | ].
  split; [ split; [ discriminate | exact H2 ] | exact H3 ].
Qed.

Lemma expect_some (c : N) (s rest : jsstring) :
  expect c s = Some rest <-> s = c :: rest.
Proof.
  unfold expect. destruct s as [| d s]; [ split; discriminate | ].
  destruct (N.eqb_spec d c) as [-> | Hne].
  - split; intros [= ->]; reflexivity.
  - split; [ discriminate | intros [= -> _]; contradiction ].
Qed.

Lemma expect_ci_some (c : N) (s rest : jsstring) :
  expect_ci c s = Some rest <-> exists d, s = d :: rest /\ lower_char d = c.
Proof.
  unfold expect_ci. destruct s as [| d s].
  - split; [ discriminate | intros [d [[=] _]] ].
  - destruct (N.eqb_spec (lower_char d) c) as [E | Hne]; split.
    + intros [= <-]. now exists d.
    + intros [d' [[= <- <-] _]]. reflexivity.
    + discriminate.
    + intros [d' [[= <- <-] E]]. contradiction.
Qed.

(** The function name of the pattern. *)
Lemma name_split (v rest : jsstring) :
  (exists s1 s2 s3,
      expect_ci (ch "r") v = Some s1 /\ expect_ci (ch "g") s1 = Some s2
      /\ expect_ci (ch "b") s2 = Some s3
      /\ expect (ch "(")
           match expect_ci (ch "a") s3 with Some s' => s' | None => s3 end
         = Some rest)
  <-> exists name,
        v = name ++ ch "(" :: rest
        /\ (toLowerCase name = js "rgb" \/ toLowerCase name = js "rgba").
Proof.
  split.
  - intros [s1 [s2 [s3 [H1 [H2 [H3 H4]]]]]].
    apply expect_ci_some in H1, H2, H3.
    destruct H1 as [d1 [-> L1]], H2 as [d2 [-> L2]], H3 as [d3 [-> L3]].
    destruct (expect_ci (ch "a") s3) as [s4 |] eqn:E4.
    + apply expect_ci_some in E4. destruct E4 as [d4 [-> L4]].
      apply expect_some in H4. subst s4.
      exists [d1; d2; d3; d4]. split; [ reflexivity | right ].
      cbn. now rewrite L1, L2, L3, L4.
    + apply expect_some in H4. subst s3.
      exists [d1; d2; d3]. split; [ reflexivity | left ].
      cbn. now rewrite L1, L2, L3.
  - intros [name [-> Hname]]. destruct Hname as [Hn | Hn].
    + destruct name as [| d1 [| d2 [| d3 [| d4 name]]]]; try discriminate Hn.
      injection Hn as L1 L2 L3.
      exists (d2 :: d3 :: ch "(" :: rest), (d3 :: ch "(" :: rest), (ch "(" :: rest).
      cbn [app expect_ci]. rewrite L1, L2, L3. cbn. auto.
    + destruct name as [| d1 [| d2 [| d3 [| d4 [| d5 name]]]]]; try discriminate Hn.
      injection Hn as L1 L2 L3 L4.
      exists (d2 :: d3 :: d4 :: ch "(" :: rest), (d3 :: d4 :: ch "(" :: rest),
        (d4 :: ch "(" :: rest).
      cbn [app expect_ci]. rewrite L1, L2, L3, L4. cbn. auto.
Qed.

Lemma expect_same (c : N) (s : jsstring) : expect c (c :: s) = Some s.
Proof. unfold expect. now rewrite N.eqb_refl. Qed.

Lemma match_rgb_sound (v c1 c2 c3 : jsstring) (c4 : option jsstring) :
  match_rgb v = Some (c1, c2, c3, c4) -> rgb_shape v c1 c2 c3 c4.
Proof.
  unfold match_rgb. cbv zeta.
  destruct (expect_ci (ch "r") v) as [s1 |] eqn:A1; [| discriminate ].
  destruct (expect_ci (ch "g") s1) as [s2 |] eqn:A2; [| discriminate ].
  destruct (expect_ci (ch "b") s2) as [s3 |] eqn:A3; [| discriminate ].
  destruct (expect (ch "(") _) as [s5 |] eqn:A5; [| discriminate ].
  assert (Hname : exists name,
             v = name ++ ch "(" :: s5
             /\ (toLowerCase name = js "rgb" \/ toLowerCase name = js "rgba")).
  { apply name_split. now exists s1, s2, s3. }
  clear A1 A2 A3 A5. destruct Hname as [name [-> Hname]].
  destruct (channel (skip_ws s5)) as [[x1 s6] |] eqn:B1; [| discriminate ].
  destruct (expect (ch ",") s6) as [s7 |] eqn:A7; [| discriminate ].
  destruct (channel (skip_ws s7)) as [[x2 s8] |] eqn:B2; [| discriminate ].
  destruct (expect (ch ",") s8) as [s9 |] eqn:A9; [| discriminate ].
  destruct (channel (skip_ws s9)) as [[x3 s10] |] eqn:B3; [| discriminate ].
  apply channel_split in B1, B2, B3.
  destruct B1 as [w1 [w2 [-> [W1 [N1 W2]]]]].
  destruct B2 as [w3 [w4 [-> [W3 [N2 W4]]]]].
  destruct B3 as [w5 [w6 [-> [W5 [N3 W6]]]]].
  apply expect_some in A7, A9. subst s6 s8.
  destruct (expect (ch ",") s10) as [s11 |] eqn:A11.
  - destruct (channel (skip_ws s11)) as [[x4 s12] |] eqn:B4; [| discriminate ].
    destruct (expect (ch ")") s12) as [[| ? ?] |] eqn:A12; try discriminate.
    intros [= <- <- <- <-].
    apply channel_split in B4. destruct B4 as [w7 [w8 [-> [W7 [N4 W8]]]]].
    apply expect_some in A11, A12. subst s10 s12.
    exists name, w1, w2, w3, w4, w5, w6, (ch "," :: w7 ++ x4 ++ w8).
    split.
    { unfold rgb_text. cbn [app]. now rewrite <- !app_assoc. }
    split; [ exact Hname | ].
    split; [ repeat (apply Forall_cons; [ assumption | ]); apply Forall_nil | ].
    split; [ repeat (apply Forall_cons; [ assumption | ]); apply Forall_nil | ].
    now exists w7, w8.
  - destruct (expect (ch ")") s10) as [[| ? ?] |] eqn:A12; try discriminate.
    intros [= <- <- <- <-].
    apply expect_some in A12. subst s10.
    exists name, w1, w2, w3, w4, w5, w6, [].
    split; [ reflexivity | ].
    split; [ exact Hname | ].
    split; [ repeat (apply Forall_cons; [ assumption | ]); apply Forall_nil | ].
    split; [ repeat (apply Forall_cons; [ assumption | ]); apply Forall_nil | reflexivity ].
Qed.

Lemma match_rgb_complete (v c1 c2 c3 : jsstring) (c4 : option jsstring) :
  rgb_shape v c1 c2 c3 c4 -> match_rgb v = Some (c1, c2, c3, c4).
Proof.
  intros [name [w1 [w2 [w3 [w4 [w5 [w6 [tail [-> [Hname [HW [HN Htail]]]]]]]]]]]].
  inversion HW as [| ? ? W1 HW1]; subst. inversion HW1 as [| ? ? W2 HW2]; subst.
  inversion HW2 as [| ? ? W3 HW3]; subst. inversion HW3 as [| ? ? W4 HW4]; subst.
  inversion HW4 as [| ? ? W5 HW5]; subst. inversion HW5 as [| ? ? W6 _]; subst.
  inversion HN as [| ? ? N1 HN1]; subst. inversion HN1 as [| ? ? N2 HN2]; subst.
  inversion HN2 as [| ? ? N3 _]; subst.
  clear HW HW1 HW2 HW3 HW4 HW5 HN HN1 HN2.
  unfold rgb_text.
  assert (Hn : exists s1 s2 s3,
             expect_ci (ch "r") (name ++ ch "(" :: w1 ++ c1 ++ w2 ++ ch "," :: w3
               ++ c2 ++ w4 ++ ch "," :: w5 ++ c3 ++ w6 ++ tail ++ [ch ")"]) = Some s1
             /\ expect_ci (ch "g") s1 = Some s2
             /\ expect_ci (ch "b") s2 = Some s3
             /\ expect (ch "(")
                  match expect_ci (ch "a") s3 with Some s' => s' | None => s3 end
                = Some (w1 ++ c1 ++ w2 ++ ch "," :: w3 ++ c2 ++ w4 ++ ch "," :: w5
                          ++ c3 ++ w6 ++ tail ++ [ch ")"])).
  { apply name_split. now exists name. }
  destruct Hn as [s1 [s2 [s3 [A1 [A2 [A3 A5]]]]]].
  unfold match_rgb. cbv zeta. rewrite A1, A2, A3, A5.
  rewrite channel_run by (assumption || reflexivity). rewrite expect_same.
  rewrite channel_run by (assumption || reflexivity). rewrite expect_same.
  destruct c4 as [c |].
  - destruct Htail as [w7 [w8 [-> [W7 [W8 N4]]]]].
    replace (w5 ++ c3 ++ w6 ++ (ch "," :: w7 ++ c ++ w8) ++ [ch ")"])
      with (w5 ++ c3 ++ w6 ++ ch "," :: w7 ++ c ++ w8 ++ ch ")" :: [])
      by (cbn [app]; now rewrite <- !app_assoc).
    rewrite channel_run by (assumption || reflexivity). rewrite expect_same.
    rewrite channel_run by (assumption || reflexivity). rewrite expect_same.
    reflexivity.
  - subst tail. cbn [app].
    rewrite channel_run by (assumption || reflexivity).
    reflexivity.
Qed.

(** The [rgb] matcher accepts exactly the texts of the shape, with the
    channels as groups. *)
Theorem match_rgb_shape (v c1 c2 c3 : jsstring) (c4 : option jsstring) :
  match_rgb v = Some (c1, c2, c3, c4) <-> rgb_shape v c1 c2 c3 c4.
Proof.
  split; [ apply match_rgb_sound | apply match_rgb_complete ].
Qed.

Lemma match_hex_none (v : jsstring) :
  match_hex v = None
  <-> ~ exists h, v = ch "#" :: h /\ forallb is_hex_digit h = true
                  /\ In (length h) [3; 4; 6; 8].
Proof.
  split.
  - intros E [h [-> [Hd Hl]]]. unfold match_hex in E.
    rewrite N.eqb_refl, Hd in E. cbn [andb] in E.
    replace (existsb (Nat.eqb (length h)) [3; 4; 6; 8]) with true in E;
      [ discriminate E | ].
    symmetry. apply existsb_exists. exists (length h).
    split; [ exact Hl | apply Nat.eqb_refl ].
  - intros H. destruct (match_hex v) as [h |] eqn:E; [| reflexivity ].
    exfalso. apply H. exists h.
    unfold match_hex in E. destruct v as [| c h']; [ discriminate | ].
    destruct (N.eqb_spec c (ch "#")) as [-> | _]; [| discriminate E ].
    destruct (forallb is_hex_digit h') eqn:Hd; [| discriminate E ].
    destruct (existsb (Nat.eqb (length h')) [3; 4; 6; 8]) eqn:Hl;
      [| discriminate E ].
    cbn in E. injection E as <-.
    split; [ reflexivity | ]. split; [ exact Hd | ].
    apply existsb_exists in Hl. destruct Hl as [n [Hn E]].
    apply Nat.eqb_eq in E. now rewrite E.
Qed.

(** The parser gives null exactly when the trimmed input is neither the
    keyword, nor a sharp with 3, 4, 6 or 8 hex digits, nor a text of the
    [rgb] shape, whose channels are non-empty runs of digits and points
    (numbers or not). *)
Theorem parse_null_exactly (v : jsstring) :
  parseColor v = None
  <-> trim v <> js "transparent"
      /\ (~ exists h, trim v = ch "#" :: h /\ forallb is_hex_digit h = true
                      /\ In (length h) [3; 4; 6; 8])
      /\ (~ exists c1 c2 c3 c4, rgb_shape (trim v) c1 c2 c3 c4).
Proof.
  rewrite <- match_hex_none. unfold parseColor.
  destruct (JsString.eqb (trim v) (js "transparent")) eqn:E.
  - apply eqb_eq in E. split; [ discriminate | tauto ].
  - apply eqb_neq in E.
    destruct (match_hex (trim v)) as [h |].
    + split; [ discriminate | ]. intros [_ [H _]]. discriminate H.
    + destruct (match_rgb (trim v)) as [[[[c1 c2] c3] c4] |] eqn:R.
      * split; [ discriminate | ]. intros [_ [_ H]]. exfalso. apply H.
        exists c1, c2, c3, c4. now apply match_rgb_sound.
      * split; [| reflexivity ]. intros _.
        split; [ exact E | ]. split; [ reflexivity | ].
        intros [c1 [c2 [c3 [c4 H]]]]. apply match_rgb_complete in H. congruence.
Qed.

(* ================================================================== *)
(** ** The token path resolver *)

(** The rule as the specification words it: strip one leading [--], strip
    one leading [vscode-], split on [-]; one segment gives a path of two,
    more give the first segment and the rest rejoined. *)
Definition resolve_spec (rawName : jsstring) : list jsstring :=
  let n := match strip_prefix (js "--") rawName with
           | Some rest => rest
           | None => rawName
           end in
  let n := match strip_prefix (js "vscode-") n with
           | Some rest => rest
           | None => n
           end in
  match split (ch "-") n with
  | [] => [js "vscode"]
  | [segment] => [js "vscode"; segment]
  | first :: rest => [js "vscode"; first; join (js "-") rest]
  end.

Lemma split_not_nil (c : N) (s : jsstring) : split c s <> [].
Proof.
  destruct s as [| d s]; cbn; [ discriminate | ].
  destruct (N.eqb d c); [ discriminate | ].
  destruct (split c s); discriminate.
Qed.

Lemma join_cons (sep p q : jsstring) (rest : list jsstring) :
  join sep (p :: q :: rest) = p ++ sep ++ join sep (q :: rest).
Proof. reflexivity. Qed.

(** Splitting loses nothing: the segments rejoin to the text. *)
Lemma join_split (c : N) (s : jsstring) : join [c] (split c s) = s.
Proof.
  induction s as [| d s IH]; [ reflexivity | ].
  cbn [split]. pose proof (split_not_nil c s) as Hn.
  destruct (N.eqb_spec d c) as [-> | Hd];
    destruct (split c s) as [| p ps]; try contradiction.
  - rewrite <- IH. reflexivity.
  - destruct ps as [| q qs].
    + rewrite <- IH. reflexivity.
    + rewrite <- IH. reflexivity.
Qed.

(** No segment holds the separator. *)
Lemma split_segments (c : N) (s seg : jsstring) :
  In seg (split c s) -> ~ In c seg.
Proof.
  revert seg. induction s as [| d s IH]; intros seg Hin.
  - cbn in Hin. destruct Hin as [<- | []]. intros [].
  - cbn [split] in Hin. destruct (N.eqb_spec d c) as [-> | Hd].
    + destruct Hin as [<- | Hin]; [ intros [] | now apply IH ].
    + pose proof (split_not_nil c s) as Hn.
      destruct (split c s) as [| p ps]; [ contradiction | ].
      destruct Hin as [<- | Hin].
      * intros [E | Hc]; [ now apply Hd | ]. apply (IH p); [ now left | exact Hc ].
      * apply IH. now right.
Qed.

Lemma toTokenPath_spec (n : jsstring) : toTokenPath n = resolve_spec (trim n).
Proof.
  unfold toTokenPath, resolve_spec, replace_prefix.
  destruct (split _ _) as [| p [| q ps]] eqn:E; try reflexivity.
  now apply split_not_nil in E.
Qed.

(** The name without its prefixes, as [toTokenPath] splits it. *)
Definition stripped (n : jsstring) : jsstring :=
  replace_prefix (js "vscode-") (replace_prefix (js "--") (trim n)).

(** C3, counterexample: on a name with white space at an end the code
    does not return what the rule as stated gives, because it trims the
    name first. *)
Lemma resolve_untrimmed_differs :
  toTokenPath (js "--vscode-foo ") = [js "vscode"; js "foo"]
  /\ resolve_spec (js "--vscode-foo ") = [js "vscode"; js "foo "]
  /\ toTokenPath (js "--vscode-foo ") <> resolve_spec (js "--vscode-foo ").
Proof.
  conjuncts; [ vm_compute; reflexivity | vm_compute; reflexivity | ].
  vm_compute. discriminate.
Qed.

(** C3, amended. [toTokenPath] trims the name, then follows the rule:
    one leading [--] and one leading [vscode-] are stripped, the rest is
    split on [-], and the path is [vscode] and the only segment, or
    [vscode], the first segment and the other segments rejoined.  The
    path has two or three segments, its first segment below the root
    holds no hyphen, and the segments below the root rejoin to the
    stripped name. *)
Theorem resolve_trimmed :
  (forall n, toTokenPath n = resolve_spec (trim n))
  /\ (forall n, trim n = n -> toTokenPath n = resolve_spec n)
  /\ toTokenPath (js "--vscode-editor-background")
     = [js "vscode"; js "editor"; js "background"]
  /\ toTokenPath (js "--vscode-foreground") = [js "vscode"; js "foreground"]
  /\ toTokenPath (js "--vscode-editor-inactiveSelection-background")
     = [js "vscode"; js "editor"; js "inactiveSelection-background"]
  /\ (forall n,
        (exists segment,
            toTokenPath n = [js "vscode"; segment] /\ segment = stripped n)
        \/ (exists group leaf,
            toTokenPath n = [js "vscode"; group; leaf]
            /\ ~ In (ch "-") group
            /\ group ++ js "-" ++ leaf = stripped n)).
Proof.
  split; [ exact toTokenPath_spec | ].
  split; [ intros n E; rewrite toTokenPath_spec; now rewrite E | ].
  do 3 (split; [ vm_compute; reflexivity | ]).
  intros n. unfold toTokenPath. fold (stripped n).
  pose proof (join_split (ch "-") (stripped n)) as J.
  pose proof (split_segments (ch "-") (stripped n)) as S.
  pose proof (@split_not_nil (ch "-") (stripped n)) as Hn.
  destruct (split (ch "-") (stripped n)) as [| p [| q ps]]; [ contradiction | |].
  - left. exists p. split; [ reflexivity | exact J ].
  - right. exists p, (join (js "-") (q :: ps)). split; [ reflexivity | ].
    split; [ apply S; now left | ].
    exact J.
Qed.

(* ================================================================== *)
(** ** Objects as maps *)

Section ObjFacts.
Variable V : Type.
Implicit Types (o : Obj.t V) (k : jsstring) (v : V).

Lemma set_define o k v :
  JsString.eqb k (js "__proto__") = false -> Obj.set o k v = Obj.define o k v.
Proof. unfold Obj.set. now intros ->. Qed.

Lemma get_set_same o k v :
  JsString.eqb k (js "__proto__") = false ->
  Obj.get (Obj.set o k v) k = Some v.
Proof.
  intros Hk. rewrite set_define by exact Hk. clear Hk.
  induction o as [| [k' v'] o IH]; cbn.
  - destruct (JsString.eqb k k) eqn:E; [ reflexivity | ].
    apply eqb_neq in E. congruence.
  - destruct (JsString.eqb k' k) eqn:E; cbn; rewrite E; [ reflexivity | exact IH ].
Qed.

Lemma get_set_other o k k' v :
  k' <> k -> Obj.get (Obj.set o k v) k' = Obj.get o k'.
Proof.
  intros Hne. unfold Obj.set.
  destruct (JsString.eqb k (js "__proto__")); [ reflexivity | ].
  induction o as [| [k0 v0] o IH]; cbn.
  - destruct (JsString.eqb k k') eqn:E; [| reflexivity ].
    apply eqb_eq in E. congruence.
  - destruct (JsString.eqb k0 k) eqn:E; cbn.
    + apply eqb_eq in E. subst k0.
      destruct (JsString.eqb k k') eqn:E'; [| reflexivity ].
      apply eqb_eq in E'. congruence.
    + now rewrite IH.
Qed.

Lemma get_none_keys o k : Obj.get o k = None <-> ~ In k (Obj.keys o).
Proof.
  induction o as [| [k' v'] o IH]; cbn.
  - tauto.
  - destruct (JsString.eqb k' k) eqn:E.
    + apply eqb_eq in E. split; [ discriminate | intros H; exfalso; apply H; now left ].
    + apply eqb_neq in E. rewrite IH. tauto.
Qed.

Lemma get_some_in o k v : Obj.get o k = Some v -> In (k, v) o.
Proof.
  induction o as [| [k' v'] o IH]; cbn; [ discriminate | ].
  destruct (JsString.eqb k' k) eqn:E.
  - apply eqb_eq in E. intros [= ->]. left. now subst.
  - intros H. right. now apply IH.
Qed.

Lemma in_get_some o k v :
  NoDup (Obj.keys o) -> In (k, v) o -> Obj.get o k = Some v.
Proof.
  induction o as [| [k' v'] o IH]; cbn; [ tauto | ].
  intros Hnd [E | Hin].
  - injection E as -> ->. destruct (JsString.eqb k k) eqn:E; [ reflexivity | ].
    apply eqb_neq in E. congruence.
  - inversion Hnd as [| ? ? Hk Ho]; subst.
    destruct (JsString.eqb k' k) eqn:E.
    + apply eqb_eq in E. subst k'. exfalso. apply Hk.
      apply (in_map fst) in Hin. exact Hin.
    + now apply IH.
Qed.

(** Assigning to a key the object lacks appends the property. *)
Lemma set_fresh o k v :
  JsString.eqb k (js "__proto__") = false ->
  ~ In k (Obj.keys o) -> Obj.set o k v = o ++ [(k, v)].
Proof.
  intros Hk. rewrite set_define by exact Hk. clear Hk.
  induction o as [| [k' v'] o IH]; cbn; intros H; [ reflexivity | ].
  destruct (JsString.eqb k' k) eqn:E.
  - apply eqb_eq in E. tauto.
  - rewrite IH by tauto. reflexivity.
Qed.

Lemma get_set_cases o k k' v v' :
  Obj.get (Obj.set o k v) k' = Some v' ->
  (k' = k /\ v' = v) \/ Obj.get o k' = Some v'.
Proof.
  destruct (list_eq_dec N.eq_dec k' k) as [-> | Hne].
  - destruct (JsString.eqb k (js "__proto__")) eqn:E.
    + unfold Obj.set. rewrite E. intros H. now right.
    + rewrite get_set_same by exact E. intros [= <-]. now left.
  - rewrite get_set_other by exact Hne. intros H. now right.
Qed.

End ObjFacts.

Lemma existsb_eqb_in (k : jsstring) (l : list jsstring) :
  existsb (JsString.eqb k) l = true <-> In k l.
Proof.
  rewrite existsb_exists. split.
  - intros [x [Hx E]]. apply eqb_eq in E. now subst.
  - intros H. exists k. split; [ exact H | now apply eqb_eq ].
Qed.

Lemma prefix_not_proto (k : jsstring) :
  startsWith (js "--vscode-") k = true ->
  JsString.eqb k (js "__proto__") = false.
Proof.
  intros H. destruct (JsString.eqb k (js "__proto__")) eqn:E; [| reflexivity ].
  apply eqb_eq in E. subst k. discriminate H.
Qed.

(* ================================================================== *)
(** ** The variable-set extractor *)

(** The entries the specification keeps: the name starts with
    [--vscode-] and the value is a colour. *)
Definition kept (kv : jsstring * jsstring)
  : list (jsstring * Token.ColorToken) :=
  if startsWith (js "--vscode-") (fst kv) then
    match parseColor (snd kv) with
    | Some c => [(fst kv, makeDtcgColorTokenFromParsedColor c)]
    | None => []
    end
  else [].

Lemma kept_keys (kv : jsstring * jsstring) (k : jsstring) :
  In k (Obj.keys (kept kv)) -> k = fst kv.
Proof.
  unfold kept. destruct (startsWith _ _); [| intros [] ].
  destruct (parseColor _); cbn; [| intros [] ]. intros [E | []]. now subst.
Qed.

Lemma flatten_from (cssVars : list (jsstring * jsstring))
    (acc : Obj.t Token.ColorToken) :
  NoDup (map fst cssVars) ->
  (forall k, In k (map fst cssVars) -> ~ In k (Obj.keys acc)) ->
  fold_left
    (fun (flat : Obj.t Token.ColorToken) (kv : jsstring * jsstring) =>
       let (k, v) := kv in
       if startsWith (js "--vscode-") k then
         match parseColor v with
         | Some c => Obj.set flat k (makeDtcgColorTokenFromParsedColor c)
         | None => flat
         end
       else flat)
    cssVars acc
  = acc ++ flat_map kept cssVars.
Proof.
  revert acc. induction cssVars as [| [k v] rest IH]; intros acc Hnd Hacc.
  - cbn. now rewrite app_nil_r.
  - cbn [fold_left flat_map]. cbn [map fst] in Hnd, Hacc.
    inversion Hnd as [| ? ? Hk Hrest]; subst.
    unfold kept at 1. cbn [fst snd].
    destruct (startsWith (js "--vscode-") k) eqn:Es.
    2:{ rewrite IH; [ reflexivity | assumption | ]. intros k' Hk'. apply Hacc. now right. }
    destruct (parseColor v) as [c |].
    2:{ rewrite IH; [ reflexivity | assumption | ]. intros k' Hk'. apply Hacc. now right. }
    rewrite set_fresh by (try (apply Hacc; now left); now apply prefix_not_proto).
    rewrite IH; [ now rewrite <- app_assoc | assumption | ].
    intros k' Hk'. unfold Obj.keys. rewrite map_app, in_app_iff. cbn.
    intros [H | [-> | []]]; [ | contradiction ].
    apply (Hacc k'); [ now right | exact H ].
Qed.

Lemma flatten_kept (cssVars : list (jsstring * jsstring)) :
  NoDup (map fst cssVars) ->
  flattenCssVarsToColorTokens cssVars = flat_map kept cssVars.
Proof.
  intros Hnd. unfold flattenCssVarsToColorTokens.
  rewrite flatten_from; [ reflexivity | assumption | ]. intros k _ [].
Qed.

Lemma kept_keys_nodup (cssVars : list (jsstring * jsstring)) :
  NoDup (map fst cssVars) -> NoDup (Obj.keys (flat_map kept cssVars)).
Proof.
  induction cssVars as [| kv rest IH]; cbn; intros Hnd; [ constructor | ].
  inversion Hnd as [| ? ? Hk Hrest]; subst.
  unfold Obj.keys. rewrite map_app.
  assert (Hin : forall k, In k (map fst (flat_map kept rest)) -> In k (map fst rest)).
  { clear. induction rest as [| kv rest IH]; cbn; [ tauto | ].
    intros k. rewrite map_app, in_app_iff. intros [H | H].
    - left. symmetry. now apply kept_keys.
    - right. now apply IH. }
  unfold kept at 1. destruct (startsWith _ _); [| now apply IH ].
  destruct (parseColor _); [| now apply IH ].
  cbn. constructor; [| now apply IH ].
  intros H. apply Hk. now apply Hin.
Qed.

(* ================================================================== *)
(** ** The order of the sort *)

Definition key_lt (s t : jsstring) : Prop := JsString.ltb s t = true.


Lemma ltb_trichotomy (s t : jsstring) :
  JsString.ltb s t = false -> JsString.ltb t s = false -> s = t.
Proof.
  revert t. induction s as [| c s IH]; intros [| d t]; cbn; try discriminate.
  - reflexivity.
  - destruct (N.ltb_spec c d); [ discriminate | ].
    destruct (N.ltb_spec d c); [ discriminate | ].
    intros H1 H2. f_equal; [ lia | now apply IH ].
Qed.

Lemma ltb_trans (s t u : jsstring) : key_lt s t -> key_lt t u -> key_lt s u.
Proof.
  unfold key_lt. revert t u.
  induction s as [| c s IH]; intros [| d t] [| e u]; cbn; try discriminate;
    try reflexivity.
  destruct (N.ltb_spec c d), (N.ltb_spec d e), (N.ltb_spec c e);
    try reflexivity; try lia;
    destruct (N.ltb_spec d c), (N.ltb_spec e d), (N.ltb_spec e c);
    try discriminate; try lia.
  apply IH.
Qed.

Lemma insert_in (k x : jsstring) (l : list jsstring) :
  In x (Union.insert k l) <-> x = k \/ In x l.
Proof.
  induction l as [| y l IH]; cbn; [ intuition | ].
  destruct (JsString.ltb y k); cbn; rewrite ?IH; intuition.
Qed.

Lemma insert_sorted (k : jsstring) (l : list jsstring) :
  Sorted key_lt l -> ~ In k l -> Sorted key_lt (Union.insert k l).
Proof.
  induction l as [| x l IH]; cbn; intros Hs Hk; [ repeat constructor | ].
  inversion Hs as [| ? ? Hl Hx]; subst.
  destruct (JsString.ltb x k) eqn:E.
  - constructor; [ apply IH; tauto | ].
    destruct l as [| y l]; cbn; [ now constructor | ].
    destruct (JsString.ltb y k); constructor; [ now inversion Hx | exact E ].
  - constructor; [ exact Hs | ]. constructor. unfold key_lt.
    destruct (JsString.ltb k x) eqn:E'; [ reflexivity | ].
    exfalso. apply Hk. left. now apply ltb_trichotomy.
Qed.

Lemma sort_in (x : jsstring) (l : list jsstring) : In x (Union.sort l) <-> In x l.
Proof.
  induction l as [| y l IH]; cbn; [ tauto | ].
  rewrite insert_in, IH. intuition.
Qed.

Lemma sort_sorted (l : list jsstring) : NoDup l -> Sorted key_lt (Union.sort l).
Proof.
  intros Hnd. induction Hnd as [| x l0 Hx Hl IH]; cbn; [ constructor | ].
  apply insert_sorted; [ exact IH | ]. now rewrite sort_in.
Qed.

Lemma insert_length (k : jsstring) (l : list jsstring) :
  length (Union.insert k l) = S (length l).
Proof.
  induction l as [| x l IH]; cbn; [ reflexivity | ].
  destruct (JsString.ltb x k); cbn; now rewrite ?IH.
Qed.

Lemma insert_perm (k : jsstring) (l : list jsstring) :
  Permutation (Union.insert k l) (k :: l).
Proof.
  induction l as [| y l IH]; cbn; [ reflexivity | ].
  destruct (JsString.ltb y k); [| reflexivity ].
  transitivity (y :: k :: l); [ now constructor | constructor ].
Qed.

Lemma sort_perm (l : list jsstring) : Permutation (Union.sort l) l.
Proof.
  induction l as [| x l IH]; cbn; [ constructor | ].
  rewrite insert_perm. now constructor.
Qed.

Lemma strongly_sorted (l : list jsstring) : Sorted key_lt l -> StronglySorted key_lt l.
Proof.
  apply Sorted_StronglySorted. intros s t u. apply ltb_trans.
Qed.



(* ================================================================== *)
(** ** The union merger *)

Import Union.

Lemma set_add_in (set : list jsstring) (k x : jsstring) :
  In x (set_add set k) <-> In x set \/ x = k.
Proof.
  unfold set_add. destruct (existsb (JsString.eqb k) set) eqn:E.
  - apply existsb_eqb_in in E. split; [ tauto | ]. intros [H | ->]; assumption.
  - rewrite in_app_iff. cbn. intuition.
Qed.

Lemma set_add_nodup (set : list jsstring) (k : jsstring) :
  NoDup set -> NoDup (set_add set k).
Proof.
  intros H. unfold set_add. destruct (existsb (JsString.eqb k) set) eqn:E;
    [ exact H | ].
  apply NoDup_app; [ exact H | repeat constructor; intros [] | ].
  intros x Hx [<- | []].
  apply existsb_eqb_in in Hx. congruence.
Qed.

Lemma add_all_in (ks set : list jsstring) (x : jsstring) :
  In x (fold_left set_add ks set) <-> In x set \/ In x ks.
Proof.
  revert set. induction ks as [| k ks IH]; intros set; cbn; [ tauto | ].
  rewrite IH, set_add_in. intuition.
Qed.

Lemma add_all_nodup (ks set : list jsstring) :
  NoDup set -> NoDup (fold_left set_add ks set).
Proof.
  revert set. induction ks as [| k ks IH]; intros set H; cbn; [ exact H | ].
  apply IH. now apply set_add_nodup.
Qed.

Lemma unionKeySet_from (items : list Item) (set : list jsstring) (x : jsstring) :
  In x (fold_left (fun set it => fold_left set_add (Obj.keys (flat it)) set)
          items set)
  <-> In x set \/ exists it, In it items /\ In x (Obj.keys (flat it)).
Proof.
  revert set. induction items as [| it items IH]; intros set; cbn.
  - split; [ tauto | ]. intros [H | [it [[] _]]]. exact H.
  - rewrite IH, add_all_in. split.
    + intros [[H | H] | [it' [H1 H2]]]; [ now left | right | right ].
      * exists it. tauto.
      * exists it'. tauto.
    + intros [H | [it' [[<- | H1] H2]]]; [ tauto | tauto | ].
      right. now exists it'.
Qed.

Lemma unionKeySet_nodup (items : list Item) : NoDup (unionKeySet items).
Proof.
  unfold unionKeySet. generalize (@nil jsstring) (NoDup_nil jsstring).
  induction items as [| it items IH]; intros set H; cbn; [ exact H | ].
  apply IH. now apply add_all_nodup.
Qed.

Lemma unionKeys_in (items : list Item) (k : jsstring) :
  In k (unionKeys items)
  <-> exists it, In it items /\ In k (Obj.keys (flat it)).
Proof.
  unfold unionKeys, unionKeySet. rewrite sort_in, unionKeySet_from.
  split; [ intros [[] | H]; exact H | tauto ].
Qed.

Lemma unionKeys_sorted (items : list Item) : StronglySorted key_lt (unionKeys items).
Proof.
  apply strongly_sorted, sort_sorted, unionKeySet_nodup.
Qed.

Definition absent (it : Item) (k : jsstring) : bool :=
  match Obj.get (flat it) k with
  | Some _ => false
  | None => true
  end.

(** The [missing] list: the keys the item lacks, in the order of the
    keys. *)
Lemma fill_missing (it : Item) (keys : list jsstring) :
  fst (fill keys it) = filter (absent it) keys.
Proof.
  assert (G : forall flat0 missing0,
             fst (fold_left
                    (fun (acc : list jsstring * Obj.t Token.ColorToken) k =>
                       let (missing, unionFlat) := acc in
                       match Obj.get (flat it) k with
                       | Some token => (missing, Obj.set unionFlat k token)
                       | None =>
                           (missing ++ [k], Obj.set unionFlat k TRANSPARENT_TOKEN)
                       end)
                    keys (missing0, flat0))
             = missing0 ++ filter (absent it) keys).
  { induction keys as [| k keys IH]; intros flat0 missing0;
      cbn [fold_left filter].
    - cbn [fst]. now rewrite app_nil_r.
    - unfold absent at 1.
      destruct (Obj.get (flat it) k); rewrite IH; [ reflexivity | ].
      now rewrite <- app_assoc. }
  unfold fill. now rewrite G.
Qed.

(** The report entry of an item. *)
Definition report_of (keys : list jsstring) (it : Item) : SourceReport :=
  {| missing := fst (fill keys it);
     present := len keys - len (fst (fill keys it)) |}.

Lemma step_eq (keys : list jsstring) (it : Item)
    (rep0 : Obj.t SourceReport)
    (flats0 : list (jsstring * Obj.t Token.ColorToken)) :
  step keys (rep0, flats0) it
  = (Obj.set rep0 (name it) (report_of keys it),
     flats0 ++ [(name it, snd (fill keys it))]).
Proof.
  unfold step, report_of. now destruct (fill keys it).
Qed.

Lemma steps_from (keys : list jsstring) (items : list Item)
    (rep0 : Obj.t SourceReport)
    (flats0 : list (jsstring * Obj.t Token.ColorToken)) :
  fold_left (step keys) items (rep0, flats0)
  = (fold_left (fun rep it => Obj.set rep (name it) (report_of keys it))
       items rep0,
     flats0 ++ map (fun it => (name it, snd (fill keys it))) items).
Proof.
  revert rep0 flats0.
  induction items as [| it items IH]; intros rep0 flats0; cbn [fold_left map].
  - now rewrite app_nil_r.
  - rewrite step_eq, IH. now rewrite <- app_assoc.
Qed.

Lemma report_entries (keys : list jsstring) (items : list Item)
    (rep0 : Obj.t SourceReport) (n : jsstring) (rep : SourceReport) :
  Obj.get (fold_left (fun rep it => Obj.set rep (name it) (report_of keys it))
             items rep0) n = Some rep ->
  Obj.get rep0 n = Some rep
  \/ exists it, In it items /\ name it = n /\ rep = report_of keys it.
Proof.
  revert rep0. induction items as [| it items IH]; intros rep0; cbn; [ tauto | ].
  intros H. apply IH in H. destruct H as [H | [it' [H1 H2]]].
  - apply get_set_cases in H. destruct H as [[-> ->] | H]; [| now left ].
    right. exists it. tauto.
  - right. exists it'. tauto.
Qed.

Lemma report_has_entry (keys : list jsstring) (items : list Item)
    (rep0 : Obj.t SourceReport) (n : jsstring) :
  JsString.eqb n (js "__proto__") = false ->
  (Obj.get rep0 n <> None \/ exists it, In it items /\ name it = n) ->
  Obj.get (fold_left (fun rep it => Obj.set rep (name it) (report_of keys it))
             items rep0) n <> None.
Proof.
  intros Hn. revert rep0. induction items as [| it items IH]; intros rep0; cbn.
  - intros [H | [it [[] _]]]. exact H.
  - intros H. apply IH.
    destruct (list_eq_dec N.eq_dec n (name it)) as [-> | Hne].
    + left. rewrite get_set_same by exact Hn. discriminate.
    + destruct H as [H | [it' [[<- | H1] H2]]].
      * left. now rewrite get_set_other.
      * congruence.
      * right. now exists it'.
Qed.

Lemma union_some (unionEnabled : bool) (items : list Item) (out : Output) :
  union unionEnabled items = Some out ->
  unionEnabled = true /\ (2 <= length items)%nat
  /\ out = {| totalUnionKeys := len (unionKeys items);
              report := fold_left
                          (fun rep it =>
                             Obj.set rep (name it) (report_of (unionKeys items) it))
                          items [];
              unionFlats := map (fun it => (name it, snd (fill (unionKeys items) it)))
                              items |}.
Proof.
  unfold union. destruct unionEnabled; [| discriminate ]. cbn [andb].
  destruct (2 <=? length items)%nat eqn:E; [| discriminate ].
  rewrite steps_from. cbn [app]. intros [= <-].
  split; [ reflexivity | ]. split; [ now apply Nat.leb_le | reflexivity ].
Qed.

Lemma filter_length_le (p : jsstring -> bool) (l : list jsstring) :
  (length (filter p l) <= length l)%nat.
Proof.
  induction l as [| x l IH]; cbn; [ lia | ]. destruct (p x); cbn; lia.
Qed.

(** C4. Whenever the union block runs (at least two sources), every
    source has an entry in the report (but one named [__proto__], which
    the report object takes for its prototype), and every entry
    satisfies [present + missing.length = totalUnionKeys], with [present]
    not negative. *)
Theorem report_counts (unionEnabled : bool) (items : list Item) (out : Output) :
  union unionEnabled items = Some out ->
  (2 <= length items)%nat
  /\ totalUnionKeys out = len (unionKeys items)
  /\ (forall it, In it items ->
        JsString.eqb (name it) (js "__proto__") = false ->
        Obj.get (report out) (name it) <> None)
  /\ (forall n rep,
        Obj.get (report out) n = Some rep ->
        (present rep + len (missing rep) = totalUnionKeys out)%Z
        /\ (0 <= present rep)%Z).
Proof.
  intros H. apply union_some in H. destruct H as [_ [Hlen ->]]. cbn.
  split; [ exact Hlen | ]. split; [ reflexivity | ]. split.
  - intros it Hit Hname. apply report_has_entry; [ exact Hname | ].
    right. now exists it.
  - intros n rep Hrep. apply report_entries in Hrep.
    destruct Hrep as [Hrep | [it [_ [_ ->]]]]; [ discriminate Hrep | ].
    unfold report_of. cbn [present missing].
    rewrite fill_missing. unfold len.
    pose proof (filter_length_le (absent it) (unionKeys items)). lia.
Qed.

(** Two sources of the specification's example: A has the foreground
    only, B the foreground and the editor background. *)
Definition example_items : list Item :=
  [ {| name := js "A";
       flat := flattenCssVarsToColorTokens
                 [(js "--vscode-foreground", js "#cccccc")] |};
    {| name := js "B";
       flat := flattenCssVarsToColorTokens
                 [(js "--vscode-foreground", js "#cccccc");
                  (js "--vscode-editor-background", js "#1e1e1e")] |} ].

Definition example_out : Output :=
  Eval vm_compute in
    match union true example_items with
    | Some out => out
    | None => {| totalUnionKeys := 0; report := []; unionFlats := [] |}
    end.

Lemma example_union : union true example_items = Some example_out.
Proof. vm_compute. reflexivity. Qed.

Lemma report_counts_witness :
  union true example_items = Some example_out
  /\ Obj.get (report example_out) (js "A")
     = Some {| missing := [js "--vscode-editor-background"]; present := 1 |}
  /\ Obj.get (report example_out) (js "B")
     = Some {| missing := []; present := 2 |}
  /\ (2 <= length example_items)%nat
  /\ totalUnionKeys example_out = len (unionKeys example_items)
  /\ (forall it, In it example_items ->
         JsString.eqb (name it) (js "__proto__") = false ->
         Obj.get (report example_out) (name it) <> None)
  /\ (forall n rep,
        Obj.get (report example_out) n = Some rep ->
        (present rep + len (missing rep) = totalUnionKeys example_out)%Z
        /\ (0 <= present rep)%Z).
Proof.
  split; [ exact example_union | ].
  split; [ vm_compute; reflexivity | ].
  split; [ vm_compute; reflexivity | ].
  exact (@report_counts true example_items example_out example_union).
Defined.

(* ================================================================== *)
(** ** The heap *)

Import Heap.

Lemma own_alloc (h : heap) (l : loc) : own (fst (alloc h)) l = own h l.
Proof.
  unfold alloc, own. cbn [fst].
  destruct (Nat.lt_ge_cases l (length h)) as [H | H].
  - now apply app_nth1.
  - rewrite (nth_overflow h) by exact H.
    rewrite app_nth2 by exact H.
    destruct (l - length h) as [| [| n]]; reflexivity.
Qed.

Lemma length_alloc (h : heap) : length (fst (alloc h)) = S (length h).
Proof. unfold alloc. cbn. rewrite length_app. cbn. lia. Qed.

Lemma length_update (l : loc) (o : object) (h : heap) :
  length (update l o h) = length h.
Proof.
  revert l. induction h as [| x h IH]; intros [| l]; cbn; try reflexivity.
  now rewrite IH.
Qed.

Lemma own_update_same (l : loc) (o : object) (h : heap) :
  l < length h -> own (update l o h) l = o.
Proof.
  unfold own. revert l. induction h as [| x h IH]; intros [| l]; cbn; try lia.
  - reflexivity.
  - intros H. apply IH. lia.
Qed.

Lemma own_update_other (l l' : loc) (o : object) (h : heap) :
  l' <> l -> own (update l o h) l' = own h l'.
Proof.
  unfold own. revert l l'.
  induction h as [| x h IH]; intros [| l] [| l']; cbn; try reflexivity; try lia.
  intros H. apply IH. lia.
Qed.

Lemma length_set_prop (h : heap) (l : loc) (k : jsstring) (v : value) :
  length (set_prop h l k v) = length h.
Proof. apply length_update. Qed.

Lemma own_set_prop_same (h : heap) (l : loc) (k : jsstring) (v : value) :
  l < length h -> own (set_prop h l k v) l = Obj.set (own h l) k v.
Proof. apply own_update_same. Qed.

Lemma own_set_prop_other (h : heap) (l l' : loc) (k : jsstring) (v : value) :
  l' <> l -> own (set_prop h l k v) l' = own h l'.
Proof. apply own_update_other. Qed.

Lemma get_prop_some (h : heap) (l : loc) (k : jsstring) (v : value) :
  Obj.get (own h l) k = Some v -> get_prop h l k = v.
Proof. unfold get_prop. now intros ->. Qed.

Lemma get_prop_none (h : heap) (l : loc) (k : jsstring) :
  Obj.get (own h l) k = None -> get_prop h l k = VUndefined.
Proof. unfold get_prop. now intros ->. Qed.

(** A path that stays with own properties: no middle segment names a
    member of [Object.prototype], and the last is not [__proto__]. *)
Fixpoint plain_path (path : list jsstring) : bool :=
  match path with
  | [] => true
  | [k] => negb (JsString.eqb k (js "__proto__"))
  | k :: rest => own_key k && plain_path rest
  end.

(** The tree under construction at [out]: every property of [out] is an
    object created after it, and every property of such an object is an
    object other than the two. *)
Definition tree_ok (out : loc) (h : heap) : Prop :=
  out < length h
  /\ forall k v, Obj.get (own h out) k = Some v ->
       exists lv, v = VObj lv /\ out < lv < length h
         /\ forall k' v', Obj.get (own h lv) k' = Some v' ->
              exists l, v' = VObj l /\ l < length h /\ l <> out /\ l <> lv.

Lemma own_key_not_proto (k : jsstring) :
  own_key k = true -> JsString.eqb k (js "__proto__") = false.
Proof.
  unfold own_key. intros H.
  destruct (JsString.eqb k (js "__proto__")) eqn:E; [| reflexivity ].
  apply eqb_eq in E. subst k. discriminate H.
Qed.

Lemma tree_ok_alloc (out : loc) (h : heap) :
  tree_ok out h -> tree_ok out (fst (alloc h)).
Proof.
  intros [Hout Hprops]. split; [ rewrite length_alloc; lia | ].
  intros k v. rewrite own_alloc. intros Hk.
  destruct (Hprops k v Hk) as [lv [-> [Hlv Hch]]].
  exists lv. split; [ reflexivity | ]. split; [ rewrite length_alloc; lia | ].
  intros k' v'. rewrite own_alloc. intros Hk'.
  destruct (Hch k' v' Hk') as [l [-> [Hl Hne]]].
  exists l. split; [ reflexivity | ]. split; [ rewrite length_alloc; lia | exact Hne ].
Qed.

(** Hanging an object into an object other than [out]. *)
Lemma tree_ok_set_inner (out : loc) (h : heap) (lx lnew : loc) (k : jsstring) :
  tree_ok out h -> lx <> out -> lnew < length h -> lnew <> out ->
  (out < lx -> lnew <> lx) ->
  tree_ok out (set_prop h lx k (VObj lnew)).
Proof.
  intros [Hout Hprops] Hlx Hnew Hno Hnx.
  split; [ now rewrite length_set_prop | ].
  intros k0 v. rewrite own_set_prop_other by congruence. intros Hk.
  destruct (Hprops k0 v Hk) as [lv [-> [Hlv Hch]]].
  exists lv. split; [ reflexivity | ]. split; [ now rewrite length_set_prop | ].
  intros k' v'. rewrite length_set_prop.
  destruct (Nat.eq_dec lv lx) as [-> | Hne].
  - rewrite own_set_prop_same by lia. intros Hk'.
    apply get_set_cases in Hk'. destruct Hk' as [[_ ->] | Hk'].
    + exists lnew. intuition lia.
    + exact (Hch _ _ Hk').
  - rewrite own_set_prop_other by exact Hne. apply Hch.
Qed.

(** Hanging a new, empty object into [out]. *)
Lemma tree_ok_set_out (out : loc) (h : heap) (fresh : loc) (k : jsstring) :
  tree_ok out h -> out < fresh < length h -> own h fresh = [] ->
  tree_ok out (set_prop h out k (VObj fresh)).
Proof.
  intros [Hout Hprops] Hfresh Hempty.
  split; [ now rewrite length_set_prop | ].
  intros k0 v. rewrite own_set_prop_same by exact Hout. intros Hk.
  rewrite length_set_prop.
  apply get_set_cases in Hk. destruct Hk as [[_ ->] | Hk].
  - exists fresh. split; [ reflexivity | ]. split; [ exact Hfresh | ].
    intros k' v'. rewrite own_set_prop_other by lia. rewrite Hempty. discriminate.
  - destruct (Hprops k0 v Hk) as [lv [-> [Hlv Hch]]].
    exists lv. split; [ reflexivity | ]. split; [ exact Hlv | ].
    intros k' v'. rewrite own_set_prop_other by lia. apply Hch.
Qed.

Lemma own_beyond (h : heap) (l : loc) : length h <= l -> own h l = [].
Proof. intros H. unfold own. now apply nth_overflow. Qed.

(** One round of the loop from [out] or from a property of [out]: it
    yields an object, new or old, and keeps the tree. *)
Lemma descend_out (out : loc) (h : heap) (k : jsstring) :
  tree_ok out h -> own_key k = true ->
  exists h1 lv,
    descend h (VObj out) k = Ok (h1, VObj lv)
    /\ tree_ok out h1
    /\ length h <= length h1
    /\ out < lv < length h1
    /\ Obj.get (own h1 out) k = Some (VObj lv)
    /\ (forall l, l <> out -> own h1 l = own h l)
    /\ (get_prop h out k = VObj lv \/ get_prop h out k = VUndefined).
Proof.
  intros Hok Hk. pose proof Hok as [Hout Hprops].
  unfold descend. rewrite Hk.
  destruct (Obj.get (own h out) k) as [v |] eqn:E.
  - destruct (Hprops k v E) as [lv [-> [Hlv _]]].
    rewrite (get_prop_some _ _ _ _ E).
    exists h, lv. repeat split; try assumption; try lia. now left.
  - rewrite (get_prop_none _ _ _ E).
    exists (set_prop (fst (alloc h)) out k (VObj (length h))), (length h).
    split; [ reflexivity | ].
    split.
    { apply tree_ok_set_out; [ now apply tree_ok_alloc | rewrite length_alloc; lia | ].
      rewrite own_alloc. now apply own_beyond. }
    rewrite length_set_prop, length_alloc.
    split; [ lia | ]. split; [ lia | ].
    split.
    { rewrite own_set_prop_same by (rewrite length_alloc; lia).
      apply get_set_same. now apply own_key_not_proto. }
    split; [| now right ].
    intros l Hl. rewrite own_set_prop_other by exact Hl. apply own_alloc.
Qed.

Lemma descend_inner (out lv : loc) (h : heap) (k0 k : jsstring) :
  tree_ok out h -> Obj.get (own h out) k0 = Some (VObj lv) ->
  own_key k = true ->
  exists h2 lx,
    descend h (VObj lv) k = Ok (h2, VObj lx)
    /\ tree_ok out h2
    /\ length h <= length h2
    /\ lx < length h2 /\ lx <> out /\ lx <> lv
    /\ Obj.get (own h2 lv) k = Some (VObj lx)
    /\ (forall l, l <> lv -> own h2 l = own h l)
    /\ (get_prop h lv k = VObj lx \/ (get_prop h lv k = VUndefined /\ length h <= lx)).
Proof.
  intros Hok Hk0 Hk. pose proof Hok as [Hout Hprops].
  destruct (Hprops k0 _ Hk0) as [lv' [[= <-] [Hlv Hch]]].
  unfold descend. rewrite Hk.
  destruct (Obj.get (own h lv) k) as [v |] eqn:E.
  - destruct (Hch k v E) as [lx [-> [Hlx [Hno Hnv]]]].
    rewrite (get_prop_some _ _ _ _ E).
    exists h, lx. repeat split; try assumption; try lia. now left.
  - rewrite (get_prop_none _ _ _ E).
    exists (set_prop (fst (alloc h)) lv k (VObj (length h))), (length h).
    split; [ reflexivity | ].
    split.
    { apply tree_ok_set_inner; [ now apply tree_ok_alloc | lia | | lia | lia ].
      rewrite length_alloc. lia. }
    rewrite length_set_prop, length_alloc.
    split; [ lia | ]. split; [ lia | ]. split; [ lia | ]. split; [ lia | ].
    split.
    { rewrite own_set_prop_same by (rewrite length_alloc; lia).
      apply get_set_same. now apply own_key_not_proto. }
    split; [| right; split; [ reflexivity | lia ] ].
    intros l Hl. rewrite own_set_prop_other by exact Hl. apply own_alloc.
Qed.

(* ================================================================== *)
(** ** The nester *)

Lemma proto_not_plain (k : jsstring) :
  negb (JsString.eqb k (js "__proto__")) = true ->
  JsString.eqb k (js "__proto__") = false.
Proof. now destruct (JsString.eqb k (js "__proto__")). Qed.

(** A path of two segments: the token lands in the object at the first
    segment; no object older than [out] changes. *)
Lemma setNested_two (out : loc) (h : heap) (p0 p1 : jsstring) (lt : loc) :
  tree_ok out h -> lt < out ->
  plain_path [p0; p1] = true ->
  exists h',
    setNested h (VObj out) [p0; p1] (VObj lt) = Ok h'
    /\ tree_ok out h'
    /\ length h <= length h'
    /\ lookup h' (VObj out) [p0; p1] = VObj lt
    /\ (forall l, l < out -> own h' l = own h l).
Proof.
  intros Hok Hlt Hplain. cbn [plain_path] in Hplain.
  apply andb_true_iff in Hplain. destruct Hplain as [H0 H1].
  apply proto_not_plain in H1.
  destruct (@descend_out out h p0 Hok H0)
    as [h1 [lv [Hd [Hok1 [Hlen [Hlv [Hget [Hframe _]]]]]]]].
  exists (set_prop h1 lv p1 (VObj lt)).
  cbn [setNested]. rewrite Hd. unfold put. rewrite H1.
  split; [ reflexivity | ].
  split; [ apply tree_ok_set_inner; try assumption; lia | ].
  rewrite length_set_prop. split; [ exact Hlen | ].
  split.
  - cbn [lookup].
    rewrite (@get_prop_some _ out p0 (VObj lv))
      by (rewrite own_set_prop_other by lia; exact Hget).
    apply get_prop_some. rewrite own_set_prop_same by lia.
    now apply get_set_same.
  - intros l Hl. rewrite own_set_prop_other by lia. apply Hframe. lia.
Qed.

(** A path of three segments: the token lands in the object [lx] the
    first two segments lead to, which is the one they led to before if
    there was one, and a new one otherwise.  Of the objects older than
    [out] only [lx] changes, by the one assignment. *)
Lemma setNested_three (out : loc) (h : heap) (p0 p1 p2 : jsstring) (lt : loc) :
  tree_ok out h -> lt < out ->
  plain_path [p0; p1; p2] = true ->
  exists h' lx,
    setNested h (VObj out) [p0; p1; p2] (VObj lt) = Ok h'
    /\ tree_ok out h'
    /\ length h <= length h'
    /\ lookup h' (VObj out) [p0; p1] = VObj lx
    /\ get_prop h' lx p2 = VObj lt
    /\ (lookup h (VObj out) [p0; p1] = VObj lx
        \/ (lookup h (VObj out) [p0; p1] = VUndefined /\ out < lx))
    /\ (forall l, l < out -> l <> lx -> own h' l = own h l)
    /\ (lx < out -> own h' lx = Obj.set (own h lx) p2 (VObj lt)).
Proof.
  intros Hok Hlt Hplain. cbn [plain_path] in Hplain.
  apply andb_true_iff in Hplain. destruct Hplain as [H0 Hplain].
  apply andb_true_iff in Hplain. destruct Hplain as [H1 H2].
  apply proto_not_plain in H2.
  destruct (@descend_out out h p0 Hok H0)
    as [h1 [lv [Hd [Hok1 [Hlen1 [Hlv [Hget1 [Hframe1 Hbefore1]]]]]]]].
  destruct (@descend_inner out lv h1 p0 p1 Hok1 Hget1 H1)
    as [h2 [lx [Hd2 [Hok2 [Hlen2 [Hlx [Hxo [Hxv [Hget2 [Hframe2 Hbefore2]]]]]]]]]].
  exists (set_prop h2 lx p2 (VObj lt)), lx.
  cbn [setNested]. rewrite Hd, Hd2. unfold put. rewrite H2.
  split; [ reflexivity | ].
  assert (Hlen : length h <= length h2) by lia.
  split; [ apply tree_ok_set_inner; try assumption; lia | ].
  rewrite length_set_prop. split; [ exact Hlen | ].
  assert (Hout2 : Obj.get (own h2 out) p0 = Some (VObj lv))
    by (rewrite Hframe2 by lia; exact Hget1).
  split.
  { cbn [lookup].
    rewrite (@get_prop_some _ out p0 (VObj lv))
      by (rewrite own_set_prop_other by lia; exact Hout2).
    apply get_prop_some. rewrite own_set_prop_other by lia. exact Hget2. }
  split.
  { apply get_prop_some. rewrite own_set_prop_same by lia.
    now apply get_set_same. }
  split.
  { cbn [lookup]. destruct Hbefore1 as [E | E]; rewrite E.
    - assert (Heq : get_prop h1 lv p1 = get_prop h lv p1)
        by (unfold get_prop; rewrite Hframe1 by lia; reflexivity).
      rewrite <- Heq. destruct Hbefore2 as [E2 | [E2 Hge]].
      + now left.
      + right. split; [ exact E2 | lia ].
    - right. split; [ reflexivity | ].
      destruct Hbefore2 as [E2 | [_ Hge]]; [| lia ].
      exfalso. unfold get_prop in E, E2.
      destruct (Obj.get (own h out) p0) as [v |] eqn:E0.
      + subst v. destruct Hok as [_ Hprops].
        destruct (Hprops _ _ E0) as [? [[=] _]].
      + clear E.
        assert (Hnew : own h1 lv = []).
        { unfold descend in Hd. rewrite H0 in Hd.
          rewrite (get_prop_none _ _ _ E0) in Hd.
          cbn [alloc] in Hd. injection Hd as _ <-.
          rewrite Hframe1 by lia. apply own_beyond. lia. }
        rewrite Hnew in E2. discriminate E2. }
  split.
  - intros l Hl Hne. rewrite own_set_prop_other by exact Hne.
    rewrite Hframe2 by lia. apply Hframe1. lia.
  - intros Hold. rewrite own_set_prop_same by lia.
    rewrite Hframe2 by lia. rewrite Hframe1 by lia. reflexivity.
Qed.

Lemma toTokenPath_shape (n : jsstring) :
  (exists segment, toTokenPath n = [js "vscode"; segment])
  \/ (exists group leaf, toTokenPath n = [js "vscode"; group; leaf]).
Proof.
  unfold toTokenPath. fold (stripped n).
  pose proof (@split_not_nil (ch "-") (stripped n)) as Hn.
  destruct (split (ch "-") (stripped n)) as [| p [| q ps]]; [ contradiction | |].
  - left. now exists p.
  - right. now exists p, (join (js "-") (q :: ps)).
Qed.

(** The values of the flat map refer to objects older than [out]. *)
Definition tokens_before (out : loc) (flatMap : object) : Prop :=
  forall k v, Obj.get flatMap k = Some v -> exists lt, v = VObj lt /\ lt < out.

(** A key the model follows: neither it nor a middle segment of its path
    names a member of [Object.prototype], and the last segment is not
    [__proto__]. *)
Definition plain_key (k : jsstring) : bool :=
  own_key k && plain_path (toTokenPath k).





Lemma tree_ok_fresh (h : heap) : tree_ok (length h) (fst (alloc h)).
Proof.
  split; [ rewrite length_alloc; lia | ].
  intros k v. rewrite own_alloc, own_beyond by lia. discriminate.
Qed.

Lemma lookup_app (h : heap) (v : value) (p q : list jsstring) :
  lookup h v (p ++ q) = lookup h (lookup h v p) q.
Proof.
  revert v. induction p as [| k p IH]; intros v; cbn [app lookup];
    [ reflexivity | ].
  destruct v; try apply IH; now destruct q.
Qed.

Lemma nestFlatTokens_run (h : heap) (flatMap : object)
    (orderedKeys : option (list jsstring)) (h' : heap) :
  nest_keys (fst (alloc h)) flatMap (length h)
    (match orderedKeys with Some ks => ks | None => Obj.keys flatMap end)
  = Ok h' ->
  nestFlatTokens h flatMap orderedKeys = Ok (h', length h).
Proof. unfold nestFlatTokens. cbn [alloc fst]. now intros ->. Qed.

(** The keys [nestFlatTokens] walks. *)
Definition keys_walked (flatMap : object) (orderedKeys : option (list jsstring))
  : list jsstring :=
  match orderedKeys with
  | Some ks => ks
  | None => Obj.keys flatMap
  end.


Lemma plain_key_parts (k : jsstring) :
  plain_key k = true -> own_key k = true /\ plain_path (toTokenPath k) = true.
Proof. unfold plain_key. apply andb_true_iff. Qed.

(** The shorter path first: the longer one's token is assigned into the
    shorter one's token object. *)
Lemma collision_short_first (h : heap) (flatMap : object)
    (n1 n2 g leaf : jsstring) (l1 l2 : loc) :
  tokens_before (length h) flatMap ->
  toTokenPath n1 = [js "vscode"; g] ->
  toTokenPath n2 = [js "vscode"; g; leaf] ->
  Obj.get flatMap n1 = Some (VObj l1) ->
  Obj.get flatMap n2 = Some (VObj l2) ->
  plain_key n1 = true -> plain_key n2 = true ->
  exists h',
    nestFlatTokens h flatMap (Some [n1; n2]) = Ok (h', length h)
    /\ lookup h' (VObj (length h)) [js "vscode"; g] = VObj l1
    /\ lookup h' (VObj (length h)) [js "vscode"; g; leaf] = VObj l2
    /\ own h' l1 = Obj.set (own h l1) leaf (VObj l2)
    /\ (forall l, l < length h -> l <> l1 -> own h' l = own h l).
Proof.
  intros Htok E1 E2 G1 G2 P1 P2.
  apply plain_key_parts in P1, P2. destruct P1 as [O1 P1], P2 as [O2 P2].
  rewrite E1 in P1. rewrite E2 in P2.
  destruct (Htok _ _ G1) as [? [[= <-] Hl1]].
  destruct (Htok _ _ G2) as [? [[= <-] Hl2]].
  destruct (@setNested_two _ _ _ _ _ (tree_ok_fresh h) Hl1 P1)
    as [h2 [R2 [Hok2 [_ [Look2 Frame2]]]]].
  destruct (@setNested_three _ _ _ _ _ _ Hok2 Hl2 P2)
    as [h3 [lx [R3 [_ [_ [Look3 [Leaf3 [Before3 [Frame3 Hit3]]]]]]]]].
  assert (lx = l1) as ->.
  { rewrite Look2 in Before3. destruct Before3 as [[= <-] | [[=] _]]. reflexivity. }
  exists h3. split.
  { apply nestFlatTokens_run. cbn [nest_keys].
    now rewrite O1, G1, E1, R2, O2, G2, E2, R3. }
  split; [ exact Look3 | ].
  split.
  { change [js "vscode"; g; leaf] with ([js "vscode"; g] ++ [leaf]).
    rewrite lookup_app, Look3. exact Leaf3. }
  split.
  - rewrite (Hit3 Hl1), Frame2 by exact Hl1. now rewrite own_alloc.
  - intros l Hl Hne. rewrite Frame3, Frame2 by assumption. apply own_alloc.
Qed.



(** Two token objects, and a flat map in which the first name's path is a
    prefix of the second's. *)
Definition example_heap : heap :=
  [ [(js "$type", VStr (js "color")); (js "$value", VStr (js "#111111"))];
    [(js "$type", VStr (js "color")); (js "$value", VStr (js "#222222"))] ].





(** When both names hold the same token object (the placeholder stands
    for every key a source lacks) and stay with own properties (neither
    names a member of [Object.prototype], nor does the group segment,
    and the leaf is not [__proto__]), the shorter path first makes the
    object a property of itself: the tree is cyclic. *)
Theorem shared_token_cycle (h : heap) (flatMap : object)
    (n1 n2 g leaf : jsstring) (l : loc) :
  tokens_before (length h) flatMap ->
  toTokenPath n1 = [js "vscode"; g] ->
  toTokenPath n2 = [js "vscode"; g; leaf] ->
  Obj.get flatMap n1 = Some (VObj l) ->
  Obj.get flatMap n2 = Some (VObj l) ->
  plain_key n1 = true -> plain_key n2 = true ->
  exists h',
    nestFlatTokens h flatMap (Some [n1; n2]) = Ok (h', length h)
    /\ lookup h' (VObj (length h)) [js "vscode"; g] = VObj l
    /\ get_prop h' l leaf = VObj l
    /\ forall n, lookup h' (VObj l) (repeat leaf n) = VObj l.
Proof.
  intros Htok E1 E2 G1 G2 P1 P2.
  destruct (collision_short_first h flatMap n1 n2 g leaf l l
              Htok E1 E2 G1 G2 P1 P2) as [h' [Run [Look [_ [Own _]]]]].
  exists h'. split; [ exact Run | ]. split; [ exact Look | ].
  assert (Hleaf : get_prop h' l leaf = VObj l).
  { unfold get_prop. rewrite Own. rewrite get_set_same; [ reflexivity | ].
    apply plain_key_parts in P2. destruct P2 as [_ P2]. rewrite E2 in P2.
    cbn [plain_path] in P2. apply andb_true_iff in P2. destruct P2 as [_ P2].
    apply andb_true_iff in P2. destruct P2 as [_ P2]. now apply proto_not_plain. }
  split; [ exact Hleaf | ].
  induction n as [| n IH]; cbn [repeat lookup]; [ reflexivity | ].
  now rewrite Hleaf.
Qed.

Definition example_placeholder_flat : object :=
  [(js "--vscode-foo", VObj 0); (js "--vscode-foo-bar", VObj 0)].

Lemma example_placeholder_tokens :
  tokens_before (length example_heap) example_placeholder_flat.
Proof.
  intros k v. unfold example_placeholder_flat. cbn [Obj.get].
  destruct (JsString.eqb (js "--vscode-foo") k);
    [ intros [= <-]; exists 0; split; [ reflexivity | cbn; lia ] | ].
  destruct (JsString.eqb (js "--vscode-foo-bar") k);
    [ intros [= <-]; exists 0; split; [ reflexivity | cbn; lia ] | ].
  discriminate.
Qed.

Lemma shared_token_cycle_witness :
  exists h',
    nestFlatTokens example_heap example_placeholder_flat
      (Some [js "--vscode-foo"; js "--vscode-foo-bar"])
    = Ok (h', length example_heap)
    /\ lookup h' (VObj (length example_heap)) [js "vscode"; js "foo"] = VObj 0
    /\ get_prop h' 0 (js "bar") = VObj 0
    /\ forall n, lookup h' (VObj 0) (repeat (js "bar") n) = VObj 0.
Proof.
  exact (shared_token_cycle example_heap example_placeholder_flat
           (js "--vscode-foo") (js "--vscode-foo-bar") (js "foo") (js "bar") 0
           example_placeholder_tokens eq_refl eq_refl eq_refl eq_refl
           eq_refl eq_refl).
Defined.

(* ================================================================== *)
(** ** Trimming *)

Lemma all_ws_app (x y : jsstring) : all_ws x -> all_ws y -> all_ws (x ++ y).
Proof. unfold all_ws. intros Hx Hy. rewrite forallb_app. now rewrite Hx, Hy. Qed.

Lemma all_ws_rev (x : jsstring) : all_ws x -> all_ws (rev x).
Proof.
  unfold all_ws. rewrite !forallb_forall. intros H c Hc.
  apply H. now apply in_rev.
Qed.

Lemma skip_ws_trimStart (s : jsstring) : skip_ws s = trimStart s.
Proof.
  unfold skip_ws. induction s as [| c s IH]; cbn; [ reflexivity | ].
  destruct (is_ws c); [| reflexivity ].
  destruct (span is_ws s). exact IH.
Qed.

Lemma trimStart_ws (w s : jsstring) : all_ws w -> trimStart (w ++ s) = trimStart s.
Proof.
  unfold all_ws. induction w as [| c w IH]; cbn; [ reflexivity | ].
  intros H. apply andb_true_iff in H. destruct H as [-> H]. now apply IH.
Qed.

Lemma trimEnd_ws (s w : jsstring) : all_ws w -> trimEnd (s ++ w) = trimEnd s.
Proof.
  intros H. unfold trimEnd. rewrite rev_app_distr.
  rewrite trimStart_ws by now apply all_ws_rev. reflexivity.
Qed.

Lemma trimEnd_last (s : jsstring) (d : N) :
  is_ws d = false -> trimEnd (s ++ [d]) = s ++ [d].
Proof.
  intros H. unfold trimEnd. rewrite rev_app_distr. cbn [rev app].
  rewrite trimStart_head by exact H. cbn [rev]. now rewrite rev_involutive.
Qed.

(** What trimming leaves: nothing, or a text between two characters that
    are no white space. *)
Definition trimmed (s : jsstring) : Prop :=
  s = [] \/ exists c mid d, (s = [c] \/ s = c :: mid ++ [d])
                            /\ is_ws c = false /\ is_ws d = false.

Lemma trimmed_trim (s : jsstring) : trimmed s -> trim s = s.
Proof.
  intros [-> | [c [mid [d [[-> | ->] [Hc Hd]]]]]]; [ reflexivity | | ].
  - cbv [trim]. rewrite trimStart_head by exact Hc.
    now apply (trimEnd_last []).
  - unfold trim. rewrite trimStart_head by exact Hc.
    now apply (trimEnd_last (c :: mid)).
Qed.

Lemma trimStart_split (s : jsstring) :
  exists w, s = w ++ trimStart s /\ all_ws w /\ stops is_ws (trimStart s).
Proof.
  rewrite <- skip_ws_trimStart. unfold skip_ws.
  destruct (span is_ws s) as [w y] eqn:E. apply span_split in E.
  destruct E as [-> [H1 H2]]. now exists w.
Qed.

(** A string is its trimmed text between two runs of white space. *)
Lemma trim_split (s : jsstring) :
  exists w w', s = w ++ trim s ++ w' /\ all_ws w /\ all_ws w' /\ trimmed (trim s).
Proof.
  destruct (trimStart_split s) as [w [Es [Hw Hstop]]].
  destruct (trimStart_split (rev (trimStart s))) as [w' [Et [Hw' Hstop']]].
  fold (trimEnd (trimStart s)) in *.
  assert (E2 : trimStart s = trim s ++ rev w').
  { unfold trim, trimEnd. rewrite <- rev_app_distr, <- Et. now rewrite rev_involutive. }
  exists w, (rev w'). split; [ now rewrite <- E2 | ].
  split; [ exact Hw | ]. split; [ now apply all_ws_rev | ].
  unfold trim, trimEnd in *. set (t := trimStart s) in *.
  destruct (trimStart (rev t)) as [| d u] eqn:Eu; [ now left | ]. right.
  cbn in Hstop'. cbn [rev] in *.
  destruct (rev u) as [| c mid] eqn:Er.
  - exists d, [], d. cbn. split; [ now left | now split ].
  - exists c, mid, d. split; [ now right | ]. split; [| exact Hstop' ].
    rewrite E2 in Hstop. cbn in Hstop. exact Hstop.
Qed.

Lemma trim_idempotent (s : jsstring) : trim (trim s) = trim s.
Proof.
  destruct (trim_split s) as [w [w' [_ [_ [_ H]]]]]. now apply trimmed_trim.
Qed.

Lemma trimmed_of_trim (s : jsstring) : trim s = s -> trimmed s.
Proof.
  intros E. destruct (trim_split s) as [w [w' [_ [_ [_ H]]]]]. now rewrite E in H.
Qed.

Lemma trim_all_ws_nil (w : jsstring) : all_ws w -> trim w = [].
Proof.
  intros H. unfold trim. rewrite <- (app_nil_r w), trimStart_ws by exact H.
  reflexivity.
Qed.

(** White space around a text does not change what trimming gives. *)
Lemma trim_pad (w s w' : jsstring) :
  all_ws w -> all_ws w' -> trim (w ++ s ++ w') = trim s.
Proof.
  intros Hw Hw'.
  destruct (trim_split s) as [u [u' [Es [Hu [Hu' Ht]]]]].
  assert (E : w ++ s ++ w' = (w ++ u) ++ trim s ++ (u' ++ w')).
  { rewrite Es at 1. now rewrite <- !app_assoc. }
  rewrite E. clear E Es.
  assert (Hl : all_ws (w ++ u)) by now apply all_ws_app.
  assert (Hr : all_ws (u' ++ w')) by now apply all_ws_app.
  generalize dependent (w ++ u). generalize dependent (u' ++ w').
  intros r Hr l Hl.
  destruct Ht as [E | [c [mid [d [E [Hc Hd]]]]]].
  - rewrite E at 1. cbn [app]. rewrite trim_all_ws_nil by now apply all_ws_app.
    now rewrite E.
  - unfold trim at 1. rewrite trimStart_ws by exact Hl.
    assert (Ehd : exists rest, trim s = c :: rest)
      by (destruct E as [-> | ->]; eauto).
    destruct Ehd as [rest Ehd]. rewrite Ehd at 1. cbn [app].
    rewrite trimStart_head by exact Hc.
    change (c :: rest ++ r) with ((c :: rest) ++ r). rewrite <- Ehd.
    rewrite trimEnd_ws by exact Hr.
    destruct E as [E | E]; rewrite E.
    + now apply (trimEnd_last []).
    + now apply (trimEnd_last (c :: mid)).
Qed.

Lemma trim_nil_ws (s : jsstring) : trim s = [] -> all_ws s.
Proof.
  intros E. destruct (trim_split s) as [w [w' [Es [Hw [Hw' _]]]]].
  rewrite E in Es. rewrite Es. now apply all_ws_app.
Qed.

(** The text before the last character that is no white space. *)
Lemma last_mark_unique (x x' w w' : jsstring) (c : N) :
  is_ws c = false -> all_ws w -> all_ws w' ->
  x ++ c :: w = x' ++ c :: w' -> x = x' /\ w = w'.
Proof.
  intros Hc Hw Hw' E. apply (f_equal (@rev N)) in E.
  rewrite !rev_app_distr in E. cbn [rev] in E. rewrite <- !app_assoc in E.
  cbn [app] in E.
  assert (S1 : span is_ws (rev w ++ c :: rev x) = (rev w, c :: rev x))
    by (apply span_app; [ now apply all_ws_rev | exact Hc ]).
  assert (S2 : span is_ws (rev w' ++ c :: rev x') = (rev w', c :: rev x'))
    by (apply span_app; [ now apply all_ws_rev | exact Hc ]).
  rewrite E in S1. rewrite S1 in S2. injection S2 as E1 E2.
  split; [ now apply rev_inj | now apply rev_inj ].
Qed.

(* ================================================================== *)
(** ** What [CSS_PATTERN] accepts *)

Import CssParser.

(** A property name as group 1 describes it. *)
Definition css_name (n : jsstring) : Prop :=
  (exists c x, n = c :: x /\ is_name_start c = true
               /\ forallb is_name_char x = true)
  \/ (exists x, n = js "--" ++ x /\ x <> [] /\ forallb is_name_char x = true).

Definition no_terminator (v : jsstring) : Prop :=
  forallb (fun c => negb (is_line_terminator c)) v = true.

(** The text of a declaration: a name, a colon, a value and a semicolon,
    with optional white space around each. *)
Definition declaration_text (w0 n w1 w2 v w3 w4 : jsstring) : jsstring :=
  w0 ++ n ++ w1 ++ ch ":" :: w2 ++ v ++ w3 ++ ch ";" :: w4.

Lemma name_char_not_ws (c : N) : is_name_char c = true -> is_ws c = false.
Proof.
  unfold is_name_char, is_word, is_digit, is_upper, is_lower, is_ws.
  change (ch "_") with 95%N. change (ch "-") with 45%N.
  cbn [existsb]. intros H.
  destruct (_ || _)%bool eqn:E at 1; [| reflexivity ].
  exfalso. b2p; lia.
Qed.

Lemma name_start_char (c : N) : is_name_start c = true -> is_name_char c = true.
Proof.
  unfold is_name_start, is_name_char, is_word. intros H.
  apply orb_true_iff in H. destruct H as [H | H].
  - apply orb_true_iff in H. destruct H as [H | H]; rewrite H;
      now rewrite ?orb_true_r.
  - rewrite H. now rewrite ?orb_true_r.
Qed.

Lemma css_name_chars (n : jsstring) :
  css_name n -> n <> [] /\ forallb is_name_char n = true.
Proof.
  intros [[c [x [-> [Hc Hx]]]] | [x [-> [Hne Hx]]]].
  - split; [ discriminate | ]. cbn. now rewrite (name_start_char _ Hc).
  - split; [ discriminate | ]. exact Hx.
Qed.

Lemma css_name_no_ws (n : jsstring) :
  css_name n -> Forall (fun c => is_ws c = false) n.
Proof.
  intros H. apply css_name_chars in H. destruct H as [_ H].
  apply Forall_forall. intros c Hc. apply name_char_not_ws.
  rewrite forallb_forall in H. now apply H.
Qed.

Lemma strip_prefix_some (p s rest : jsstring) :
  strip_prefix p s = Some rest <-> s = p ++ rest.
Proof.
  revert s. induction p as [| c p IH]; intros s; cbn [strip_prefix app].
  - split; [ now intros [= ->] | now intros -> ].
  - destruct s as [| d s]; [ split; discriminate | ].
    destruct (N.eqb_spec c d) as [<- | Hne].
    + rewrite IH. split; [ now intros -> | now intros [= ->] ].
    + split; [ discriminate | intros [= <- _]; contradiction ].
Qed.

Lemma match_name_sound (s n rest : jsstring) :
  match_name s = Some (n, rest) ->
  s = n ++ rest /\ css_name n /\ stops is_name_char rest.
Proof.
  unfold match_name. destruct s as [| c s]; [ discriminate | ].
  destruct (is_name_start c) eqn:Ec.
  - destruct (span is_name_char s) as [x y] eqn:E. intros [= <- <-].
    apply span_split in E. destruct E as [-> [Hx Hy]].
    split; [ reflexivity | ]. split; [| exact Hy ].
    left. now exists c, x.
  - destruct (strip_prefix (js "--") (c :: s)) as [rest' |] eqn:Ep; [| discriminate ].
    destruct (span is_name_char rest') as [x y] eqn:E.
    destruct x as [| x0 x]; [ discriminate | ]. intros [= <- <-].
    apply span_split in E. destruct E as [-> [Hx Hy]].
    apply strip_prefix_some in Ep. rewrite Ep.
    split; [ reflexivity | ]. split; [| exact Hy ].
    right. exists (x0 :: x). split; [ reflexivity | ]. split; [ discriminate | exact Hx ].
Qed.

Lemma match_name_complete (n rest : jsstring) :
  css_name n -> stops is_name_char rest -> match_name (n ++ rest) = Some (n, rest).
Proof.
  intros [[c [x [-> [Hc Hx]]]] | [x [-> [Hne Hx]]]] Hrest.
  - cbn. rewrite Hc. now rewrite span_app.
  - unfold match_name. cbn [js app]. change (ch "-") with 45%N.
    replace (is_name_start 45) with false by reflexivity.
    replace (strip_prefix [45; 45]%N (45 :: 45 :: x ++ rest)%N) with (Some (x ++ rest))
      by (symmetry; now apply strip_prefix_some).
    rewrite span_app by assumption.
    destruct x as [| x0 x]; [ contradiction | reflexivity ].
Qed.

Lemma match_end_iff (s : jsstring) :
  match_end s = true <->
  exists w3 w4, s = w3 ++ ch ";" :: w4 /\ all_ws w3 /\ all_ws w4.
Proof.
  unfold match_end, skip_ws. split.
  - destruct (span is_ws s) as [w3 y] eqn:E. cbn [snd].
    destruct y as [| c y]; [ discriminate | ].
    destruct (span is_ws y) as [w4 z] eqn:E'. cbn [snd].
    intros H. apply andb_true_iff in H. destruct H as [Hc Hz].
    apply N.eqb_eq in Hc. subst c. destruct z; [| discriminate ].
    apply span_split in E, E'. destruct E as [-> [H3 _]], E' as [-> [H4 _]].
    exists w3, w4. now rewrite app_nil_r.
  - intros [w3 [w4 [-> [H3 H4]]]].
    rewrite span_app; [ | exact H3 | reflexivity ]. cbn [snd].
    rewrite N.eqb_refl. rewrite <- (app_nil_r w4).
    rewrite span_app; [ reflexivity | exact H4 | exact I ].
Qed.

Lemma match_value_sound (s v : jsstring) :
  match_value s = Some v ->
  exists w3 w4, s = v ++ w3 ++ ch ";" :: w4 /\ all_ws w3 /\ all_ws w4
                /\ v <> [] /\ no_terminator v.
Proof.
  revert v. induction s as [| c s IH]; intros v; cbn [match_value]; [ discriminate | ].
  destruct (is_line_terminator c) eqn:Ec; [ discriminate | ].
  destruct (match_end s) eqn:Ee.
  - intros [= <-]. apply match_end_iff in Ee.
    destruct Ee as [w3 [w4 [-> [H3 H4]]]]. exists w3, w4.
    split; [ reflexivity | ]. split; [ exact H3 | ]. split; [ exact H4 | ].
    split; [ discriminate | ]. unfold no_terminator. cbn [forallb]. now rewrite Ec.
  - destruct (match_value s) as [v' |]; [| discriminate ]. intros [= <-].
    destruct (IH v' eq_refl) as [w3 [w4 [-> [H3 [H4 [_ Hv]]]]]].
    exists w3, w4. split; [ reflexivity | ]. split; [ exact H3 | ].
    split; [ exact H4 | ]. split; [ discriminate | ].
    unfold no_terminator in *. cbn [forallb]. now rewrite Ec, Hv.
Qed.

Lemma match_after_colon_sound (s v : jsstring) :
  match_after_colon s = Some v ->
  exists w2 w3 w4, s = w2 ++ v ++ w3 ++ ch ";" :: w4
                   /\ all_ws w2 /\ all_ws w3 /\ all_ws w4
                   /\ v <> [] /\ no_terminator v.
Proof.
  revert v. induction s as [| c s IH]; intros v; cbn [match_after_colon];
    [ discriminate | ].
  assert (Hv : match_value (c :: s) = Some v ->
               exists w2 w3 w4, c :: s = w2 ++ v ++ w3 ++ ch ";" :: w4
                   /\ all_ws w2 /\ all_ws w3 /\ all_ws w4
                   /\ v <> [] /\ no_terminator v).
  { intros H. apply match_value_sound in H.
    destruct H as [w3 [w4 [E [H3 [H4 [Hne Hn]]]]]].
    exists [], w3, w4. now rewrite E. }
  destruct (is_ws c) eqn:Ec; [| exact Hv ].
  destruct (match_after_colon s) as [v' |] eqn:Em; [| exact Hv ].
  intros [= <-]. destruct (IH v' eq_refl) as [w2 [w3 [w4 [-> [H2 [H3 [H4 [Hne Hn]]]]]]]].
  exists (c :: w2), w3, w4. split; [ reflexivity | ].
  split; [ unfold all_ws in *; cbn; now rewrite Ec | ]. tauto.
Qed.

(** The lazy group finds a value whenever there is one. *)
Lemma match_value_some (v w3 w4 : jsstring) :
  v <> [] -> no_terminator v -> all_ws w3 -> all_ws w4 ->
  exists v', match_value (v ++ w3 ++ ch ";" :: w4) = Some v'.
Proof.
  intros Hne Hn H3 H4. induction v as [| c v IH]; [ contradiction | ].
  unfold no_terminator in Hn. cbn [forallb] in Hn. apply andb_true_iff in Hn.
  destruct Hn as [Hc Hn]. apply negb_true_iff in Hc.
  cbn [app match_value]. rewrite Hc.
  destruct (match_end (v ++ w3 ++ ch ";" :: w4)) eqn:Ee; [ eauto | ].
  destruct v as [| c' v].
  - cbn [app] in Ee. assert (E : match_end (w3 ++ ch ";" :: w4) = true)
      by (apply match_end_iff; now exists w3, w4).
    congruence.
  - destruct (IH ltac:(discriminate) Hn) as [v' ->]. eauto.
Qed.

Lemma match_after_colon_value (s v : jsstring) :
  match_value s = Some v -> exists v', match_after_colon s = Some v'.
Proof.
  destruct s as [| c s]; [ discriminate | ]. intros H.
  cbn [match_after_colon]. destruct (is_ws c); [| eauto ].
  destruct (match_after_colon s); eauto.
Qed.

Lemma match_after_colon_some (w2 v w3 w4 : jsstring) :
  all_ws w2 -> v <> [] -> no_terminator v -> all_ws w3 -> all_ws w4 ->
  exists v', match_after_colon (w2 ++ v ++ w3 ++ ch ";" :: w4) = Some v'.
Proof.
  intros H2 Hne Hn H3 H4. induction w2 as [| c w2 IH].
  - destruct (match_value_some v w3 w4 Hne Hn H3 H4) as [v' E].
    now apply match_after_colon_value in E.
  - unfold all_ws in H2. cbn in H2. apply andb_true_iff in H2.
    destruct H2 as [Hc H2]. destruct (IH H2) as [v' E].
    cbn [app match_after_colon]. rewrite Hc, E. eauto.
Qed.

Lemma match_end_false (y w3 w4 : jsstring) (d : N) :
  is_ws d = false -> all_ws w3 -> all_ws w4 ->
  match_end ((y ++ [d]) ++ w3 ++ ch ";" :: w4) = false.
Proof.
  intros Hd H3 H4.
  destruct (match_end _) eqn:E; [| reflexivity ]. exfalso.
  apply match_end_iff in E. destruct E as [u3 [u4 [E [Hu3 Hu4]]]].
  rewrite app_assoc in E.
  apply last_mark_unique in E; try assumption; try reflexivity.
  destruct E as [E _].
  assert (Hin : In d u3).
  { rewrite <- E. rewrite <- app_assoc. apply in_or_app. right.
    apply in_or_app. left. now left. }
  unfold all_ws in Hu3. rewrite forallb_forall in Hu3.
  specialize (Hu3 d Hin). congruence.
Qed.

Lemma trimmed_last (v : jsstring) :
  v <> [] -> trimmed v -> exists y d, v = y ++ [d] /\ is_ws d = false.
Proof.
  intros Hne [-> | [c [mid [d [[-> | ->] [Hc Hd]]]]]]; [ contradiction | | ].
  - now exists [], c.
  - now exists (c :: mid), d.
Qed.

Lemma trimmed_first (v : jsstring) : trimmed v -> stops is_ws v.
Proof.
  intros [-> | [c [mid [d [[-> | ->] [Hc Hd]]]]]]; [ exact I | exact Hc | exact Hc ].
Qed.

(** When the value is trimmed, the lazy group is the value. *)
Lemma match_value_trimmed (v w3 w4 : jsstring) :
  v <> [] -> trimmed v -> no_terminator v -> all_ws w3 -> all_ws w4 ->
  match_value (v ++ w3 ++ ch ";" :: w4) = Some v.
Proof.
  intros Hne Ht Hn H3 H4.
  destruct (trimmed_last v Hne Ht) as [y [d [-> Hd]]]. clear Hne Ht.
  induction y as [| c y IH].
  - unfold no_terminator in Hn. cbn [app forallb] in Hn. rewrite andb_true_r in Hn.
    apply negb_true_iff in Hn. cbn [app match_value]. rewrite Hn.
    replace (match_end (w3 ++ ch ";" :: w4)) with true; [ reflexivity | ].
    symmetry. apply match_end_iff. now exists w3, w4.
  - unfold no_terminator in Hn. cbn [app forallb] in Hn.
    apply andb_true_iff in Hn. destruct Hn as [Hc Hn].
    apply negb_true_iff in Hc.
    change ((c :: y) ++ [d]) with (c :: (y ++ [d])).
    cbn [app match_value]. rewrite Hc.
    rewrite match_end_false by assumption.
    now rewrite (IH Hn).
Qed.

Lemma match_after_colon_trimmed (w2 v w3 w4 : jsstring) :
  all_ws w2 -> v <> [] -> trimmed v -> no_terminator v ->
  all_ws w3 -> all_ws w4 ->
  match_after_colon (w2 ++ v ++ w3 ++ ch ";" :: w4) = Some v.
Proof.
  intros H2 Hne Ht Hn H3 H4.
  pose proof (match_value_trimmed v w3 w4 Hne Ht Hn H3 H4) as E.
  induction w2 as [| c w2 IH].
  - cbn [app]. destruct v as [| c v]; [ contradiction | ].
    cbn [app match_after_colon].
    apply trimmed_first in Ht. cbn in Ht. rewrite Ht. exact E.
  - unfold all_ws in H2. cbn in H2. apply andb_true_iff in H2.
    destruct H2 as [Hc H2].
    cbn [app match_after_colon]. rewrite Hc. now rewrite (IH H2).
Qed.

Lemma exec_sound (raw n v : jsstring) :
  CSS_PATTERN_exec raw = Some (n, v) ->
  exists w0 w1 w2 w3 w4,
    raw = declaration_text w0 n w1 w2 v w3 w4
    /\ Forall all_ws [w0; w1; w2; w3; w4]
    /\ css_name n /\ v <> [] /\ no_terminator v.
Proof.
  unfold CSS_PATTERN_exec, skip_ws.
  destruct (span is_ws raw) as [w0 s0] eqn:E0. cbn [snd].
  destruct (match_name s0) as [[n' s1] |] eqn:En; [| discriminate ].
  destruct (span is_ws s1) as [w1 s2] eqn:E1. cbn [snd].
  destruct (expect (ch ":") s2) as [s3 |] eqn:Ec; [| discriminate ].
  destruct (match_after_colon s3) as [v' |] eqn:Ev; [| discriminate ].
  intros [= <- <-].
  apply span_split in E0, E1. destruct E0 as [-> [H0 _]], E1 as [-> [H1 _]].
  apply match_name_sound in En. destruct En as [-> [Hn _]].
  apply expect_some in Ec. subst s2.
  apply match_after_colon_sound in Ev.
  destruct Ev as [w2 [w3 [w4 [-> [H2 [H3 [H4 [Hne Hnt]]]]]]]].
  exists w0, w1, w2, w3, w4. split; [ reflexivity | ].
  split; [ repeat (apply Forall_cons; [ assumption | ]); apply Forall_nil | ].
  tauto.
Qed.

Lemma stops_name_after (w rest : jsstring) :
  all_ws w -> stops is_name_char (w ++ ch ":" :: rest).
Proof.
  intros Hw. destruct w as [| c w]; cbn; [ reflexivity | ].
  unfold all_ws in Hw. cbn in Hw. apply andb_true_iff in Hw.
  destruct Hw as [Hc _].
  destruct (is_name_char c) eqn:E; [| reflexivity ].
  apply name_char_not_ws in E. congruence.
Qed.

(** Up to the colon. *)
Lemma exec_head (w0 n w1 rest : jsstring) :
  all_ws w0 -> css_name n -> all_ws w1 ->
  CSS_PATTERN_exec (w0 ++ n ++ w1 ++ ch ":" :: rest)
  = match match_after_colon rest with
    | Some v => Some (n, v)
    | None => None
    end.
Proof.
  intros H0 Hn H1. unfold CSS_PATTERN_exec, skip_ws.
  rewrite span_app; [ | exact H0 | ].
  2:{ pose proof (css_name_no_ws n Hn) as Hf.
      destruct Hn as [[c [x [-> _]]] | [x [-> _]]]; cbn;
        inversion Hf; subst; assumption. }
  cbn [snd]. rewrite match_name_complete; [ | exact Hn | now apply stops_name_after ].
  rewrite span_app; [ | exact H1 | reflexivity ]. cbn [snd].
  unfold expect. rewrite N.eqb_refl. reflexivity.
Qed.

Lemma exec_complete (w0 n w1 w2 v w3 w4 : jsstring) :
  Forall all_ws [w0; w1; w2; w3; w4] -> css_name n -> v <> [] ->
  no_terminator v ->
  exists v', CSS_PATTERN_exec (declaration_text w0 n w1 w2 v w3 w4) = Some (n, v')
             /\ trim v' = trim v.
Proof.
  intros Hw Hn Hne Hnt.
  inversion Hw as [| ? ? H0 Hw1]; subst. inversion Hw1 as [| ? ? H1 Hw2]; subst.
  inversion Hw2 as [| ? ? H2 Hw3]; subst. inversion Hw3 as [| ? ? H3 Hw4]; subst.
  inversion Hw4 as [| ? ? H4 _]; subst.
  unfold declaration_text. rewrite exec_head by assumption.
  destruct (match_after_colon_some w2 v w3 w4 H2 Hne Hnt H3 H4) as [v' E].
  rewrite E. exists v'. split; [ reflexivity | ].
  apply match_after_colon_sound in E.
  destruct E as [u2 [u3 [u4 [E [Hu2 [Hu3 [Hu4 _]]]]]]].
  assert (E' : (w2 ++ v ++ w3) ++ ch ";" :: w4 = (u2 ++ v' ++ u3) ++ ch ";" :: u4)
    by now rewrite <- !app_assoc.
  apply last_mark_unique in E'; try assumption; try reflexivity.
  destruct E' as [E' _].
  rewrite <- (trim_pad u2 v' u3), <- E' by assumption.
  now apply trim_pad.
Qed.

(** [CSS_PATTERN] accepts exactly the lines that are a declaration
    text: white space, a property name (a letter or underscore followed
    by word characters and dashes, or two dashes followed by at least one
    of these), white space, a colon, white space, a non-empty value
    without line terminators, white space, a semicolon and white space to
    the end of the line.  The first group is the name, and the second
    group is, once trimmed, the trimmed value. *)
Theorem css_pattern_shape (raw n t : jsstring) :
  (exists v', CSS_PATTERN_exec raw = Some (n, v') /\ trim v' = t)
  <-> (exists w0 w1 w2 v w3 w4,
         raw = declaration_text w0 n w1 w2 v w3 w4
         /\ Forall all_ws [w0; w1; w2; w3; w4]
         /\ css_name n /\ v <> [] /\ no_terminator v /\ trim v = t).
Proof.
  split.
  - intros [v' [E Et]]. apply exec_sound in E.
    destruct E as [w0 [w1 [w2 [w3 [w4 [E [Hw [Hn [Hne Hnt]]]]]]]]].
    exists w0, w1, w2, v', w3, w4. tauto.
  - intros [w0 [w1 [w2 [v [w3 [w4 [-> [Hw [Hn [Hne [Hnt Et]]]]]]]]]]].
    destruct (exec_complete w0 n w1 w2 v w3 w4 Hw Hn Hne Hnt) as [v' [E Ev]].
    exists v'. split; [ exact E | congruence ].
Qed.

(* ================================================================== *)
(** ** The declarations of a text *)

(** What a line declares: the trimmed groups of the pattern. *)
Definition declaration (raw : jsstring) : option (jsstring * jsstring) :=
  match CSS_PATTERN_exec raw with
  | Some (name, value) => Some (trim name, trim value)
  | None => None
  end.

Definition blank (raw : jsstring) : bool :=
  match trim raw with [] => true | _ :: _ => false end.

(** The declarations of a text, line by line. *)
Definition declarations (content : jsstring) : list (jsstring * jsstring) :=
  flat_map (fun raw => match declaration raw with Some d => [d] | None => [] end)
    (split_lines content).

Definition assign (o : Obj.t jsstring) (d : jsstring * jsstring) : Obj.t jsstring :=
  Obj.set o (fst d) (snd d).

(** The trimmed text of a line the pattern accepts. *)
Lemma declaration_line (raw n v : jsstring) :
  CSS_PATTERN_exec raw = Some (n, v) ->
  exists c mid, trim raw = c :: mid ++ [ch ";"] /\ is_name_char c = true.
Proof.
  intros E. apply exec_sound in E.
  destruct E as [w0 [w1 [w2 [w3 [w4 [-> [Hw [Hn [Hne Hnt]]]]]]]]].
  inversion Hw as [| ? ? H0 Hw1]; subst. inversion Hw1 as [| ? ? H1 Hw2]; subst.
  inversion Hw2 as [| ? ? H2 Hw3]; subst. inversion Hw3 as [| ? ? H3 Hw4]; subst.
  inversion Hw4 as [| ? ? H4 _]; subst.
  destruct (css_name_chars n Hn) as [Hnn Hch].
  destruct n as [| c n]; [ contradiction | ].
  cbn in Hch. apply andb_true_iff in Hch. destruct Hch as [Hc _].
  exists c, (n ++ w1 ++ ch ":" :: w2 ++ v ++ w3). split; [| exact Hc ].
  unfold declaration_text.
  replace (w0 ++ (c :: n) ++ w1 ++ ch ":" :: w2 ++ v ++ w3 ++ ch ";" :: w4)
    with (w0 ++ (c :: (n ++ w1 ++ ch ":" :: w2 ++ v ++ w3) ++ [ch ";"]) ++ w4).
  2:{ cbn [app]. rewrite <- !app_assoc. cbn [app]. now rewrite <- !app_assoc. }
  rewrite trim_pad by assumption.
  apply trimmed_trim. right.
  exists c, (n ++ w1 ++ ch ":" :: w2 ++ v ++ w3), (ch ";").
  split; [ now right | ]. split; [ now apply name_char_not_ws | reflexivity ].
Qed.

Lemma name_char_marks (c : N) :
  is_name_char c = true ->
  c <> ch "{" /\ c <> ch "}" /\ c <> ch "." /\ c <> ch "/" /\ c <> ch "*".
Proof.
  unfold is_name_char, is_word, is_digit, is_upper, is_lower.
  change (ch "_") with 95%N. change (ch "-") with 45%N.
  change (ch "{") with 123%N. change (ch "}") with 125%N.
  change (ch ".") with 46%N. change (ch "/") with 47%N.
  change (ch "*") with 42%N.
  intros H. b2p; lia.
Qed.

(** The tolerance rules of the loop (lines 41-43) only pass over lines
    the pattern rejects. *)
Lemma step_plain (acc : Parsed) (raw : jsstring) :
  step acc raw
  = if blank raw then acc
    else match declaration raw with
         | Some d => {| vars := assign (vars acc) d; skipped := skipped acc |}
         | None => {| vars := vars acc; skipped := skipped acc + 1 |}
         end.
Proof.
  unfold step, blank, declaration, assign.
  destruct (CSS_PATTERN_exec raw) as [[n v] |] eqn:E.
  - destruct (declaration_line raw n v E) as [c [mid [-> Hc]]].
    destruct (name_char_marks c Hc) as [M1 [M2 [M3 [M4 M5]]]].
    cbn [fst snd].
    replace (JsString.eqb (c :: mid ++ [ch ";"]) (js "{")) with false
      by (symmetry; apply eqb_neq; intros [= ? ?]; contradiction).
    replace (JsString.eqb (c :: mid ++ [ch ";"]) (js "}")) with false
      by (symmetry; apply eqb_neq; intros [= ? ?]; contradiction).
    unfold endsWith. change (rev (js "{")) with [ch "{"].
    change (c :: mid ++ [ch ";"]) with ((c :: mid) ++ [ch ";"]) at 1.
    rewrite rev_app_distr. cbn [rev app startsWith js].
    replace (ch "{" =? ch ";")%N with false by reflexivity.
    replace (ch "." =? c)%N with false by (symmetry; apply N.eqb_neq; congruence).
    replace (ch "/" =? c)%N with false by (symmetry; apply N.eqb_neq; congruence).
    replace (ch "*" =? c)%N with false by (symmetry; apply N.eqb_neq; congruence).
    reflexivity.
  - destruct (trim raw) as [| c line]; [ reflexivity | ].
    repeat match goal with |- context [if ?b then _ else _] => destruct b end;
      reflexivity.
Qed.

Lemma fold_step (lines : list jsstring) (acc : Parsed) :
  fold_left step lines acc
  = {| vars :=
         fold_left assign
           (flat_map (fun raw => match declaration raw with
                                 | Some d => [d] | None => [] end) lines)
           (vars acc);
       skipped :=
         skipped acc
         + Z.of_nat (length (filter (fun raw => negb (blank raw)
                                       && match declaration raw with
                                          | Some _ => false | None => true end)
                               lines)) |}.
Proof.
  revert acc. induction lines as [| raw lines IH]; intros [o k].
  - cbn. now rewrite Z.add_0_r.
  - cbn [fold_left flat_map filter]. rewrite step_plain, IH.
    assert (Hb : blank raw = true -> declaration raw = None).
    { unfold blank, declaration. intros Hb.
      destruct (CSS_PATTERN_exec raw) as [[n v] |] eqn:E; [| reflexivity ].
      destruct (declaration_line raw n v E) as [c [mid [Et _]]].
      rewrite Et in Hb. discriminate. }
    destruct (blank raw) eqn:Eb.
    + rewrite (Hb eq_refl). reflexivity.
    + destruct (declaration raw) as [d |]; cbn [vars skipped negb andb app length].
      * cbn [fold_left]. reflexivity.
      * f_equal. lia.
Qed.

(** The reader's result is what the lines matching the pattern
    declare, assigned in order, and [skipped] counts the lines that are
    neither blank nor matched: the tolerance rules for braces, selectors
    and comments never pass over a declaration, they only count lines
    that the pattern rejects as well. *)
Theorem css_reader_result (content : jsstring) :
  parseCssDeclarations content
  = {| vars := fold_left assign (declarations content) [];
       skipped :=
         Z.of_nat (length (filter (fun raw => negb (blank raw)
                                     && match declaration raw with
                                        | Some _ => false | None => true end)
                             (split_lines content))) |}.
Proof.
  unfold parseCssDeclarations, declarations. now rewrite fold_step.
Qed.

(* ================================================================== *)
(** ** The variable map of a text *)

Section AssignFacts.
Variable V : Type.
Implicit Types (o : Obj.t V) (k : jsstring) (v : V).

Lemma define_keys o k v :
  Obj.keys (Obj.define o k v)
  = if existsb (JsString.eqb k) (Obj.keys o) then Obj.keys o
    else Obj.keys o ++ [k].
Proof.
  induction o as [| [k' v'] o IH]; cbn; [ reflexivity | ].
  destruct (JsString.eqb k' k) eqn:E.
  - apply eqb_eq in E. subst k'. cbn.
    replace (JsString.eqb k k) with true by (symmetry; now apply eqb_eq).
    reflexivity.
  - cbn. unfold Obj.keys in IH. rewrite IH.
    replace (JsString.eqb k k') with false.
    2:{ symmetry. apply eqb_neq. apply eqb_neq in E. congruence. }
    cbn. now destruct (existsb _ _).
Qed.

Lemma set_keys_nodup o k v :
  NoDup (Obj.keys o) -> NoDup (Obj.keys (Obj.set o k v)).
Proof.
  intros H. unfold Obj.set.
  destruct (JsString.eqb k (js "__proto__")); [ exact H | ].
  rewrite define_keys.
  destruct (existsb (JsString.eqb k) (Obj.keys o)) eqn:E; [ exact H | ].
  apply NoDup_app; [ exact H | repeat constructor; intros [] | ].
  intros x Hx [<- | []].
  apply existsb_eqb_in in Hx. congruence.
Qed.

(** An entry of the object after an assignment: the one assigned, or one
    there was. *)
Lemma in_set o k v k' v' :
  In (k', v') (Obj.set o k v) ->
  (k' = k /\ v' = v /\ JsString.eqb k (js "__proto__") = false)
  \/ In (k', v') o.
Proof.
  unfold Obj.set. destruct (JsString.eqb k (js "__proto__")); [ now right | ].
  induction o as [| [k0 v0] o IH]; cbn.
  - intros [[= <- <-] | []]. now left.
  - destruct (JsString.eqb k0 k) eqn:E; cbn.
    + apply eqb_eq in E. subst k0. intros [[= <- <-] | H]; [ now left | ].
      right. now right.
    + intros [H | H]; [ right; now left | ].
      destruct (IH H) as [H' | H']; [ now left | right; now right ].
Qed.

End AssignFacts.

Lemma find_last (A : Type) (f : A -> bool) (l : list A) (x : A) :
  find f (rev (x :: l))
  = match find f (rev l) with
    | Some y => Some y
    | None => if f x then Some x else None
    end.
Proof.
  cbn [rev]. induction (rev l) as [| y r IH]; cbn; [ reflexivity | ].
  destruct (f y); [ reflexivity | exact IH ].
Qed.

(** The value at a key after a run of assignments: that of the last
    assignment to the key. *)
Lemma get_fold_assign (ds : list (jsstring * jsstring)) (o : Obj.t jsstring)
    (k : jsstring) :
  k <> js "__proto__" ->
  Obj.get (fold_left assign ds o) k
  = match find (fun d => JsString.eqb (fst d) k) (rev ds) with
    | Some d => Some (snd d)
    | None => Obj.get o k
    end.
Proof.
  intros Hk. revert o. induction ds as [| d ds IH]; intros o; [ reflexivity | ].
  cbn [fold_left]. rewrite IH, find_last.
  destruct (find _ (rev ds)); [ reflexivity | ].
  unfold assign. destruct (JsString.eqb (fst d) k) eqn:E.
  - apply eqb_eq in E. rewrite E. apply get_set_same. now apply eqb_neq.
  - apply get_set_other. apply eqb_neq in E. congruence.
Qed.

Lemma fold_assign_nodup (ds : list (jsstring * jsstring)) (o : Obj.t jsstring) :
  NoDup (Obj.keys o) -> NoDup (Obj.keys (fold_left assign ds o)).
Proof.
  revert o. induction ds as [| d ds IH]; intros o H; [ exact H | ].
  cbn [fold_left]. apply IH. now apply set_keys_nodup.
Qed.

Lemma fold_assign_in (ds : list (jsstring * jsstring)) (o : Obj.t jsstring)
    (k v : jsstring) :
  In (k, v) (fold_left assign ds o) ->
  (In (k, v) ds /\ k <> js "__proto__") \/ In (k, v) o.
Proof.
  revert o. induction ds as [| d ds IH]; intros o; [ now right | ].
  cbn [fold_left]. intros H. destruct (IH _ H) as [[H1 H2] | H'].
  - left. split; [ now right | exact H2 ].
  - unfold assign in H'. apply in_set in H'.
    destruct H' as [[E1 [E2 E3]] | H']; [| now right ].
    left. split; [ left; destruct d; cbn in *; congruence | ].
    apply eqb_neq in E3. congruence.
Qed.

Lemma declaration_some (raw k v : jsstring) :
  declaration raw = Some (k, v) ->
  css_name k /\ trimmed v /\ no_terminator v.
Proof.
  unfold declaration.
  destruct (CSS_PATTERN_exec raw) as [[n v0] |] eqn:E; [| discriminate ].
  intros [= <- <-]. apply exec_sound in E.
  destruct E as [w0 [w1 [w2 [w3 [w4 [_ [_ [Hn [_ Hnt]]]]]]]]].
  rewrite (trim_no_ws n) by now apply css_name_no_ws.
  split; [ exact Hn | ].
  destruct (trim_split v0) as [u [u' [E [_ [_ Ht]]]]].
  split; [ exact Ht | ].
  unfold no_terminator in *. rewrite E in Hnt.
  rewrite !forallb_app in Hnt.
  apply andb_true_iff in Hnt. destruct Hnt as [_ Hnt].
  apply andb_true_iff in Hnt. tauto.
Qed.

Lemma declarations_in (content k v : jsstring) :
  In (k, v) (declarations content) ->
  css_name k /\ trimmed v /\ no_terminator v.
Proof.
  unfold declarations. rewrite in_flat_map. intros [raw [_ H]].
  destruct (declaration raw) as [d |] eqn:E; [| destruct H ].
  destruct H as [-> | []]. now apply declaration_some in E.
Qed.

Lemma reader_vars (content : jsstring) :
  vars (parseCssDeclarations content) = fold_left assign (declarations content) [].
Proof. unfold parseCssDeclarations, declarations. now rewrite fold_step. Qed.

(** The variable map the reader returns: no name occurs twice; every
    name is a property name of the pattern (letters, digits, underscores
    and dashes only) other than [__proto__]; every value is trimmed and
    holds no line terminator. *)
Theorem css_reader_invariant (content : jsstring) :
  NoDup (Obj.keys (vars (parseCssDeclarations content)))
  /\ forall k v,
       In (k, v) (vars (parseCssDeclarations content)) ->
       css_name k /\ k <> js "__proto__" /\ trim k = k
       /\ trimmed v /\ no_terminator v.
Proof.
  rewrite reader_vars. split.
  - apply fold_assign_nodup. constructor.
  - intros k v H. apply fold_assign_in in H.
    destruct H as [[H Hk] | []].
    apply declarations_in in H. destruct H as [Hn [Ht Hnt]].
    split; [ exact Hn | ]. split; [ exact Hk | ].
    split; [ apply trim_no_ws; now apply css_name_no_ws | ]. tauto.
Qed.

(** A later declaration of a name replaces the value of an earlier
    one: the map holds at a name the value of the last line of the text
    that declares it, and nothing at a name no line declares.  A
    declaration of [__proto__] is lost. *)
Theorem css_last_declaration_wins (content k : jsstring) :
  Obj.get (vars (parseCssDeclarations content)) k
  = if JsString.eqb k (js "__proto__") then None
    else option_map snd
           (find (fun d => JsString.eqb (fst d) k) (rev (declarations content))).
Proof.
  destruct (JsString.eqb k (js "__proto__")) eqn:Ek.
  - apply eqb_eq in Ek. subst k.
    destruct (Obj.get _ _) as [v |] eqn:E; [| reflexivity ].
    apply get_some_in in E. rewrite reader_vars in E.
    apply fold_assign_in in E. destruct E as [[_ E] | []]. contradiction.
  - apply eqb_neq in Ek. rewrite reader_vars.
    rewrite get_fold_assign by exact Ek.
    now destruct (find _ _).
Qed.

(* ================================================================== *)
(** ** Writing declarations and reading them back *)

(** A declaration as a line of text, and a list of declarations as a
    text with one line each. *)
Definition declaration_line_of (d : jsstring * jsstring) : jsstring :=
  fst d ++ js ": " ++ snd d ++ js ";".

Definition declarations_text (ds : list (jsstring * jsstring)) : jsstring :=
  join [10%N] (map declaration_line_of ds).

(** What the reader gives back unchanged: a property name and a value
    that is not empty, is trimmed and has no line terminator. *)
Definition writable (d : jsstring * jsstring) : Prop :=
  css_name (fst d) /\ fst d <> js "__proto__"
  /\ snd d <> [] /\ trimmed (snd d) /\ no_terminator (snd d).

Lemma split_lines_app (s rest : jsstring) :
  no_terminator s -> split_lines (s ++ 10%N :: rest) = s :: split_lines rest.
Proof.
  unfold no_terminator. induction s as [| c s IH]; intros H.
  - reflexivity.
  - cbn [forallb] in H. apply andb_true_iff in H. destruct H as [Hc H].
    cbn [app split_lines]. rewrite (IH H).
    unfold is_line_terminator in Hc. cbn [existsb] in Hc.
    apply negb_true_iff in Hc.
    apply orb_false_iff in Hc. destruct Hc as [H10 Hc].
    apply orb_false_iff in Hc. destruct Hc as [H13 _].
    now rewrite H10, H13.
Qed.

Lemma split_lines_plain (s : jsstring) : no_terminator s -> split_lines s = [s].
Proof.
  unfold no_terminator. induction s as [| c s IH]; intros H.
  - reflexivity.
  - cbn [forallb] in H. apply andb_true_iff in H. destruct H as [Hc H].
    cbn [split_lines]. rewrite (IH H).
    unfold is_line_terminator in Hc. cbn [existsb] in Hc.
    apply negb_true_iff in Hc.
    apply orb_false_iff in Hc. destruct Hc as [H10 Hc].
    apply orb_false_iff in Hc. destruct Hc as [H13 _].
    now rewrite H10, H13.
Qed.

Lemma split_lines_join (lines : list jsstring) :
  lines <> [] -> Forall no_terminator lines ->
  split_lines (join [10%N] lines) = lines.
Proof.
  induction lines as [| p lines IH]; [ contradiction | ]. intros _ H.
  inversion H as [| ? ? Hp Hrest]; subst.
  destruct lines as [| q lines].
  - now apply split_lines_plain.
  - change (join [10%N] (p :: q :: lines))
      with (p ++ 10%N :: join [10%N] (q :: lines)).
    rewrite split_lines_app by exact Hp. f_equal.
    apply IH; [ discriminate | exact Hrest ].
Qed.

Lemma name_char_no_terminator (c : N) :
  is_name_char c = true -> is_line_terminator c = false.
Proof.
  unfold is_name_char, is_word, is_digit, is_upper, is_lower, is_line_terminator.
  change (ch "_") with 95%N. change (ch "-") with 45%N.
  cbn [existsb]. intros H.
  destruct (_ || _)%bool eqn:E at 1; [| reflexivity ].
  exfalso. b2p; lia.
Qed.

Lemma line_no_terminator (d : jsstring * jsstring) :
  writable d -> no_terminator (declaration_line_of d).
Proof.
  intros [Hn [_ [_ [_ Hv]]]]. unfold no_terminator, declaration_line_of in *.
  rewrite !forallb_app. rewrite Hv.
  apply css_name_chars in Hn. destruct Hn as [_ Hn].
  replace (forallb (fun c => negb (is_line_terminator c)) (fst d)) with true;
    [ reflexivity | ].
  symmetry. apply forallb_forall. intros c Hc. apply negb_true_iff.
  apply name_char_no_terminator. rewrite forallb_forall in Hn. now apply Hn.
Qed.

Lemma declaration_of_line (d : jsstring * jsstring) :
  writable d -> declaration (declaration_line_of d) = Some d.
Proof.
  intros [Hn [_ [Hne [Ht Hv]]]]. destruct d as [n v]. cbn [fst snd] in *.
  unfold declaration, declaration_line_of. cbn [fst snd].
  change (n ++ js ": " ++ v ++ js ";")
    with ([] ++ n ++ [] ++ ch ":" :: ([32%N] ++ v ++ [] ++ ch ";" :: [])).
  rewrite exec_head; [ | reflexivity | exact Hn | reflexivity ].
  rewrite match_after_colon_trimmed; try assumption; try reflexivity.
  rewrite (trim_no_ws n) by now apply css_name_no_ws.
  now rewrite (trimmed_trim v Ht).
Qed.

Lemma fold_assign_fresh (ds : list (jsstring * jsstring)) (o : Obj.t jsstring) :
  NoDup (map fst ds) ->
  (forall d, In d ds -> fst d <> js "__proto__" /\ ~ In (fst d) (Obj.keys o)) ->
  fold_left assign ds o = o ++ ds.
Proof.
  revert o. induction ds as [| d ds IH]; intros o Hnd H.
  - cbn. now rewrite app_nil_r.
  - cbn [fold_left]. cbn [map] in Hnd. inversion Hnd as [| ? ? Hd Hrest]; subst.
    destruct (H d (or_introl eq_refl)) as [Hp Hfresh].
    unfold assign at 2. rewrite set_fresh; [ | now apply eqb_neq | exact Hfresh ].
    rewrite IH; [ | exact Hrest | ].
    + rewrite <- app_assoc. now destruct d.
    + intros d' Hd'. destruct (H d' (or_intror Hd')) as [Hp' Hf'].
      split; [ exact Hp' | ].
      unfold Obj.keys. rewrite map_app, in_app_iff. cbn.
      intros [Hin | [E | []]]; [ now apply Hf' | ].
      apply Hd. rewrite E. now apply in_map.
Qed.

(** Reading back what was written: a list of declarations with
    distinct property names other than [__proto__] and with values that
    are not empty, are trimmed and hold no line terminator, written one
    per line as [name: value;], is read as this very list, in order, with
    nothing skipped. *)
Theorem css_write_read (ds : list (jsstring * jsstring)) :
  Forall writable ds -> NoDup (map fst ds) ->
  parseCssDeclarations (declarations_text ds) = {| vars := ds; skipped := 0 |}.
Proof.
  intros Hw Hnd. unfold parseCssDeclarations, declarations_text.
  destruct ds as [| d0 ds0]; [ reflexivity | ].
  set (ds := d0 :: ds0) in *.
  rewrite split_lines_join.
  2:{ discriminate. }
  2:{ apply Forall_forall. intros l Hl. apply in_map_iff in Hl.
      destruct Hl as [d [<- Hd]]. apply line_no_terminator.
      rewrite Forall_forall in Hw. now apply Hw. }
  rewrite fold_step. cbn [vars skipped].
  assert (E1 : flat_map (fun raw => match declaration raw with
                                    | Some d => [d] | None => [] end)
                 (map declaration_line_of ds) = ds).
  { clearbody ds. clear Hnd. induction Hw as [| d l Hd Hl IH]; [ reflexivity | ].
    cbn [map flat_map]. rewrite (declaration_of_line d Hd), IH. reflexivity. }
  assert (E2 : filter (fun raw => negb (blank raw)
                                  && match declaration raw with
                                     | Some _ => false | None => true end)
                 (map declaration_line_of ds) = []).
  { clearbody ds. clear Hnd E1. induction Hw as [| d l Hd Hl IH]; [ reflexivity | ].
    cbn [map filter]. rewrite (declaration_of_line d Hd), IH.
    now rewrite andb_false_r. }
  rewrite E1, E2. f_equal.
  rewrite fold_assign_fresh; [ reflexivity | exact Hnd | ].
  intros d Hd. rewrite Forall_forall in Hw. destruct (Hw d Hd) as [_ [Hp _]].
  split; [ exact Hp | intros [] ].
Qed.

Lemma css_write_read_witness :
  parseCssDeclarations
    (declarations_text
       [(js "--vscode-foreground", js "#cccccc");
        (js "--vscode-editor-background", js "rgb(30, 30, 30)")])
  = {| vars := [(js "--vscode-foreground", js "#cccccc");
                (js "--vscode-editor-background", js "rgb(30, 30, 30)")];
       skipped := 0 |}.
Proof.
  apply (css_write_read
           [(js "--vscode-foreground", js "#cccccc");
            (js "--vscode-editor-background", js "rgb(30, 30, 30)")]).
  - repeat (apply Forall_cons || apply Forall_nil);
      (split; [ right; eexists; split; [ reflexivity | split; [ discriminate | reflexivity ] ] | ]);
      (split; [ discriminate | ]); (split; [ discriminate | ]);
      (split; [ apply trimmed_of_trim; reflexivity | reflexivity ]).
  - repeat constructor; cbn; intuition discriminate.
Defined.

(* ================================================================== *)
(** ** From a text to its colour tokens *)

Lemma in_kept (cssVars : list (jsstring * jsstring)) (k : jsstring)
    (tok : Token.ColorToken) :
  In (k, tok) (flat_map kept cssVars)
  <-> exists v c,
        In (k, v) cssVars
        /\ startsWith (js "--vscode-") k = true
        /\ parseColor v = Some c
        /\ tok = makeDtcgColorTokenFromParsedColor c.
Proof.
  rewrite in_flat_map. split.
  - intros [[k' v] [Hkv Hk]]. unfold kept in Hk. cbn [fst snd] in Hk.
    destruct (startsWith (js "--vscode-") k') eqn:Es; [| destruct Hk ].
    destruct (parseColor v) as [c |] eqn:Ec; [| destruct Hk ].
    destruct Hk as [[= <- <-] | []]. now exists v, c.
  - intros [v [c [Hkv [Es [Ec ->]]]]]. exists (k, v). split; [ exact Hkv | ].
    unfold kept. cbn [fst snd]. rewrite Es, Ec. now left.
Qed.

(** From the text to the flat token set: a variable has a token
    exactly when its name starts with [--vscode-] and the value of the
    last line declaring it is a colour, and the token is made of that
    colour.  An earlier declaration never shows: when the last one is no
    colour the variable has no token. *)
Theorem css_text_tokens (content k : jsstring) (tok : Token.ColorToken) :
  Obj.get (flattenCssVarsToColorTokens (vars (parseCssDeclarations content))) k
  = Some tok
  <-> startsWith (js "--vscode-") k = true
      /\ exists d c,
           find (fun d => JsString.eqb (fst d) k) (rev (declarations content))
           = Some d
           /\ parseColor (snd d) = Some c
           /\ tok = makeDtcgColorTokenFromParsedColor c.
Proof.
  assert (Hnd : NoDup (map fst (vars (parseCssDeclarations content)))).
  { rewrite reader_vars. apply (fold_assign_nodup _ []). constructor. }
  rewrite (flatten_kept _ Hnd).
  assert (Hget : forall v, startsWith (js "--vscode-") k = true ->
            (In (k, v) (vars (parseCssDeclarations content))
             <-> exists d, find (fun d => JsString.eqb (fst d) k)
                             (rev (declarations content)) = Some d
                           /\ snd d = v)).
  { intros v Hk. apply prefix_not_proto in Hk. apply eqb_neq in Hk.
    pose proof (get_fold_assign (declarations content) [] k Hk) as G.
    rewrite <- reader_vars in G. split.
    - intros Hin. apply in_get_some in Hin; [| exact Hnd ].
      rewrite Hin in G. destruct (find _ _) as [d |]; [| discriminate ].
      exists d. split; [ reflexivity | congruence ].
    - intros [d [Ef <-]]. rewrite Ef in G. now apply get_some_in. }
  split.
  - intros H. apply get_some_in in H. apply in_kept in H.
    destruct H as [v [c [Hin [Hk [Hc ->]]]]]. split; [ exact Hk | ].
    apply (Hget v Hk) in Hin. destruct Hin as [d [Ef <-]].
    now exists d, c.
  - intros [Hk [d [c [Ef [Hc ->]]]]].
    apply in_get_some; [ now apply kept_keys_nodup | ].
    apply in_kept. exists (snd d), c. split; [| tauto ].
    apply (Hget (snd d) Hk). now exists d.
Qed.

(* ================================================================== *)
(** ** Line ends *)

(** Right-nest concatenations. *)
Ltac app_norm :=
  repeat first [ rewrite <- app_assoc | rewrite <- app_comm_cons ].

Lemma declaration_text_tail (w0 n w1 w2 v w3 w4 x : jsstring) :
  declaration_text w0 n w1 w2 v w3 (w4 ++ x)
  = declaration_text w0 n w1 w2 v w3 w4 ++ x.
Proof. unfold declaration_text. app_norm. reflexivity. Qed.

Lemma declaration_text_end (w0 n w1 w2 v w3 : jsstring) :
  declaration_text w0 n w1 w2 v w3 []
  = (w0 ++ n ++ w1 ++ ch ":" :: w2 ++ v ++ w3) ++ [ch ";"].
Proof. unfold declaration_text. app_norm. reflexivity. Qed.

Lemma all_ws_five (w0 w1 w2 w3 w4 w4' : jsstring) :
  Forall all_ws [w0; w1; w2; w3; w4] -> all_ws w4' ->
  Forall all_ws [w0; w1; w2; w3; w4'].
Proof.
  intros Hw H4'.
  inversion Hw as [| ? ? H0 Hw1]; subst. inversion Hw1 as [| ? ? H1 Hw2]; subst.
  inversion Hw2 as [| ? ? H2 Hw3]; subst. inversion Hw3 as [| ? ? H3 Hw4]; subst.
  repeat (apply Forall_cons; [ assumption | ]). apply Forall_nil.
Qed.

Lemma all_ws_last (w0 w1 w2 w3 w4 : jsstring) :
  Forall all_ws [w0; w1; w2; w3; w4] -> all_ws w4.
Proof.
  intros Hw.
  inversion Hw as [| ? ? H0 Hw1]; subst. inversion Hw1 as [| ? ? H1 Hw2]; subst.
  inversion Hw2 as [| ? ? H2 Hw3]; subst. inversion Hw3 as [| ? ? H3 Hw4]; subst.
  now inversion Hw4.
Qed.

(** A carriage return at the end of a line changes nothing. *)
Lemma declaration_cr (raw : jsstring) :
  declaration (raw ++ [13%N]) = declaration raw.
Proof.
  unfold declaration.
  destruct (CSS_PATTERN_exec raw) as [[n v] |] eqn:E.
  - apply exec_sound in E.
    destruct E as [w0 [w1 [w2 [w3 [w4 [-> [Hw [Hn [Hne Hnt]]]]]]]]].
    assert (Hw' : Forall all_ws [w0; w1; w2; w3; w4 ++ [13%N]]).
    { apply (all_ws_five w0 w1 w2 w3 w4); [ exact Hw | ].
      apply all_ws_app; [ now apply (all_ws_last w0 w1 w2 w3) | reflexivity ]. }
    destruct (exec_complete w0 n w1 w2 v w3 (w4 ++ [13%N]) Hw' Hn Hne Hnt)
      as [v' [E' Ev]].
    rewrite <- declaration_text_tail. rewrite E'. now rewrite Ev.
  - destruct (CSS_PATTERN_exec (raw ++ [13%N])) as [[n v] |] eqn:E';
      [| reflexivity ].
    exfalso. apply exec_sound in E'.
    destruct E' as [w0 [w1 [w2 [w3 [w4 [Er [Hw [Hn [Hne Hnt]]]]]]]]].
    destruct (exists_last (l := w4)) as [w4' [c E4]].
    { intros ->. rewrite declaration_text_end in Er.
      apply app_inj_tail in Er. destruct Er as [_ Er]. discriminate Er. }
    subst w4. rewrite declaration_text_tail in Er.
    apply app_inj_tail in Er. destruct Er as [Er _].
    assert (Hw' : Forall all_ws [w0; w1; w2; w3; w4']).
    { apply (all_ws_five w0 w1 w2 w3 (w4' ++ [c])); [ exact Hw | ].
      pose proof (all_ws_last _ _ _ _ _ Hw) as H4. unfold all_ws in *.
      rewrite forallb_app in H4. apply andb_true_iff in H4. tauto. }
    destruct (exec_complete w0 n w1 w2 v w3 w4' Hw' Hn Hne Hnt) as [v' [E' _]].
    rewrite <- Er in E'. congruence.
Qed.

Lemma step_cr (acc : Parsed) (raw : jsstring) :
  CssParser.step acc (raw ++ [13%N]) = CssParser.step acc raw.
Proof.
  rewrite !step_plain. rewrite declaration_cr. unfold blank.
  replace (trim (raw ++ [13%N])) with (trim raw); [ reflexivity | ].
  symmetry. apply (trim_pad [] raw [13%N]); reflexivity.
Qed.

(** A line and the same line without a carriage return at its end. *)
Definition same_line (l l' : jsstring) : Prop := l = l' \/ l = l' ++ [13%N].

Lemma fold_same_lines (ls ls' : list jsstring) (acc : Parsed) :
  Forall2 same_line ls ls' ->
  fold_left CssParser.step ls acc = fold_left CssParser.step ls' acc.
Proof.
  intros H. revert acc. induction H as [| l l' ls ls' Hl _ IH]; intros acc;
    [ reflexivity | ].
  cbn [fold_left]. rewrite IH. f_equal.
  destruct Hl as [-> | ->]; [ reflexivity | apply step_cr ].
Qed.

Lemma split_lines_plain_lf (s : jsstring) : ~ In 10%N s -> split_lines s = [s].
Proof.
  induction s as [| c s IH]; intros H; [ reflexivity | ].
  assert (Hc : (c =? 10)%N = false) by (apply N.eqb_neq; intros ->; apply H; now left).
  assert (Hs : ~ In 10%N s) by (intros Hin; apply H; now right).
  cbn [split_lines]. rewrite Hc, (IH Hs).
  destruct (c =? 13)%N; [| reflexivity ].
  destruct s as [| d s]; [ reflexivity | ].
  replace (d =? 10)%N with false; [ reflexivity | ].
  symmetry. apply N.eqb_neq. intros ->. apply Hs. now left.
Qed.

Lemma split_lines_crlf (s rest : jsstring) :
  ~ In 10%N s ->
  split_lines (s ++ 13%N :: 10%N :: rest) = s :: split_lines rest.
Proof.
  induction s as [| c s IH]; intros H; [ reflexivity | ].
  assert (Hc : (c =? 10)%N = false) by (apply N.eqb_neq; intros ->; apply H; now left).
  assert (Hs : ~ In 10%N s) by (intros Hin; apply H; now right).
  cbn [app split_lines]. rewrite Hc, (IH Hs).
  destruct (c =? 13)%N; [| reflexivity ].
  destruct s as [| d s]; [ reflexivity | ].
  cbn [app]. replace (d =? 10)%N with false; [ reflexivity | ].
  symmetry. apply N.eqb_neq. intros ->. apply Hs. now left.
Qed.

Lemma split_lines_lf (s rest : jsstring) :
  ~ In 10%N s ->
  exists s', same_line s s' /\ split_lines (s ++ 10%N :: rest) = s' :: split_lines rest.
Proof.
  induction s as [| c s IH]; intros H.
  - exists []. split; [ now left | reflexivity ].
  - assert (Hc : (c =? 10)%N = false)
      by (apply N.eqb_neq; intros ->; apply H; now left).
    assert (Hs : ~ In 10%N s) by (intros Hin; apply H; now right).
    destruct (IH Hs) as [s' [Hrel E]].
    cbn [app split_lines]. rewrite Hc, E.
    assert (Hkeep : same_line (c :: s) (c :: s')).
    { destruct Hrel as [-> | ->]; [ now left | now right ]. }
    destruct (N.eqb_spec c 13) as [-> | Hne]; [| now exists (c :: s') ].
    destruct s as [| d s].
    + cbn [app]. exists []. split; [ now right | reflexivity ].
    + cbn [app]. replace (d =? 10)%N with false; [ now exists (13%N :: s') | ].
      symmetry. apply N.eqb_neq. intros ->. apply Hs. now left.
Qed.

Lemma lines_crlf (lines : list jsstring) :
  lines <> [] -> Forall (fun l => ~ In 10%N l) lines ->
  split_lines (join [13; 10]%N lines) = lines.
Proof.
  induction lines as [| p lines IH]; [ contradiction | ]. intros _ H.
  inversion H as [| ? ? Hp Hrest]; subst.
  destruct lines as [| q lines].
  - now apply split_lines_plain_lf.
  - change (join [13; 10]%N (p :: q :: lines))
      with (p ++ 13%N :: 10%N :: join [13; 10]%N (q :: lines)).
    rewrite split_lines_crlf by exact Hp. f_equal.
    apply IH; [ discriminate | exact Hrest ].
Qed.

Lemma lines_lf (lines : list jsstring) :
  lines <> [] -> Forall (fun l => ~ In 10%N l) lines ->
  Forall2 same_line lines (split_lines (join [10%N] lines)).
Proof.
  induction lines as [| p lines IH]; [ contradiction | ]. intros _ H.
  inversion H as [| ? ? Hp Hrest]; subst.
  destruct lines as [| q lines].
  - cbn [join]. rewrite split_lines_plain_lf by exact Hp.
    constructor; [ now left | constructor ].
  - change (join [10%N] (p :: q :: lines))
      with (p ++ 10%N :: join [10%N] (q :: lines)).
    destruct (split_lines_lf p (join [10%N] (q :: lines)) Hp) as [p' [Hrel ->]].
    constructor; [ exact Hrel | ].
    apply IH; [ discriminate | exact Hrest ].
Qed.

(** Line ends: a text with its lines ended by carriage return and
    line feed is read as the same text with its lines ended by line feed
    alone (the same variables, values and skipped count). *)
Theorem css_line_ends (lines : list jsstring) :
  Forall (fun l => ~ In 10%N l) lines ->
  parseCssDeclarations (join [13; 10]%N lines)
  = parseCssDeclarations (join [10%N] lines).
Proof.
  intros H. destruct lines as [| p lines]; [ reflexivity | ].
  unfold parseCssDeclarations.
  rewrite lines_crlf by (discriminate || exact H).
  apply fold_same_lines. apply lines_lf; [ discriminate | exact H ].
Qed.

Lemma css_line_ends_witness :
  parseCssDeclarations
    (js "--vscode-a: #fff;" ++ [13; 10]%N ++ js "--vscode-b: #000;")
  = parseCssDeclarations
      (js "--vscode-a: #fff;" ++ [10]%N ++ js "--vscode-b: #000;").
Proof.
  apply (css_line_ends [js "--vscode-a: #fff;"; js "--vscode-b: #000;"]).
  repeat constructor; cbn; intuition discriminate.
Defined.

(* ================================================================== *)
(** ** The functional form with byte channels *)

(** The decimal numeral of an integer from 0 to 999. *)
Definition decimal (n : Z) : jsstring :=
  let digit d := (48 + Z.to_N d)%N in
  if (n <? 10)%Z then [digit n]
  else if (n <? 100)%Z then [digit (n / 10)%Z; digit (n mod 10)%Z]
  else [digit (n / 100)%Z; digit (n / 10 mod 10)%Z; digit (n mod 10)%Z].

Definition is_upper_hex (d : N) : bool :=
  is_digit d || ((65 <=? d) && (d <=? 70))%N.

Lemma byte_channel (n : Z) :
  (0 <= n <= 255)%Z ->
  Number (decimal n) = of_Z n
  /\ toHex (of_Z n) = byte_hex n
  /\ numeric_run (decimal n)
  /\ byte_of_digits (byte_hex n) = n
  /\ forallb is_hex_digit (byte_hex n) = true
  /\ forallb is_upper_hex (byte_hex n) = true
  /\ map upper_char (byte_hex n) = byte_hex n.
Proof.
  intros H.
  assert (E : forallb
                (fun n =>
                   number_eqb (Number (decimal n)) (of_Z n)
                   && JsString.eqb (toHex (of_Z n)) (byte_hex n)
                   && negb (JsString.eqb (decimal n) [])
                   && forallb is_num_char (decimal n)
                   && (byte_of_digits (byte_hex n) =? n)%Z
                   && forallb is_hex_digit (byte_hex n)
                   && forallb is_upper_hex (byte_hex n)
                   && JsString.eqb (map upper_char (byte_hex n)) (byte_hex n))
                (map Z.of_nat (seq 0 256)) = true) by (vm_compute; reflexivity).
  rewrite forallb_forall in E. specialize (E n (bytes_enumerated n H)).
  repeat match type of E with
  | (_ && _)%bool = true =>
      let E' := fresh "E" in
      apply andb_true_iff in E; destruct E as [E E']
  end.
  split; [ now apply number_eqb_eq | ].
  split; [ now apply eqb_eq | ].
  split.
  { split; [| assumption ]. apply negb_true_iff in E5. now apply eqb_neq in E5. }
  split; [ now apply Z.eqb_eq | ].
  split; [ assumption | ]. split; [ assumption | now apply eqb_eq ].
Qed.

(** The first letter of the function name. *)
Lemma rgb_name_head (name : jsstring) :
  toLowerCase name = js "rgb" \/ toLowerCase name = js "rgba" ->
  exists c rest, name = c :: rest /\ is_ws c = false
                 /\ c <> ch "t" /\ c <> ch "#".
Proof.
  intros H.
  assert (E : exists c rest, name = c :: rest /\ lower_char c = ch "r").
  { destruct name as [| c rest]; [ destruct H; discriminate | ].
    exists c, rest. split; [ reflexivity | ].
    destruct H as [H | H]; cbn in H; now injection H. }
  destruct E as [c [rest [-> E]]]. exists c, rest. split; [ reflexivity | ].
  unfold lower_char, is_upper in E. change (ch "r") with 114%N in E.
  change (ch "t") with 116%N. change (ch "#") with 35%N.
  assert (R : c = 82%N \/ c = 114%N).
  { destruct ((65 <=? c) && (c <=? 90))%N eqn:Eu; [ left | right ]; lia. }
  destruct R as [-> | ->]; (split; [ reflexivity | split; discriminate ]).
Qed.

(** A text of the functional form takes the functional branch. *)
Lemma parseColor_rgb (v c1 c2 c3 : jsstring) (c4 : option jsstring) :
  rgb_shape v c1 c2 c3 c4 -> parseColor v = Some (color_of_rgb c1 c2 c3 c4).
Proof.
  intros Hs. pose proof (match_rgb_complete _ _ _ _ _ Hs) as Em.
  destruct Hs as [name [w1 [w2 [w3 [w4 [w5 [w6 [tail [Ev [Hn _]]]]]]]]]].
  destruct (rgb_name_head name Hn) as [c [rest [-> [Hc [Ht Hh]]]]].
  assert (Ew : exists mid, v = c :: mid ++ [ch ")"]).
  { eexists. rewrite Ev. unfold rgb_text.
    change ((c :: rest) ++ ?x) with (c :: (rest ++ x)). f_equal.
    rewrite !app_comm_cons, !app_assoc. reflexivity. }
  destruct Ew as [mid Ew].
  assert (Et : JsString.eqb v (js "transparent") = false)
    by (rewrite Ew; now apply not_transparent).
  assert (Eh : match_hex v = None).
  { rewrite Ew. unfold match_hex.
    replace (c =? ch "#")%N with false; [ reflexivity | ].
    symmetry. now apply N.eqb_neq. }
  unfold parseColor. rewrite (trimmed_trim v).
  2:{ right. exists c, mid, (ch ")"). split; [ now right | now split ]. }
  cbv zeta. now rewrite Et, Eh, Em.
Qed.

(** The functional form with three integer channels from 0 to
    255, written in decimal, with either function name in any letter
    case and any white space around the channels: the colour has the
    channels divided by 255 as components, alpha 1 and the two upper-case
    hex digits of each channel as hex text; it satisfies the invariant of
    a normalized colour, and it is the colour of the six-digit hex form
    with the same digits. *)
Theorem parse_rgb_bytes (name w1 w2 w3 w4 w5 w6 : jsstring) (r g b : Z) :
  toLowerCase name = js "rgb" \/ toLowerCase name = js "rgba" ->
  Forall all_ws [w1; w2; w3; w4; w5; w6] ->
  (0 <= r <= 255)%Z -> (0 <= g <= 255)%Z -> (0 <= b <= 255)%Z ->
  let c := {| ColorParser.r := unit_of_byte r;
              ColorParser.g := unit_of_byte g;
              ColorParser.b := unit_of_byte b;
              ColorParser.a := of_Z 1;
              ColorParser.hex := ch "#" :: byte_hex r ++ byte_hex g ++ byte_hex b |} in
  parseColor (rgb_text name w1 (decimal r) w2 w3 (decimal g) w4 w5 (decimal b) w6 [])
  = Some c
  /\ parseColor (ch "#" :: byte_hex r ++ byte_hex g ++ byte_hex b) = Some c
  /\ normalized c = true.
Proof.
  intros Hn Hw Hr Hg Hb c.
  destruct (byte_channel r Hr) as [Nr [Xr [Rr [Dr [Hr1 [Ur Mr]]]]]].
  destruct (byte_channel g Hg) as [Ng [Xg [Rg [Dg [Hg1 [Ug Mg]]]]]].
  destruct (byte_channel b Hb) as [Nb [Xb [Rb [Db [Hb1 [Ub Mb]]]]]].
  split; [| split ].
  - rewrite (parseColor_rgb _ (decimal r) (decimal g) (decimal b) None).
    2:{ exists name, w1, w2, w3, w4, w5, w6, []. split; [ reflexivity | ].
        split; [ exact Hn | ]. split; [ exact Hw | ].
        split; [| reflexivity ].
        repeat (apply Forall_cons; [ assumption | ]). apply Forall_nil. }
    unfold color_of_rgb. rewrite Nr, Ng, Nb, Xr, Xg, Xb.
    fold (unit_of_byte r) (unit_of_byte g) (unit_of_byte b).
    rewrite (proj2 (byte_facts r Hr)), (proj2 (byte_facts g Hg)),
      (proj2 (byte_facts b Hb)).
    reflexivity.
  - assert (Er : exists x1 x2, byte_hex r = [x1; x2]) by (unfold byte_hex; eauto).
    assert (Eg : exists x3 x4, byte_hex g = [x3; x4]) by (unfold byte_hex; eauto).
    assert (Eb : exists x5 x6, byte_hex b = [x5; x6]) by (unfold byte_hex; eauto).
    destruct Er as [x1 [x2 Er]], Eg as [x3 [x4 Eg]], Eb as [x5 [x6 Eb]].
    subst c. rewrite Er, Eg, Eb in *. cbn [app].
    assert (Hd : forallb is_hex_digit [x1; x2; x3; x4; x5; x6] = true).
    { cbn [forallb] in *. b2p.
      repeat match goal with H : ?x = true |- _ => rewrite H; clear H end.
      reflexivity. }
    rewrite parseColor_hex by (exact Hd || reflexivity).
    rewrite color_of_hex_six by exact Hd.
    rewrite Dr, Dg, Db.
    cbn [map] in Mr, Mg, Mb |- *.
    injection Mr as -> ->. injection Mg as -> ->. injection Mb as -> ->.
    reflexivity.
  - subst c. unfold normalized, encode_rgb. cbn [ColorParser.r ColorParser.g
      ColorParser.b ColorParser.a ColorParser.hex].
    rewrite (proj1 (byte_facts r Hr)), (proj1 (byte_facts g Hg)),
      (proj1 (byte_facts b Hb)).
    rewrite !byte_reencoded by assumption.
    replace (JsString.eqb _ _) with true by (symmetry; now apply eqb_eq).
    replace (in01 (of_Z 1)) with true by reflexivity.
    cbn [andb]. rewrite andb_true_r.
    unfold is_hex6_upper. rewrite N.eqb_refl.
    fold is_upper_hex. rewrite !forallb_app, Ur, Ug, Ub.
    unfold byte_hex. reflexivity.
Qed.

Lemma parse_rgb_bytes_witness :
  parseColor (js "rgb(255, 128, 0)")
  = Some {| ColorParser.r := unit_of_byte 255;
            ColorParser.g := unit_of_byte 128;
            ColorParser.b := unit_of_byte 0;
            ColorParser.a := of_Z 1;
            ColorParser.hex := js "#FF8000" |}.
Proof.
  refine (proj1 (parse_rgb_bytes (js "rgb") [] [] [32%N] [] [32%N] [] 255 128 0
                   _ _ _ _ _)).
  - now left.
  - repeat (apply Forall_cons; [ reflexivity | ]). apply Forall_nil.
  - lia.
  - lia.
  - lia.
Defined.

(* ================================================================== *)
(** ** From a token path back to the variable name *)

(** The variable name a path stands for: the prefix and the segments
    after [vscode], joined by dashes. *)
Definition variable_name (path : list jsstring) : jsstring :=
  js "--vscode-" ++ join (js "-") (tl path).

Lemma startsWith_app (p s : jsstring) :
  startsWith p s = true <-> exists rest, s = p ++ rest.
Proof.
  revert s. induction p as [| c p IH]; intros s; cbn [startsWith app].
  - split; [ intros _; now exists s | reflexivity ].
  - destruct s as [| d s]; [ split; [ discriminate | intros [r [=]] ] | ].
    rewrite andb_true_iff, N.eqb_eq, IH. split.
    + intros [-> [r ->]]. now exists r.
    + intros [r [= -> ->]]. split; [ reflexivity | now exists r ].
Qed.

(** A prefix without white space survives trimming. *)
Lemma prefix_of_trimmed (p x y rest : jsstring) :
  Forall (fun c => is_ws c = false) p -> all_ws y ->
  x ++ y = p ++ rest -> exists r, x = p ++ r.
Proof.
  intros Hp Hy. revert x. induction Hp as [| c p Hc Hp IH]; intros x E.
  - now exists x.
  - destruct x as [| d x]; cbn [app] in E.
    + exfalso. subst y. unfold all_ws in Hy. cbn in Hy.
      rewrite Hc in Hy. discriminate.
    + injection E as -> E. destruct (IH x E) as [r ->]. now exists r.
Qed.

Lemma trim_keeps_prefix (k : jsstring) :
  startsWith (js "--vscode-") k = true ->
  exists r, trim k = js "--vscode-" ++ r.
Proof.
  intros H. apply startsWith_app in H. destruct H as [rest ->].
  destruct (trim_split (js "--vscode-" ++ rest)) as [w [w' [Ek [Hw [Hw' _]]]]].
  destruct w as [| c w].
  - cbn [app] in Ek. symmetry in Ek.
    apply (prefix_of_trimmed (js "--vscode-") _ w' rest); [ | exact Hw' | exact Ek ].
    repeat constructor.
  - exfalso. cbn [js app] in Ek. injection Ek as <- _.
    unfold all_ws in Hw. cbn in Hw. discriminate.
Qed.

Lemma resolve_prefixed (r : jsstring) :
  variable_name (resolve_spec (js "--vscode-" ++ r)) = js "--vscode-" ++ r.
Proof.
  unfold resolve_spec.
  replace (strip_prefix (js "--") (js "--vscode-" ++ r))
    with (Some (js "vscode-" ++ r)) by (symmetry; now apply strip_prefix_some).
  replace (strip_prefix (js "vscode-") (js "vscode-" ++ r))
    with (Some r) by (symmetry; now apply strip_prefix_some).
  pose proof (join_split (ch "-") r) as J.
  pose proof (split_not_nil (ch "-") r) as Hn.
  unfold variable_name.
  destruct (split (ch "-") r) as [| p [| q ps]]; [ contradiction | | ].
  - cbn [tl]. f_equal. exact J.
  - cbn [tl]. f_equal. rewrite <- J. reflexivity.
Qed.

(** The path of a variable keeps the whole name: for a name that
    starts with [--vscode-], the segments after [vscode] joined by dashes
    behind the prefix give the trimmed name back.  So two such names
    have the same path only if they are equal up to white space at the
    end. *)
Theorem token_path_round_trip (k : jsstring) :
  startsWith (js "--vscode-") k = true ->
  variable_name (toTokenPath k) = trim k
  /\ forall k',
       startsWith (js "--vscode-") k' = true ->
       toTokenPath k' = toTokenPath k -> trim k' = trim k.
Proof.
  assert (R : forall n, startsWith (js "--vscode-") n = true ->
                        variable_name (toTokenPath n) = trim n).
  { intros n Hn. destruct (trim_keeps_prefix n Hn) as [r E].
    rewrite toTokenPath_spec, E. apply resolve_prefixed. }
  intros Hk. split; [ now apply R | ].
  intros k' Hk' E. rewrite <- (R k Hk), <- (R k' Hk'). now rewrite E.
Qed.

Lemma token_path_round_trip_witness :
  variable_name (toTokenPath (js "--vscode-editor-selection-background"))
  = trim (js "--vscode-editor-selection-background").
Proof.
  apply (token_path_round_trip (js "--vscode-editor-selection-background")).
  reflexivity.
Defined.

(* ================================================================== *)
(** ** The table printer *)

Import Table.

(** A code unit of the ASCII range: one column wide, and no half of a
    surrogate pair. *)
Definition narrow (c : N) : bool := (c <? 128)%N.

Lemma narrow_facts (c : N) :
  narrow c = true ->
  is_high_surrogate c = false /\ is_low_surrogate c = false
  /\ is_wide c = false.
Proof.
  unfold narrow, is_high_surrogate, is_low_surrogate, is_wide. intros H.
  apply N.ltb_lt in H.
  repeat split;
    repeat match goal with
    | |- (_ || _)%bool = false => apply orb_false_iff; split
    | |- (_ && _)%bool = false => apply andb_false_iff; left
    | |- (_ <=? _)%N = false => apply N.leb_gt; lia
    end.
Qed.

Lemma code_points_head (c : N) (t : jsstring) :
  is_high_surrogate c = false -> code_points (c :: t) = [c] :: code_points t.
Proof. intros H. destruct t as [| d t]; cbn; now rewrite ?H. Qed.

Lemma code_points_two (x y : N) (r : jsstring) :
  code_points (x :: y :: r)
  = if is_high_surrogate x && is_low_surrogate y
    then [x; y] :: code_points r
    else [x] :: code_points (y :: r).
Proof. reflexivity. Qed.

(** The iterator pairs no code unit with one that is no low surrogate. *)
Lemma code_points_app (s t : jsstring) (c : N) :
  is_low_surrogate c = false ->
  code_points (s ++ c :: t) = code_points s ++ code_points (c :: t).
Proof.
  intros Hc.
  assert (H : forall n s, length s <= n ->
             code_points (s ++ c :: t) = code_points s ++ code_points (c :: t)).
  { induction n as [| n IH]; intros [| x [| y s']] Hlen; cbn [length] in Hlen;
      try lia; try reflexivity.
    - cbn [app]. rewrite code_points_two, Hc, andb_false_r. reflexivity.
    - change ((x :: y :: s') ++ c :: t) with (x :: y :: (s' ++ c :: t)).
      rewrite !code_points_two.
      destruct (is_high_surrogate x && is_low_surrogate y).
      + rewrite (IH s') by lia. reflexivity.
      + change (y :: s' ++ c :: t) with ((y :: s') ++ c :: t).
        rewrite (IH (y :: s')) by (cbn [length]; lia). reflexivity. }
  now apply (H (length s)).
Qed.

Lemma fold_width (l : list jsstring) (a : Z) :
  fold_left (fun width ch => if wide_test ch then width + 2 else width + 1)%Z l a
  = (a + fold_left (fun width ch => if wide_test ch then width + 2 else width + 1)%Z
           l 0)%Z.
Proof.
  revert a. induction l as [| x l IH]; intros a; cbn [fold_left]; [ lia | ].
  rewrite IH. rewrite (IH (if wide_test x then _ else _)).
  destruct (wide_test x); lia.
Qed.

Lemma displayWidth_app (s t : jsstring) (c : N) :
  is_low_surrogate c = false ->
  displayWidth (s ++ c :: t) = (displayWidth s + displayWidth (c :: t))%Z.
Proof.
  intros Hc. unfold displayWidth. rewrite code_points_app by exact Hc.
  rewrite fold_left_app. apply fold_width.
Qed.

Lemma displayWidth_narrow (c : N) (t : jsstring) :
  narrow c = true -> displayWidth (c :: t) = (1 + displayWidth t)%Z.
Proof.
  intros H. destruct (narrow_facts c H) as [Hh [_ Hw]].
  unfold displayWidth. rewrite code_points_head by exact Hh.
  cbn [fold_left]. rewrite fold_width.
  unfold wide_test. cbn [existsb]. rewrite Hw. cbn. lia.
Qed.

Lemma displayWidth_nonneg (s : jsstring) : (0 <= displayWidth s)%Z.
Proof.
  unfold displayWidth. induction (code_points s) as [| x l IH]; cbn [fold_left];
    [ lia | ].
  rewrite fold_width. destruct (wide_test x); lia.
Qed.

Lemma displayWidth_repeat (c : N) (n : nat) :
  narrow c = true -> displayWidth (repeat c n) = Z.of_nat n.
Proof.
  intros H. induction n as [| n IH]; [ reflexivity | ].
  cbn [repeat]. rewrite displayWidth_narrow by exact H. lia.
Qed.

Lemma displayWidth_padded (s : jsstring) (c : N) (n : nat) :
  narrow c = true ->
  displayWidth (s ++ repeat c n) = (displayWidth s + Z.of_nat n)%Z.
Proof.
  intros H. destruct n as [| n]; [ cbn; rewrite app_nil_r; lia | ].
  cbn [repeat]. rewrite displayWidth_app by apply (narrow_facts c H).
  change (c :: repeat c n) with (repeat c (S n)).
  now rewrite displayWidth_repeat.
Qed.

Lemma padded_width (str : jsstring) (targetWidth : Z) :
  displayWidth (padEndByWidth str (Some targetWidth))
  = Z.max targetWidth (displayWidth str).
Proof.
  unfold padEndByWidth. rewrite displayWidth_padded by reflexivity.
  pose proof (displayWidth_nonneg str). lia.
Qed.

(** Padding gives the target width: the padded text is as wide as
    the target, or as the text when that is wider.  Wide characters
    count two columns and a surrogate pair one, in the text and in what
    the padding leaves of it. *)
Theorem pad_width (str : jsstring) (targetWidth : Z) :
  displayWidth (padEndByWidth str (Some targetWidth))
  = Z.max targetWidth (displayWidth str)
  /\ exists n, padEndByWidth str (Some targetWidth) = str ++ repeat (ch " ") n.
Proof.
  split; [ apply padded_width | unfold padEndByWidth; eauto ].
Qed.

(** The width of columns with one separator between neighbours. *)
Fixpoint join_width (ws : list Z) : Z :=
  match ws with
  | [] => 0
  | [w] => w
  | w :: rest => w + 1 + join_width rest
  end.

Lemma displayWidth_join (c : N) (ps : list jsstring) :
  narrow c = true ->
  displayWidth (join [c] ps) = join_width (map displayWidth ps).
Proof.
  intros H. induction ps as [| p ps IH]; [ reflexivity | ].
  destruct ps as [| q ps]; [ reflexivity | ].
  rewrite join_cons. cbn [app].
  rewrite displayWidth_app by apply (narrow_facts c H).
  rewrite displayWidth_narrow by exact H. rewrite IH.
  cbn [map join_width]. lia.
Qed.

Lemma displayWidth_framed (c : N) (s : jsstring) :
  narrow c = true -> displayWidth ([c] ++ s ++ [c]) = (2 + displayWidth s)%Z.
Proof.
  intros H. cbn [app]. rewrite displayWidth_narrow by exact H.
  rewrite displayWidth_app by apply (narrow_facts c H).
  rewrite displayWidth_narrow by exact H.
  change (displayWidth []) with 0%Z. lia.
Qed.

Lemma nth_error_mapi_from (A B : Type) (f : A -> nat -> B) (i j : nat)
    (xs : list A) :
  nth_error (mapi_from f i xs) j
  = option_map (fun x => f x (i + j)) (nth_error xs j).
Proof.
  revert i j. induction xs as [| x xs IH]; intros i [| j]; cbn; try reflexivity.
  - now rewrite Nat.add_0_r.
  - rewrite IH. now rewrite Nat.add_succ_r.
Qed.

(** Two lists walked with their indices side by side. *)
Lemma map_mapi_from (A B C : Type) (phi : C -> Z) (g : A -> nat -> C)
    (f : B -> nat -> Z) (i : nat) (xs : list A) (ys : list B) :
  length xs = length ys ->
  (forall j x y, nth_error xs j = Some x -> nth_error ys j = Some y ->
                 phi (g x (i + j)) = f y (i + j)) ->
  map phi (mapi_from g i xs) = mapi_from f i ys.
Proof.
  revert i ys. induction xs as [| x xs IH]; intros i [| y ys] Hlen H;
    cbn [length] in Hlen; try discriminate; [ reflexivity | ].
  cbn [mapi_from map]. f_equal.
  - specialize (H 0 x y eq_refl eq_refl). now rewrite Nat.add_0_r in H.
  - apply IH; [ lia | ]. intros j x' y' Hx Hy.
    specialize (H (S j) x' y' Hx Hy). now rewrite Nat.add_succ_r in H.
Qed.

Lemma Math_max_of_ge (first : Z) (rest : list Z) :
  (first <= Math_max_of first rest)%Z
  /\ forall x, In x rest -> (x <= Math_max_of first rest)%Z.
Proof.
  unfold Math_max_of. revert first.
  induction rest as [| y rest IH]; intros first; cbn [fold_left].
  - split; [ lia | intros x [] ].
  - destruct (IH (Z.max first y)) as [H1 H2]. split; [ lia | ].
    intros x [<- | Hx]; [ lia | now apply H2 ].
Qed.

(** The width of a column, as lines 317-323 compute it. *)
Definition column_width (rows : list (list cell)) (h : jsstring) (i : nat) : Z :=
  Math_max_of (displayWidth h)
    (map (fun r => displayWidth (String_ (nth_error r i))) rows) + 2.

Lemma colWidths_nth (headers : list jsstring) (rows : list (list cell))
    (j : nat) (h : jsstring) :
  nth_error headers j = Some h ->
  nth_error (colWidths headers rows) j = Some (column_width rows h j).
Proof.
  intros H. unfold colWidths, mapi. rewrite nth_error_mapi_from, H. reflexivity.
Qed.

Lemma dashes_width (ws : list Z) :
  Forall (fun w => 0 <= w)%Z ws ->
  map displayWidth (map (repeat_char (ch "-")) ws) = ws.
Proof.
  induction 1 as [| w ws Hw _ IH]; [ reflexivity | ].
  cbn [map]. rewrite IH. f_equal. unfold repeat_char.
  rewrite displayWidth_repeat by reflexivity. lia.
Qed.

Lemma colWidths_nonneg (headers : list jsstring) (rows : list (list cell)) :
  Forall (fun w => 0 <= w)%Z (colWidths headers rows).
Proof.
  apply Forall_forall. intros w Hw. apply In_nth_error in Hw.
  destruct Hw as [j Hj]. unfold colWidths, mapi in Hj.
  rewrite nth_error_mapi_from in Hj.
  destruct (nth_error headers j) as [h |]; [| discriminate ].
  injection Hj as <-. cbn [Nat.add].
  pose proof (proj1 (Math_max_of_ge (displayWidth h)
    (map (fun r => displayWidth (String_ (nth_error r j))) rows))).
  pose proof (displayWidth_nonneg h). lia.
Qed.

(** The padded cells of a row of the table have the widths of the
    columns. *)
Lemma row_widths (headers : list jsstring) (rows : list (list cell))
    (row : list cell) :
  In row rows -> length row = length headers ->
  map displayWidth
    (mapi (fun c i =>
             padEndByWidth (String_ (Some c))
               (nth_error (colWidths headers rows) i))
       row)
  = colWidths headers rows.
Proof.
  intros Hin Hlen. unfold mapi. unfold colWidths at 2. unfold mapi.
  apply map_mapi_from; [ exact Hlen | ].
  intros j c h Hc Hh. cbn [Nat.add].
  rewrite (colWidths_nth headers rows j h Hh).
  rewrite padded_width.
  fold (column_width rows h j).
  assert (Hle : (displayWidth (String_ (Some c)) <= column_width rows h j)%Z).
  { unfold column_width.
    pose proof (proj2 (Math_max_of_ge (displayWidth h)
      (map (fun r => displayWidth (String_ (nth_error r j))) rows))
      (displayWidth (String_ (Some c)))) as H.
    assert (Hc' : In (displayWidth (String_ (Some c)))
                    (map (fun r => displayWidth (String_ (nth_error r j))) rows)).
    { apply in_map_iff. exists row. split; [ now rewrite Hc | exact Hin ]. }
    specialize (H Hc'). lia. }
  lia.
Qed.

Lemma header_widths (headers : list jsstring) (rows : list (list cell)) :
  map displayWidth
    (mapi (fun h i => padEndByWidth h (nth_error (colWidths headers rows) i))
       headers)
  = colWidths headers rows.
Proof.
  unfold mapi. unfold colWidths at 2. unfold mapi.
  apply map_mapi_from; [ reflexivity | ].
  intros j h h' Hh Hh'. rewrite Hh in Hh'. injection Hh' as <-. cbn [Nat.add].
  rewrite (colWidths_nth headers rows j h Hh), padded_width.
  fold (column_width rows h j).
  pose proof (proj1 (Math_max_of_ge (displayWidth h)
    (map (fun r => displayWidth (String_ (nth_error r j))) rows))) as H.
  unfold column_width. lia.
Qed.

(** The table is aligned.  When every row has as many cells as
    there are headers, the table has a line for each row and four more,
    the padded cells of every row are exactly as wide as their columns,
    and all lines are equally wide: two columns for the outer bars, the
    widths of the columns and one bar between neighbours.  The widths
    are display widths: the characters of the pattern's ranges count
    twice, a surrogate pair once. *)
Theorem table_aligned (headers : list jsstring) (rows : list (list cell)) :
  Forall (fun row => length row = length headers) rows ->
  length (printTable headers rows) = length rows + 4
  /\ (forall row, In row rows ->
        map displayWidth
          (mapi (fun c i =>
                   padEndByWidth (String_ (Some c))
                     (nth_error (colWidths headers rows) i))
             row)
        = colWidths headers rows)
  /\ Forall (fun line =>
               displayWidth line = (2 + join_width (colWidths headers rows))%Z)
       (printTable headers rows).
Proof.
  intros Hrect. rewrite Forall_forall in Hrect.
  split; [| split ].
  - unfold printTable. cbn [app length]. rewrite length_app, length_map.
    cbn [length]. lia.
  - intros row Hin. apply row_widths; [ exact Hin | now apply Hrect ].
  - assert (Hb : displayWidth
                   (js "+" ++ join (js "+")
                      (map (repeat_char (ch "-")) (colWidths headers rows))
                    ++ js "+")
                 = (2 + join_width (colWidths headers rows))%Z).
    { change (js "+") with [ch "+"].
      rewrite displayWidth_framed by reflexivity.
      rewrite displayWidth_join by reflexivity.
      now rewrite dashes_width by apply colWidths_nonneg. }
    unfold printTable. cbv zeta.
    repeat (apply Forall_cons || apply Forall_app; try split);
      try exact Hb; try apply Forall_nil.
    + change (js "|") with [ch "|"].
      rewrite displayWidth_framed by reflexivity.
      rewrite displayWidth_join by reflexivity.
      now rewrite header_widths.
    + apply Forall_forall. intros line Hl. apply in_map_iff in Hl.
      destruct Hl as [row [<- Hin]].
      change (js "|") with [ch "|"].
      rewrite displayWidth_framed by reflexivity.
      rewrite displayWidth_join by reflexivity.
      rewrite row_widths; [ reflexivity | exact Hin | now apply Hrect ].
Qed.

Lemma table_aligned_witness :
  Forall (fun line => displayWidth line = 21%Z)
    (printTable [js "File"; js "tokens"]
       [[Text (js "red.json"); Count 12]; [Text [20013; 25991]%N; Count 3]]).
Proof.
  apply (table_aligned [js "File"; js "tokens"]
           [[Text (js "red.json"); Count 12]; [Text [20013; 25991]%N; Count 3]]).
  repeat constructor.
Defined.

(* ================================================================== *)
(** ** The tree the nester builds from independent paths *)

Import Leaves.

(** An object [countLeafTokens] takes for a token. *)
Definition is_token (h : heap) (l : loc) : bool :=
  truthy (get_prop h l (js "$type")) && truthy (get_prop h l (js "$value")).

(** [p] is a prefix of [q], segment by segment. *)
Fixpoint is_prefix (p q : list jsstring) : bool :=
  match p, q with
  | [], _ => true
  | x :: p', y :: q' => JsString.eqb x y && is_prefix p' q'
  | _ :: _, [] => false
  end.

(** Two paths of which one leads through the other (or the same path
    twice). *)
Definition clash (p q : list jsstring) : bool := is_prefix p q || is_prefix q p.

(** No two paths of the list clash. *)
Fixpoint independent (ps : list (list jsstring)) : bool :=
  match ps with
  | [] => true
  | p :: rest => forallb (fun q => negb (clash p q)) rest && independent rest
  end.

(** No segment is the name of the field that marks a token. *)
Definition no_token_field (p : list jsstring) : bool :=
  forallb (fun seg => negb (JsString.eqb seg (js "$type"))) p.

(** The tree under [out.vscode]: at a segment a token, or a group of
    tokens by their leaves. *)
Inductive node :=
| Leaf (lt : loc)
| Group (lg : loc) (entries : list (jsstring * loc)).

Definition tree := list (jsstring * node).

Definition node_value (n : node) : value :=
  match n with
  | Leaf lt => VObj lt
  | Group lg _ => VObj lg
  end.

Definition props_of (A : tree) : object :=
  map (fun sn => (fst sn, node_value (snd sn))) A.

Definition leaves_of (es : list (jsstring * loc)) : object :=
  map (fun e => (fst e, VObj (snd e))) es.

(** The paths of a tree with the tokens at them. *)
Definition node_entries (sn : jsstring * node) : list (list jsstring * loc) :=
  match snd sn with
  | Leaf lt => [([js "vscode"; fst sn], lt)]
  | Group _ es => map (fun e => ([js "vscode"; fst sn; fst e], snd e)) es
  end.

Definition tree_entries (A : tree) : list (list jsstring * loc) :=
  flat_map node_entries A.

Definition node_locs (sn : jsstring * node) : list loc :=
  match snd sn with
  | Leaf _ => []
  | Group lg _ => [lg]
  end.

Definition group_locs (A : tree) : list loc := flat_map node_locs A.

Section Repr.

(** The heap the nester started from, and the object it fills. *)
Variable h0 : heap.
Variable out : loc.

Definition token_at (lt : loc) : Prop := lt < out /\ is_token h0 lt = true.

Definition node_ok (h : heap) (lv : loc) (sn : jsstring * node) : Prop :=
  fst sn <> js "$type"
  /\ match snd sn with
     | Leaf lt => token_at lt
     | Group lg es =>
         out < lg < length h /\ lg <> lv /\ own h lg = leaves_of es
         /\ es <> [] /\ NoDup (map fst es)
         /\ Forall (fun e => fst e <> js "$type" /\ token_at (snd e)) es
     end.

(** The heap holds the tree [A] at [out], and the objects older than
    [out] are as they were. *)
Definition repr (h : heap) (A : tree) : Prop :=
  out < length h
  /\ (forall l, l < out -> own h l = own h0 l)
  /\ NoDup (map fst A) /\ NoDup (group_locs A)
  /\ match A with
     | [] => own h out = []
     | _ :: _ =>
         exists lv,
           own h out = [(js "vscode", VObj lv)] /\ out < lv < length h
           /\ own h lv = props_of A /\ Forall (node_ok h lv) A
     end.

Lemma node_ok_frame (h h' : heap) (lv : loc) (sn : jsstring * node) :
  length h <= length h' ->
  (forall l, In l (node_locs sn) -> l <> lv -> own h' l = own h l) ->
  node_ok h lv sn -> node_ok h' lv sn.
Proof.
  intros Hlen Hframe [Hs Hn]. split; [ exact Hs | ].
  unfold node_locs in Hframe.
  destruct (snd sn) as [lt | lg es]; [ exact Hn | ].
  destruct Hn as [Hlg [Hne [Hown Hrest]]].
  split; [ lia | ]. split; [ exact Hne | ].
  split; [ rewrite Hframe; [ exact Hown | now left | exact Hne ] | exact Hrest ].
Qed.

Lemma group_locs_bound (h : heap) (lv : loc) (A : tree) (l : loc) :
  Forall (node_ok h lv) A -> In l (group_locs A) -> out < l < length h /\ l <> lv.
Proof.
  intros Hok Hin. unfold group_locs in Hin. apply in_flat_map in Hin.
  destruct Hin as [sn [Hsn Hl]]. rewrite Forall_forall in Hok.
  destruct (Hok sn Hsn) as [_ Hn]. unfold node_locs in Hl.
  destruct (snd sn) as [lt | lg es]; [ destruct Hl | ].
  destruct Hl as [<- | []]. tauto.
Qed.

End Repr.

(* ------------------------------------------------------------------ *)
(** *** The steps of [setNested] *)

Lemma descend_found (h : heap) (l l' : loc) (k : jsstring) :
  own_key k = true -> Obj.get (own h l) k = Some (VObj l') ->
  descend h (VObj l) k = Ok (h, VObj l').
Proof.
  intros Hk E. unfold descend. rewrite Hk.
  now rewrite (get_prop_some _ _ _ _ E).
Qed.

Lemma descend_fresh (h : heap) (l : loc) (k : jsstring) :
  own_key k = true -> Obj.get (own h l) k = None ->
  descend h (VObj l) k
  = Ok (set_prop (fst (alloc h)) l k (VObj (length h)), VObj (length h)).
Proof.
  intros Hk E. unfold descend. rewrite Hk.
  now rewrite (get_prop_none _ _ _ E).
Qed.

Lemma put_plain (h : heap) (l : loc) (k : jsstring) (v : value) :
  JsString.eqb k (js "__proto__") = false ->
  put h (VObj l) k v = Ok (set_prop h l k v).
Proof. intros Hk. unfold put. now rewrite Hk. Qed.

Lemma set_empty (V : Type) (k : jsstring) (v : V) :
  JsString.eqb k (js "__proto__") = false -> Obj.set [] k v = [(k, v)].
Proof. intros Hk. unfold Obj.set. now rewrite Hk. Qed.

Lemma own_fresh (h : heap) : own (fst (alloc h)) (length h) = [].
Proof. rewrite own_alloc. now apply own_beyond. Qed.

Lemma is_prefix_refl (p : list jsstring) : is_prefix p p = true.
Proof.
  induction p as [| x p IH]; [ reflexivity | ]. cbn.
  rewrite IH. replace (JsString.eqb x x) with true; [ reflexivity | ].
  symmetry. now apply eqb_eq.
Qed.

Lemma is_prefix_app (p q : list jsstring) : is_prefix p (p ++ q) = true.
Proof.
  induction p as [| x p IH]; [ reflexivity | ]. cbn.
  rewrite IH. replace (JsString.eqb x x) with true; [ reflexivity | ].
  symmetry. now apply eqb_eq.
Qed.

Lemma props_of_keys (A : tree) : Obj.keys (props_of A) = map fst A.
Proof. unfold Obj.keys, props_of. rewrite map_map. reflexivity. Qed.

Lemma leaves_of_keys (es : list (jsstring * loc)) :
  Obj.keys (leaves_of es) = map fst es.
Proof. unfold Obj.keys, leaves_of. rewrite map_map. reflexivity. Qed.

Lemma tree_entries_app (A B : tree) :
  tree_entries (A ++ B) = tree_entries A ++ tree_entries B.
Proof. unfold tree_entries. apply flat_map_app. Qed.

Lemma group_locs_app (A B : tree) : group_locs (A ++ B) = group_locs A ++ group_locs B.
Proof. unfold group_locs. apply flat_map_app. Qed.

(** The paths of the tree at a segment. *)
Lemma leaf_entry (A : tree) (seg : jsstring) (lt : loc) :
  In (seg, Leaf lt) A -> In [js "vscode"; seg] (map fst (tree_entries A)).
Proof.
  intros H. apply in_map_iff. exists ([js "vscode"; seg], lt).
  split; [ reflexivity | ]. unfold tree_entries. apply in_flat_map.
  exists (seg, Leaf lt). split; [ exact H | now left ].
Qed.

Lemma group_entry (A : tree) (g leaf : jsstring) (lg : loc)
    (es : list (jsstring * loc)) :
  In (g, Group lg es) A -> In leaf (map fst es) ->
  In [js "vscode"; g; leaf] (map fst (tree_entries A)).
Proof.
  intros H Hl. apply in_map_iff in Hl. destruct Hl as [[leaf' lt] [E He]].
  cbn in E. subst leaf'.
  apply in_map_iff. exists ([js "vscode"; g; leaf], lt).
  split; [ reflexivity | ]. unfold tree_entries. apply in_flat_map.
  exists (g, Group lg es). split; [ exact H | ].
  unfold node_entries. cbn [fst snd]. apply in_map_iff. now exists (leaf, lt).
Qed.

(** A new path of two segments finds its segment free. *)
Lemma segment_free (h0 h : heap) (out lv : loc) (A : tree) (seg : jsstring) :
  Forall (node_ok h0 out h lv) A ->
  (forall q, In q (map fst (tree_entries A)) ->
             clash [js "vscode"; seg] q = false) ->
  ~ In seg (map fst A).
Proof.
  intros Hok Hind Hin. apply in_map_iff in Hin.
  destruct Hin as [[seg' n] [E Hn]]. cbn in E. subst seg'.
  destruct n as [lt | lg es].
  - specialize (Hind _ (leaf_entry A seg lt Hn)).
    unfold clash in Hind. now rewrite is_prefix_refl in Hind.
  - rewrite Forall_forall in Hok. destruct (Hok _ Hn) as [_ Hg]. cbn [snd] in Hg.
    destruct Hg as [_ [_ [_ [Hne _]]]].
    destruct es as [| [leaf lt] es]; [ contradiction | ].
    specialize (Hind _ (group_entry A seg leaf lg _ Hn (or_introl eq_refl))).
    unfold clash in Hind.
    change [js "vscode"; seg; leaf] with ([js "vscode"; seg] ++ [leaf]) in Hind.
    now rewrite is_prefix_app in Hind.
Qed.

Lemma get_single (V : Type) (k : jsstring) (v : V) : Obj.get [(k, v)] k = Some v.
Proof.
  cbn. replace (JsString.eqb k k) with true; [ reflexivity | ].
  symmetry. now apply eqb_eq.
Qed.

(** Rewriting the properties of an object after allocations and
    assignments elsewhere or at it. *)
Ltac len_simpl := repeat first [ rewrite length_set_prop | rewrite length_alloc ].

Ltac own_simpl :=
  repeat first
    [ rewrite own_set_prop_same by (len_simpl; lia)
    | rewrite own_set_prop_other by lia
    | rewrite own_alloc ].

Lemma two_segments (seg : jsstring) :
  plain_path [js "vscode"; seg] = true ->
  no_token_field [js "vscode"; seg] = true ->
  JsString.eqb seg (js "__proto__") = false /\ seg <> js "$type".
Proof.
  cbn [plain_path no_token_field forallb]. intros Hp Hn.
  apply andb_true_iff in Hp. destruct Hp as [_ Hp].
  apply andb_true_iff in Hn. destruct Hn as [_ Hn].
  apply andb_true_iff in Hn. destruct Hn as [Hn _].
  split; [ now apply proto_not_plain | ].
  apply negb_true_iff in Hn. now apply eqb_neq in Hn.
Qed.

Lemma three_segments (g leaf : jsstring) :
  plain_path [js "vscode"; g; leaf] = true ->
  no_token_field [js "vscode"; g; leaf] = true ->
  own_key g = true /\ g <> js "$type"
  /\ JsString.eqb leaf (js "__proto__") = false /\ leaf <> js "$type".
Proof.
  cbn [plain_path no_token_field forallb]. intros Hp Hn.
  apply andb_true_iff in Hp. destruct Hp as [_ Hp].
  apply andb_true_iff in Hp. destruct Hp as [Hg Hp].
  apply andb_true_iff in Hn. destruct Hn as [_ Hn].
  apply andb_true_iff in Hn. destruct Hn as [Hn1 Hn].
  apply andb_true_iff in Hn. destruct Hn as [Hn2 _].
  apply negb_true_iff in Hn1, Hn2. apply eqb_neq in Hn1, Hn2.
  split; [ exact Hg | ]. split; [ exact Hn1 | ].
  split; [ now apply proto_not_plain | exact Hn2 ].
Qed.

(** A path of two segments that clashes with no path of the tree: the
    token is appended under [vscode]. *)
Lemma step_two (h0 h : heap) (out : loc) (A : tree) (seg : jsstring) (lt : loc) :
  repr h0 out h A -> token_at h0 out lt ->
  plain_path [js "vscode"; seg] = true ->
  no_token_field [js "vscode"; seg] = true ->
  (forall q, In q (map fst (tree_entries A)) ->
             clash [js "vscode"; seg] q = false) ->
  exists h',
    setNested h (VObj out) [js "vscode"; seg] (VObj lt) = Ok h'
    /\ repr h0 out h' (A ++ [(seg, Leaf lt)]).
Proof.
  intros [Hout [Hframe [Hnd [Hgl Hroot]]]] Htok Hplain Hfield Hind.
  destruct (two_segments seg Hplain Hfield) as [Hproto Htype].
  destruct A as [| a A0].
  - exists (set_prop (set_prop (fst (alloc h)) out (js "vscode") (VObj (length h)))
              (length h) seg (VObj lt)).
    split.
    { cbn [setNested]. rewrite descend_fresh;
        [ | reflexivity | now rewrite Hroot ].
      now apply put_plain. }
    split; [ len_simpl; lia | ].
    split; [ intros l Hl; own_simpl; now apply Hframe | ].
    split; [ repeat constructor; intros [] | ].
    split; [ constructor | ].
    cbn [app]. exists (length h).
    split; [ own_simpl; rewrite Hroot; now apply set_empty | ].
    split; [ len_simpl; lia | ].
    split.
    { own_simpl. rewrite own_beyond by lia. now apply set_empty. }
    repeat constructor; assumption || apply Htok.
  - destruct Hroot as [lv [Hroot [Hlv [Hprops Hok]]]].
    set (A := a :: A0) in *.
    assert (Hfree : ~ In seg (map fst A))
      by exact (segment_free h0 h out lv A seg Hok Hind).
    exists (set_prop h lv seg (VObj lt)).
    split.
    { cbn [setNested]. rewrite (descend_found h out lv);
        [ | reflexivity | rewrite Hroot; apply get_single ].
      now apply put_plain. }
    split; [ now rewrite length_set_prop | ].
    split; [ intros l Hl; own_simpl; now apply Hframe | ].
    split.
    { rewrite map_app. apply NoDup_app; [ exact Hnd | repeat constructor; intros [] | ].
      intros x Hx [<- | []]. contradiction. }
    split.
    { rewrite group_locs_app. cbn. now rewrite app_nil_r. }
    subst A. cbn [app]. exists lv.
    split; [ now own_simpl | ].
    split; [ now rewrite length_set_prop | ].
    split.
    { own_simpl. rewrite Hprops.
      rewrite set_fresh; [ | exact Hproto | now rewrite props_of_keys ].
      unfold props_of. cbn [map]. now rewrite map_app. }
    change (a :: A0 ++ [(seg, Leaf lt)]) with ((a :: A0) ++ [(seg, Leaf lt)]).
    apply Forall_app. split.
    + eapply Forall_impl; [| exact Hok ]. intros sn.
      apply node_ok_frame; [ now rewrite length_set_prop | ].
      intros l _ Hne. now own_simpl.
    + repeat constructor; assumption || apply Htok.
Qed.

(* ------------------------------------------------------------------ *)
(** *** A further leaf in a group *)

Fixpoint add_leaf (g : jsstring) (e : jsstring * loc) (A : tree) : tree :=
  match A with
  | [] => []
  | (seg, n) :: rest =>
      if JsString.eqb seg g then
        (seg, match n with
              | Group lg es => Group lg (es ++ [e])
              | Leaf lt => Leaf lt
              end) :: rest
      else (seg, n) :: add_leaf g e rest
  end.

Lemma add_leaf_props (g : jsstring) (e : jsstring * loc) (A : tree) :
  props_of (add_leaf g e A) = props_of A.
Proof.
  induction A as [| [seg n] A IH]; [ reflexivity | ]. cbn [add_leaf].
  destruct (JsString.eqb seg g).
  - destruct n; reflexivity.
  - unfold props_of in *. cbn [map]. now rewrite IH.
Qed.

Lemma add_leaf_keys (g : jsstring) (e : jsstring * loc) (A : tree) :
  map fst (add_leaf g e A) = map fst A.
Proof.
  induction A as [| [seg n] A IH]; [ reflexivity | ]. cbn [add_leaf].
  destruct (JsString.eqb seg g); [ reflexivity | ]. cbn [map]. now rewrite IH.
Qed.

Lemma add_leaf_locs (g : jsstring) (e : jsstring * loc) (A : tree) :
  group_locs (add_leaf g e A) = group_locs A.
Proof.
  induction A as [| [seg n] A IH]; [ reflexivity | ]. cbn [add_leaf].
  destruct (JsString.eqb seg g).
  - destruct n; reflexivity.
  - unfold group_locs in *. cbn [flat_map]. now rewrite IH.
Qed.

Lemma add_leaf_cons (g : jsstring) (e : jsstring * loc) (a : jsstring * node)
    (A : tree) :
  exists a' A', add_leaf g e (a :: A) = a' :: A'.
Proof.
  destruct a as [seg n]. cbn [add_leaf]. destruct (JsString.eqb seg g); eauto.
Qed.

(** The node at a segment, when the segments are distinct. *)
Lemma node_at_head (A : tree) (g : jsstring) (n n' : node) :
  NoDup (map fst ((g, n) :: A)) -> In (g, n') ((g, n) :: A) -> n' = n.
Proof.
  intros Hnd [[= <-] | Hin]; [ reflexivity | ].
  cbn [map fst] in Hnd. inversion Hnd as [| ? ? Hg _]; subst.
  exfalso. apply Hg. apply in_map_iff. now exists (g, n').
Qed.

Lemma add_leaf_entries (g leaf : jsstring) (lt lg : loc)
    (es : list (jsstring * loc)) (A : tree) :
  NoDup (map fst A) -> In (g, Group lg es) A ->
  Permutation (tree_entries (add_leaf g (leaf, lt) A))
    (tree_entries A ++ [([js "vscode"; g; leaf], lt)]).
Proof.
  induction A as [| [seg n] A IH]; intros Hnd Hin; [ destruct Hin | ].
  cbn [add_leaf]. destruct (JsString.eqb seg g) eqn:Es.
  - apply eqb_eq in Es. subst seg.
    pose proof (node_at_head A g n _ Hnd Hin) as E. subst n.
    unfold tree_entries. cbn [flat_map]. unfold node_entries at 1 3.
    cbn [fst snd]. rewrite map_app. cbn [map fst snd].
    rewrite <- !app_assoc. apply Permutation_app_head.
    apply Permutation_app_comm.
  - apply eqb_neq in Es.
    destruct Hin as [[= E _] | Hin]; [ contradiction | ].
    cbn [map fst] in Hnd. inversion Hnd as [| ? ? _ Hnd']; subst.
    unfold tree_entries in *. cbn [flat_map]. rewrite <- app_assoc.
    apply Permutation_app_head. now apply IH.
Qed.

Lemma in_group_locs (A : tree) (g : jsstring) (lg : loc)
    (es : list (jsstring * loc)) :
  In (g, Group lg es) A -> In lg (group_locs A).
Proof.
  intros H. unfold group_locs. apply in_flat_map.
  exists (g, Group lg es). split; [ exact H | now left ].
Qed.

Lemma add_leaf_ok (h0 h : heap) (out lv : loc) (A : tree) (g leaf : jsstring)
    (lt lg : loc) (es : list (jsstring * loc)) :
  Forall (node_ok h0 out h lv) A ->
  NoDup (map fst A) -> NoDup (group_locs A) ->
  In (g, Group lg es) A -> ~ In leaf (map fst es) ->
  leaf <> js "$type" -> JsString.eqb leaf (js "__proto__") = false ->
  token_at h0 out lt ->
  Forall (node_ok h0 out (set_prop h lg leaf (VObj lt)) lv)
    (add_leaf g (leaf, lt) A).
Proof.
  intros Hok Hnd Hgl Hin Hfree Htype Hproto Htok.
  induction A as [| [seg n] A IH]; [ destruct Hin | ].
  inversion Hok as [| ? ? Hhead Htail]; subst.
  cbn [add_leaf]. destruct (JsString.eqb seg g) eqn:Es.
  - apply eqb_eq in Es. subst seg.
    pose proof (node_at_head A g n _ Hnd Hin) as E. subst n.
    unfold group_locs in Hgl. cbn [flat_map node_locs snd app] in Hgl.
    inversion Hgl as [| ? ? Hlg _]; subst.
    destruct Hhead as [Hs [Hb [Hne [Hown [Hes [Hnde Hall]]]]]].
    cbn [fst snd] in *.
    constructor.
    + split; [ exact Hs | ]. cbn [snd].
      split; [ now rewrite length_set_prop | ]. split; [ exact Hne | ].
      split.
      { rewrite own_set_prop_same by lia. rewrite Hown.
        rewrite set_fresh; [ | exact Hproto | now rewrite leaves_of_keys ].
        unfold leaves_of. now rewrite map_app. }
      split; [ now destruct es | ].
      split.
      { rewrite map_app. apply NoDup_app; [ exact Hnde | repeat constructor; intros [] | ].
        intros x Hx [<- | []]. contradiction. }
      apply Forall_app. split; [ exact Hall | ].
      constructor; [ split; [ exact Htype | exact Htok ] | constructor ].
    + rewrite Forall_forall in Htail |- *. intros sn Hsn.
      apply (node_ok_frame h0 out h); [ now rewrite length_set_prop | | now apply Htail ].
      intros l Hl _. rewrite own_set_prop_other; [ reflexivity | ].
      intros ->. apply Hlg. fold (group_locs A). unfold group_locs.
      apply in_flat_map. now exists sn.
  - apply eqb_neq in Es.
    destruct Hin as [[= E _] | Hin]; [ contradiction | ].
    cbn [map fst] in Hnd. inversion Hnd as [| ? ? _ Hnd']; subst.
    unfold group_locs in Hgl. cbn [flat_map] in Hgl.
    apply NoDup_app_remove_l in Hgl as Hgl'.
    constructor; [| now apply IH ].
    apply (node_ok_frame h0 out h); [ now rewrite length_set_prop | | exact Hhead ].
    intros l Hl _. rewrite own_set_prop_other; [ reflexivity | ].
    intros ->. unfold node_locs in Hl. cbn [snd] in Hl.
    destruct n as [lt' | lg' es']; [ destruct Hl | ].
    destruct Hl as [-> | []]. cbn [node_locs snd app] in Hgl.
    inversion Hgl as [| ? ? Hx _]; subst. apply Hx.
    exact (in_group_locs A g lg es Hin).
Qed.

(** A path of three segments that clashes with no path of the tree: the
    token becomes a leaf of its group, which is created when the tree
    has none at the segment. *)
Lemma step_three (h0 h : heap) (out : loc) (A : tree) (g leaf : jsstring)
    (lt : loc) :
  repr h0 out h A -> token_at h0 out lt ->
  plain_path [js "vscode"; g; leaf] = true ->
  no_token_field [js "vscode"; g; leaf] = true ->
  (forall q, In q (map fst (tree_entries A)) ->
             clash [js "vscode"; g; leaf] q = false) ->
  exists h' A',
    setNested h (VObj out) [js "vscode"; g; leaf] (VObj lt) = Ok h'
    /\ repr h0 out h' A'
    /\ Permutation (tree_entries A')
         (tree_entries A ++ [([js "vscode"; g; leaf], lt)]).
Proof.
  intros [Hout [Hframe [Hnd [Hgl Hroot]]]] Htok Hplain Hfield Hind.
  destruct (three_segments g leaf Hplain Hfield) as [Hg [Hgt [Hproto Htype]]].
  pose proof (own_key_not_proto g Hg) as Hgp.
  destruct A as [| a A0].
  - (* the first path: [vscode] and the group are created *)
    exists (set_prop
              (set_prop
                 (fst (alloc (set_prop (fst (alloc h)) out (js "vscode")
                                (VObj (length h)))))
                 (length h) g (VObj (S (length h))))
              (S (length h)) leaf (VObj lt)),
      [(g, Group (S (length h)) [(leaf, lt)])].
    split.
    { cbn [setNested]. rewrite descend_fresh;
        [ | reflexivity | now rewrite Hroot ].
      rewrite descend_fresh; [ | exact Hg | ].
      2:{ own_simpl. now rewrite own_beyond by lia. }
      len_simpl. now apply put_plain. }
    split; [| apply Permutation_refl ].
    split; [ len_simpl; lia | ].
    split; [ intros l Hl; own_simpl; now apply Hframe | ].
    split; [ repeat constructor; intros [] | ].
    split; [ repeat constructor; intros [] | ].
    exists (length h).
    split; [ own_simpl; rewrite Hroot; now apply set_empty | ].
    split; [ len_simpl; lia | ].
    split.
    { own_simpl. rewrite own_beyond by lia. now apply set_empty. }
    constructor; [| constructor ].
    split; [ exact Hgt | ]. cbn [snd].
    split; [ len_simpl; lia | ].
    split; [ lia | ].
    split.
    { own_simpl. rewrite own_beyond by lia. now apply set_empty. }
    split; [ discriminate | ].
    split; [ repeat constructor; intros [] | ].
    constructor; [ split; [ exact Htype | exact Htok ] | constructor ].
  - destruct Hroot as [lv [Hroot [Hlv [Hprops Hok]]]].
    set (A := a :: A0) in *.
    assert (Hd1 : descend h (VObj out) (js "vscode") = Ok (h, VObj lv))
      by (apply descend_found; [ reflexivity | rewrite Hroot; apply get_single ]).
    destruct (Obj.get (props_of A) g) as [v |] eqn:E.
    + (* the segment is taken: by a group, which gets the leaf *)
      apply get_some_in in E. apply in_map_iff in E.
      destruct E as [[g' n] [[= -> <-] Hn]].
      destruct n as [lt' | lg es].
      { exfalso. specialize (Hind _ (leaf_entry A g lt' Hn)).
        unfold clash in Hind.
        change [js "vscode"; g; leaf] with ([js "vscode"; g] ++ [leaf]) in Hind.
        rewrite is_prefix_app in Hind. now rewrite orb_true_r in Hind. }
      assert (Hfree : ~ In leaf (map fst es)).
      { intros Hl. specialize (Hind _ (group_entry A g leaf lg es Hn Hl)).
        unfold clash in Hind. now rewrite is_prefix_refl in Hind. }
      pose proof (proj1 (Forall_forall _ _) Hok _ Hn) as [_ Hgrp].
      cbn [snd] in Hgrp. destruct Hgrp as [Hlg [Hne [Hown _]]].
      exists (set_prop h lg leaf (VObj lt)), (add_leaf g (leaf, lt) A).
      split.
      { cbn [setNested]. rewrite Hd1. rewrite (descend_found h lv lg);
          [ now apply put_plain | exact Hg | ].
        rewrite Hprops. apply in_get_some; [ now rewrite props_of_keys | ].
        apply in_map_iff. now exists (g, Group lg es). }
      split; [| now apply (add_leaf_entries g leaf lt lg es) ].
      split; [ now rewrite length_set_prop | ].
      split; [ intros l Hl; own_simpl; now apply Hframe | ].
      split; [ now rewrite add_leaf_keys | ].
      split; [ now rewrite add_leaf_locs | ].
      destruct (add_leaf_cons g (leaf, lt) a A0) as [a' [A' Ea]].
      fold A in Ea. rewrite Ea. rewrite <- Ea. exists lv.
      split; [ now own_simpl | ].
      split; [ now rewrite length_set_prop | ].
      split; [ own_simpl; now rewrite add_leaf_props | ].
      now apply (add_leaf_ok h0 h out lv A g leaf lt lg es).
    + (* the segment is free: a new group with the leaf *)
      apply get_none_keys in E. rewrite props_of_keys in E.
      exists (set_prop (set_prop (fst (alloc h)) lv g (VObj (length h)))
                (length h) leaf (VObj lt)),
        (A ++ [(g, Group (length h) [(leaf, lt)])]).
      split.
      { cbn [setNested]. rewrite Hd1. rewrite descend_fresh;
          [ now apply put_plain | exact Hg | ].
        rewrite Hprops. apply get_none_keys. now rewrite props_of_keys. }
      split; [| rewrite tree_entries_app; apply Permutation_refl ].
      split; [ len_simpl; lia | ].
      split; [ intros l Hl; own_simpl; now apply Hframe | ].
      split.
      { rewrite map_app. apply NoDup_app; [ exact Hnd | repeat constructor; intros [] | ].
        intros x Hx [<- | []]. contradiction. }
      split.
      { rewrite group_locs_app. apply NoDup_app;
          [ exact Hgl | repeat constructor; intros [] | ].
        intros x Hx [<- | []].
        destruct (group_locs_bound h0 out h lv A _ Hok Hx). lia. }
      subst A. cbn [app]. exists lv.
      split; [ now own_simpl | ].
      split; [ len_simpl; lia | ].
      split.
      { own_simpl. rewrite Hprops.
        rewrite set_fresh; [ | exact Hgp | now rewrite props_of_keys ].
        unfold props_of. cbn [map]. now rewrite map_app. }
      change (a :: A0 ++ [(g, Group (length h) [(leaf, lt)])])
        with ((a :: A0) ++ [(g, Group (length h) [(leaf, lt)])]).
      apply Forall_app. split.
      * rewrite Forall_forall in Hok |- *. intros sn Hsn.
        apply (node_ok_frame h0 out h);
          [ len_simpl; lia | | now apply Hok ].
        intros l Hl Hne.
        assert (Hb : out < l < length h).
        { apply (group_locs_bound h0 out h lv (a :: A0));
            [ now apply Forall_forall | ].
          unfold group_locs. apply in_flat_map. now exists sn. }
        now own_simpl.
      * constructor; [| constructor ].
        split; [ exact Hgt | ]. cbn [snd].
        split; [ len_simpl; lia | ].
        split; [ lia | ].
        split.
        { own_simpl. rewrite own_beyond by lia. now apply set_empty. }
        split; [ discriminate | ].
        split; [ repeat constructor; intros [] | ].
        constructor; [ split; [ exact Htype | exact Htok ] | constructor ].
Qed.

Lemma step_key (h0 h : heap) (out : loc) (A : tree) (k : jsstring) (lt : loc) :
  repr h0 out h A -> token_at h0 out lt ->
  plain_path (toTokenPath k) = true ->
  no_token_field (toTokenPath k) = true ->
  (forall q, In q (map fst (tree_entries A)) -> clash (toTokenPath k) q = false) ->
  exists h' A',
    setNested h (VObj out) (toTokenPath k) (VObj lt) = Ok h'
    /\ repr h0 out h' A'
    /\ Permutation (tree_entries A') (tree_entries A ++ [(toTokenPath k, lt)]).
Proof.
  intros Hrepr Htok Hplain Hfield Hind.
  destruct (toTokenPath_shape k) as [[seg E] | [g [leaf E]]]; rewrite E in *.
  - destruct (step_two h0 h out A seg lt Hrepr Htok Hplain Hfield Hind)
      as [h' [Hrun Hrepr']].
    exists h', (A ++ [(seg, Leaf lt)]). split; [ exact Hrun | ].
    split; [ exact Hrepr' | ]. rewrite tree_entries_app. apply Permutation_refl.
  - exact (step_three h0 h out A g leaf lt Hrepr Htok Hplain Hfield Hind).
Qed.

(* ------------------------------------------------------------------ *)
(** *** The loop of the nester *)

(** The path of a key and the token the flat map has for it. *)
Definition entry_of (flatMap : object) (k : jsstring) : list jsstring * loc :=
  (toTokenPath k,
   match Obj.get flatMap k with
   | Some (VObj lt) => lt
   | _ => 0
   end).

Lemma clash_sym (p q : list jsstring) : clash p q = clash q p.
Proof. unfold clash. apply orb_comm. Qed.

Lemma nest_keys_tree (h0 : heap) (out : loc) (flatMap : object)
    (ks : list jsstring) (h : heap) (A : tree) :
  repr h0 out h A ->
  (forall k, In k ks ->
     exists lt, Obj.get flatMap k = Some (VObj lt) /\ token_at h0 out lt) ->
  forallb plain_key ks = true ->
  forallb (fun k => no_token_field (toTokenPath k)) ks = true ->
  independent (map toTokenPath ks) = true ->
  (forall q k, In q (map fst (tree_entries A)) -> In k ks ->
               clash (toTokenPath k) q = false) ->
  exists h' A',
    nest_keys h flatMap out ks = Ok h'
    /\ repr h0 out h' A'
    /\ Permutation (tree_entries A') (tree_entries A ++ map (entry_of flatMap) ks).
Proof.
  revert h A. induction ks as [| k ks IH]; intros h A Hrepr Htok Hplain Hfield Hind Hold.
  - exists h, A. split; [ reflexivity | ]. split; [ exact Hrepr | ].
    cbn [map]. rewrite app_nil_r. apply Permutation_refl.
  - cbn [forallb] in Hplain, Hfield. cbn [map independent] in Hind.
    apply andb_true_iff in Hplain. destruct Hplain as [Hk Hplain].
    apply andb_true_iff in Hfield. destruct Hfield as [Hf Hfield].
    apply andb_true_iff in Hind. destruct Hind as [Hnew Hind].
    destruct (plain_key_parts k Hk) as [Hown Hpath].
    destruct (Htok k (or_introl eq_refl)) as [lt [Hget Hlt]].
    destruct (step_key h0 h out A k lt Hrepr Hlt Hpath Hf)
      as [h1 [A1 [Hrun [Hrepr1 Hperm1]]]].
    { intros q Hq. apply (Hold q k Hq). now left. }
    destruct (IH h1 A1 Hrepr1) as [h' [A' [Hrun' [Hrepr' Hperm']]]];
      try assumption.
    { intros k' Hk'. apply Htok. now right. }
    { intros q k' Hq Hk'.
      apply (Permutation_in _ (Permutation_map fst Hperm1)) in Hq.
      rewrite map_app in Hq. apply in_app_iff in Hq.
      destruct Hq as [Hq | [<- | []]].
      - apply (Hold q k' Hq). now right.
      - cbn [fst]. rewrite clash_sym.
        rewrite forallb_forall in Hnew.
        specialize (Hnew (toTokenPath k') (in_map _ _ _ Hk')).
        now apply negb_true_iff in Hnew. }
    exists h', A'. split.
    { cbn [nest_keys]. rewrite Hown, Hget. cbn [truthy]. now rewrite Hrun. }
    split; [ exact Hrepr' | ].
    eapply Permutation_trans; [ exact Hperm' | ].
    cbn [map]. unfold entry_of at 2. rewrite Hget.
    change (tree_entries A ++ (toTokenPath k, lt) :: map (entry_of flatMap) ks)
      with (tree_entries A ++ [(toTokenPath k, lt)] ++ map (entry_of flatMap) ks).
    rewrite app_assoc. now apply Permutation_app_tail.
Qed.

(* ------------------------------------------------------------------ *)
(** *** Reading the tree: paths and the count *)

Lemma tree_lookup (h0 : heap) (out : loc) (h : heap) (A : tree)
    (q : list jsstring) (l : loc) :
  repr h0 out h A -> In (q, l) (tree_entries A) ->
  lookup h (VObj out) q = VObj l.
Proof.
  intros [Hout [Hframe [Hnd [Hgl Hroot]]]] Hin.
  unfold tree_entries in Hin. apply in_flat_map in Hin.
  destruct Hin as [[seg n] [Hsn Hq]].
  destruct A as [| a A0]; [ destruct Hsn | ].
  destruct Hroot as [lv [Hroot [Hlv [Hprops Hok]]]].
  set (A := a :: A0) in *.
  assert (Hseg : get_prop h lv seg = node_value n).
  { apply get_prop_some. rewrite Hprops.
    apply in_get_some; [ now rewrite props_of_keys | ].
    apply in_map_iff. now exists (seg, n). }
  assert (Hv : get_prop h out (js "vscode") = VObj lv)
    by (apply get_prop_some; rewrite Hroot; apply get_single).
  unfold node_entries in Hq. cbn [fst snd] in Hq.
  destruct n as [lt | lg es].
  - destruct Hq as [[= <- <-] | []]. cbn [lookup].
    change (get_prop h out _) with (get_prop h out (js "vscode")).
    now rewrite Hv, Hseg.
  - apply in_map_iff in Hq. destruct Hq as [[leaf lt] [[= <- <-] He]].
    cbn [lookup].
    change (get_prop h out _) with (get_prop h out (js "vscode")).
    rewrite Hv, Hseg. cbn [node_value].
    pose proof (proj1 (Forall_forall _ _) Hok _ Hsn) as [_ Hgrp].
    cbn [snd] in Hgrp. destruct Hgrp as [_ [_ [Hown [_ [Hnde _]]]]].
    apply get_prop_some. rewrite Hown.
    apply in_get_some; [ now rewrite leaves_of_keys | ].
    apply in_map_iff. now exists (leaf, lt).
Qed.

Lemma countLeafTokens_object (fuel : nat) (h : heap) (l : loc) :
  countLeafTokens (S fuel) h (VObj l)
  = if is_token h l then Some 1%Z
    else fold_left
           (fun (n : option Z) (v : value) =>
              match n, countLeafTokens fuel h v with
              | Some n, Some m => Some (n + m)%Z
              | _, _ => None
              end)
           (map snd (own h l)) (Some 0%Z).
Proof. reflexivity. Qed.

Lemma countLeafTokens_token (fuel : nat) (h : heap) (l : loc) :
  is_token h l = true -> countLeafTokens fuel h (VObj l) = Some 1%Z.
Proof.
  intros H. unfold is_token in H.
  destruct fuel; cbn [countLeafTokens]; now rewrite H.
Qed.

Lemma not_token (h : heap) (l : loc) :
  ~ In (js "$type") (Obj.keys (own h l)) -> is_token h l = false.
Proof.
  intros H. apply get_none_keys in H. unfold is_token.
  now rewrite (get_prop_none _ _ _ H).
Qed.

Lemma token_kept (h0 h : heap) (out lt : loc) :
  (forall l, l < out -> own h l = own h0 l) ->
  token_at h0 out lt -> is_token h lt = true.
Proof.
  intros Hframe [Hlt Htok]. unfold is_token, get_prop in *.
  now rewrite Hframe.
Qed.

Lemma count_leaves (fuel : nat) (h0 h : heap) (out : loc)
    (es : list (jsstring * loc)) (a : Z) :
  (forall l, l < out -> own h l = own h0 l) ->
  Forall (fun e => fst e <> js "$type" /\ token_at h0 out (snd e)) es ->
  fold_left
    (fun (n : option Z) (v : value) =>
       match n, countLeafTokens fuel h v with
       | Some n, Some m => Some (n + m)%Z
       | _, _ => None
       end)
    (map snd (leaves_of es)) (Some a)
  = Some (a + Z.of_nat (length es))%Z.
Proof.
  intros Hframe Hall. revert a.
  induction Hall as [| e es [_ He] _ IH]; intros a.
  - cbn. f_equal. lia.
  - cbn [leaves_of map fold_left snd].
    rewrite (countLeafTokens_token _ _ _ (token_kept h0 h out _ Hframe He)).
    unfold leaves_of in IH. rewrite IH. f_equal. cbn [length]. lia.
Qed.

Lemma count_nodes (fuel : nat) (h0 h : heap) (out lv : loc) (A : tree) (a : Z) :
  (forall l, l < out -> own h l = own h0 l) ->
  Forall (node_ok h0 out h lv) A ->
  fold_left
    (fun (n : option Z) (v : value) =>
       match n, countLeafTokens (S fuel) h v with
       | Some n, Some m => Some (n + m)%Z
       | _, _ => None
       end)
    (map snd (props_of A)) (Some a)
  = Some (a + Z.of_nat (length (tree_entries A)))%Z.
Proof.
  intros Hframe Hall. revert a.
  induction Hall as [| [seg n] A [_ Hn] _ IH]; intros a.
  - cbn. f_equal. lia.
  - cbn [props_of map fold_left fst snd]. cbn [snd] in Hn.
    unfold tree_entries. cbn [flat_map]. rewrite length_app.
    fold (tree_entries A). unfold node_entries. cbn [fst snd].
    destruct n as [lt | lg es]; cbn [node_value].
    + rewrite (countLeafTokens_token _ _ _ (token_kept h0 h out _ Hframe Hn)).
      unfold props_of in IH. rewrite IH. f_equal. cbn [length]. lia.
    + destruct Hn as [_ [_ [Hown [_ [_ Hes]]]]].
      rewrite countLeafTokens_object.
      rewrite not_token.
      2:{ rewrite Hown, leaves_of_keys. intros Hin. apply in_map_iff in Hin.
          destruct Hin as [e [E He]]. rewrite Forall_forall in Hes.
          now destruct (Hes e He). }
      rewrite Hown. rewrite (count_leaves fuel h0 h out es 0 Hframe Hes).
      unfold props_of in IH. rewrite IH. f_equal. rewrite length_map. lia.
Qed.

Lemma tree_count (h0 : heap) (out : loc) (h : heap) (A : tree) (fuel : nat) :
  repr h0 out h A -> 3 <= fuel ->
  countLeafTokens fuel h (VObj out) = Some (Z.of_nat (length (tree_entries A))).
Proof.
  intros [Hout [Hframe [Hnd [Hgl Hroot]]]] Hfuel.
  destruct fuel as [| [| [| fuel]]]; try lia.
  rewrite countLeafTokens_object.
  destruct A as [| a A0].
  - rewrite not_token by (rewrite Hroot; intros []). now rewrite Hroot.
  - destruct Hroot as [lv [Hroot [Hlv [Hprops Hok]]]].
    set (A := a :: A0) in *.
    rewrite not_token.
    2:{ rewrite Hroot. cbn. intros [E | []]. discriminate E. }
    rewrite Hroot. cbn [map snd fold_left].
    rewrite countLeafTokens_object.
    rewrite not_token.
    2:{ rewrite Hprops, props_of_keys. intros Hin. apply in_map_iff in Hin.
        destruct Hin as [sn [E Hsn]]. rewrite Forall_forall in Hok.
        now destruct (Hok sn Hsn). }
    rewrite Hprops.
    now rewrite (count_nodes fuel h0 h out lv A 0 Hframe Hok).
Qed.

Lemma repr_fresh (h : heap) : repr h (length h) (fst (alloc h)) [].
Proof.
  split; [ rewrite length_alloc; lia | ].
  split; [ intros l _; apply own_alloc | ].
  split; [ constructor | ]. split; [ constructor | ].
  apply own_fresh.
Qed.

(** Independent paths: when no two of the keys have paths of which
    one leads through the other (or the same path), the nester returns
    a tree in which every key's token is found at the key's path, it
    leaves the objects it was given as they were, and
    [countLeafTokens] returns on the tree, with the number of keys.  The
    keys are such that the model follows them, each has a token in the
    flat map (an object with truthy [$type] and [$value]), and no path
    segment is [$type]. *)
Theorem nest_independent (h : heap) (flatMap : object)
    (orderedKeys : option (list jsstring)) :
  (forall k, In k (keys_walked flatMap orderedKeys) ->
     exists lt, Obj.get flatMap k = Some (VObj lt)
                /\ lt < length h /\ is_token h lt = true) ->
  forallb plain_key (keys_walked flatMap orderedKeys) = true ->
  forallb (fun k => no_token_field (toTokenPath k))
    (keys_walked flatMap orderedKeys) = true ->
  independent (map toTokenPath (keys_walked flatMap orderedKeys)) = true ->
  exists h',
    nestFlatTokens h flatMap orderedKeys = Ok (h', length h)
    /\ (forall fuel, 3 <= fuel ->
          countLeafTokens fuel h' (VObj (length h))
          = Some (Z.of_nat (length (keys_walked flatMap orderedKeys))))
    /\ (forall k, In k (keys_walked flatMap orderedKeys) ->
          Obj.get flatMap k
          = Some (lookup h' (VObj (length h)) (toTokenPath k)))
    /\ (forall l, l < length h -> own h' l = own h l).
Proof.
  intros Htok Hplain Hfield Hind.
  assert (Htok' : forall k, In k (keys_walked flatMap orderedKeys) ->
            exists lt, Obj.get flatMap k = Some (VObj lt)
                       /\ token_at h (length h) lt).
  { intros k Hk. destruct (Htok k Hk) as [lt [Hget [Hlt Ht]]].
    exists lt. split; [ exact Hget | now split ]. }
  destruct (nest_keys_tree h (length h) flatMap
              (keys_walked flatMap orderedKeys) (fst (alloc h)) []
              (repr_fresh h) Htok' Hplain Hfield Hind)
    as [h' [A' [Hrun [Hrepr Hperm]]]].
  { intros q k []. }
  cbn [tree_entries flat_map app] in Hperm.
  exists h'. split; [ now apply nestFlatTokens_run | ].
  split.
  { intros fuel Hfuel. rewrite (tree_count h (length h) h' A' fuel Hrepr Hfuel).
    rewrite (Permutation_length Hperm). now rewrite length_map. }
  split.
  { intros k Hk. destruct (Htok k Hk) as [lt [Hget _]]. rewrite Hget. f_equal.
    symmetry. apply (tree_lookup h (length h) h' A' _ lt Hrepr).
    apply (Permutation_in _ (Permutation_sym Hperm)).
    apply in_map_iff. exists k. split; [| exact Hk ].
    unfold entry_of. now rewrite Hget. }
  destruct Hrepr as [_ [Hframe _]]. exact Hframe.
Qed.

(** Two token objects with their values, and a flat map of three
    variables; the placeholder-like first token is shared by two. *)
Definition example_token_heap : heap :=
  [ [(js "$type", VStr (js "color")); (js "$value", VObj 1)];
    [(js "hex", VStr (js "#CCCCCC"))];
    [(js "$type", VStr (js "color")); (js "$value", VObj 3)];
    [(js "hex", VStr (js "#1E1E1E"))] ].

Definition example_token_flat : object :=
  [(js "--vscode-foreground", VObj 0);
   (js "--vscode-editor-background", VObj 2);
   (js "--vscode-editor-foreground", VObj 0)].

Lemma nest_independent_witness :
  exists h',
    nestFlatTokens example_token_heap example_token_flat None = Ok (h', 4)
    /\ countLeafTokens 3 h' (VObj 4) = Some 3%Z
    /\ lookup h' (VObj 4) [js "vscode"; js "editor"; js "background"] = VObj 2.
Proof.
  destruct (nest_independent example_token_heap example_token_flat None)
    as [h' [Hrun [Hcount [Hlook _]]]].
  - intros k [<- | [<- | [<- | []]]];
      eexists; (split; [ reflexivity | split; [ cbn; lia | reflexivity ] ]).
  - reflexivity.
  - reflexivity.
  - reflexivity.
  - exists h'. split; [ exact Hrun | ].
    split; [ exact (Hcount 3 (le_n 3)) | ].
    specialize (Hlook (js "--vscode-editor-background")
                  (or_intror (or_introl eq_refl))).
    injection Hlook as Hlook. symmetry. exact Hlook.
Defined.

(* ================================================================== *)
(** ** The range of the components *)

Lemma ltb_leb (x y : number) : ltb x y = true -> leb x y = true.
Proof.
  unfold ltb, leb, SFltb, SFleb. now destruct (SFcompare x y) as [[| |] |].
Qed.

(** [clamp01] gives a number from 0 to 1, whatever number it is given;
    of NaN it gives NaN. *)
Lemma clamp01_range (x : number) :
  clamp01 x = (if is_nan x then NaN else clamp01 x)
  /\ (is_nan x = false -> in01 (clamp01 x) = true).
Proof.
  split; [ now destruct x | ].
  intros Hx. unfold clamp01.
  assert (Hy : exists y, Math_max (of_Z 0) x = y /\ is_nan y = false
                         /\ leb (of_Z 0) y = true).
  { unfold Math_max. change (of_Z 0) with (S754_zero false).
    rewrite Hx. cbn [is_nan orb].
    destruct (ltb (S754_zero false) x) eqn:E1.
    - exists x. split; [ reflexivity | ]. split; [ exact Hx | now apply ltb_leb ].
    - destruct (ltb x (S754_zero false)); exists (S754_zero false); now repeat split. }
  destruct Hy as [y [-> [Hn Hy]]].
  unfold Math_min. rewrite Hn.
  replace (is_nan (of_Z 1)) with false by reflexivity. cbn [orb].
  unfold in01.
  destruct (ltb (of_Z 1) y) eqn:E1; [ reflexivity | ].
  destruct (ltb y (of_Z 1)) eqn:E2.
  - rewrite Hy. now rewrite (ltb_leb _ _ E2).
  - destruct y as [[|] | | |]; reflexivity.
Qed.

Definition in_range (x : number) : bool := is_nan x || in01 x.

Lemma clamp01_in_range (x : number) : in_range (clamp01 x) = true.
Proof.
  unfold in_range. destruct (is_nan x) eqn:E.
  - destruct x; try discriminate E. reflexivity.
  - rewrite (proj2 (clamp01_range x) E). apply orb_true_r.
Qed.

(** Whatever the parser accepts, no component and no alpha lies
    outside the interval from 0 to 1: each is in the interval or is NaN
    (which a channel text that is no number gives).  [clamp01] maps every
    number into the interval and NaN to NaN. *)
Theorem parse_components_range (v : jsstring) (c : NormalizedColor) :
  parseColor v = Some c ->
  in_range (r c) = true /\ in_range (g c) = true
  /\ in_range (b c) = true /\ in_range (a c) = true.
Proof.
  unfold parseColor.
  destruct (JsString.eqb (trim v) (js "transparent")).
  { intros [= <-]. now repeat split. }
  destruct (match_hex (trim v)) as [h |] eqn:Eh.
  - intros [= <-].
    destruct (match_hex_digits _ _ Eh) as [_ [Hd Hl]].
    pose proof (color_of_hex_normalized h Hd Hl) as Hn.
    unfold normalized in Hn.
    repeat match type of Hn with
    | (_ && _)%bool = true =>
        let H' := fresh "H" in
        apply andb_true_iff in Hn; destruct Hn as [Hn H']
    end.
    unfold in_range.
    repeat split;
      match goal with H : in01 ?x = true |- (_ || in01 ?x)%bool = true =>
        rewrite H; apply orb_true_r
      end.
  - destruct (match_rgb (trim v)) as [[[[c1 c2] c3] c4] |]; [| discriminate ].
    intros [= <-]. unfold color_of_rgb. cbn [r g b a].
    repeat split; apply clamp01_in_range.
Qed.

Lemma parse_components_range_witness :
  in_range (r (color_of_rgb (js "300") (js "1.2.3") (js "0") (Some (js "7")))) = true
  /\ in_range (g (color_of_rgb (js "300") (js "1.2.3") (js "0") (Some (js "7")))) = true
  /\ in_range (b (color_of_rgb (js "300") (js "1.2.3") (js "0") (Some (js "7")))) = true
  /\ in_range (a (color_of_rgb (js "300") (js "1.2.3") (js "0") (Some (js "7")))) = true.
Proof.
  apply (parse_components_range (js "rgba(300, 1.2.3, 0, 7)")).
  vm_compute. reflexivity.
Defined.

(* ================================================================== *)
(** ** Counting on any tree of the nester *)

(** Paths may lead through one another here: a token can sit where a
    later path has its group, and then receives the later token as a
    property. *)

Section Shape.

Variable h0 : heap.
Variable out : loc.

(** A value of the flat map: a token older than [out]. *)
Definition token_ref (v : value) : Prop :=
  exists lt, v = VObj lt /\ lt < out /\ is_token h0 lt = true.

(** A group the nester created holds tokens only. *)
Definition group_ok (h : heap) (l : loc) : Prop :=
  forall k v, In (k, v) (own h l) -> token_ref v.

(** Under [vscode]: a token, or a group the nester created. *)
Definition child_ok (h : heap) (lv : loc) (v : value) : Prop :=
  exists l, v = VObj l /\ l < length h /\ l <> lv
    /\ ((l < out /\ is_token h0 l = true) \/ (out < l /\ group_ok h l)).

(** The heap while the nester fills [out]: the tokens it was given are
    still tokens, and [out] is empty or has the one property [vscode]. *)
Definition shape (h : heap) : Prop :=
  out < length h
  /\ (forall l, l < out -> is_token h0 l = true -> is_token h l = true)
  /\ (own h out = []
      \/ exists lv, own h out = [(js "vscode", VObj lv)]
           /\ out < lv < length h
           /\ forall k v, In (k, v) (own h lv) -> child_ok h lv v).

End Shape.

(** The sum of [countLeafTokens] over the values of an object. *)
Definition sum_counts (fuel : nat) (h : heap) (vs : list value) (a : option Z)
  : option Z :=
  fold_left
    (fun (n : option Z) (v : value) =>
       match n, countLeafTokens fuel h v with
       | Some n, Some m => Some (n + m)%Z
       | _, _ => None
       end)
    vs a.

Lemma sum_counts_cons (fuel : nat) (h : heap) (v : value) (vs : list value)
    (a : option Z) :
  sum_counts fuel h (v :: vs) a
  = sum_counts fuel h vs
      match a, countLeafTokens fuel h v with
      | Some n, Some m => Some (n + m)%Z
      | _, _ => None
      end.
Proof. reflexivity. Qed.

Lemma sum_counts_none (fuel : nat) (h : heap) (vs : list value) :
  sum_counts fuel h vs None = None.
Proof. induction vs as [| v vs IH]; [ reflexivity | exact IH ]. Qed.

Lemma sum_counts_more (fuel fuel' : nat) (h : heap) (vs : list value)
    (a : option Z) (n : Z) :
  (forall v m, In v vs -> countLeafTokens fuel h v = Some m ->
               countLeafTokens fuel' h v = Some m) ->
  sum_counts fuel h vs a = Some n -> sum_counts fuel' h vs a = Some n.
Proof.
  revert a. induction vs as [| v vs IH]; intros a H E; [ exact E | ].
  rewrite sum_counts_cons in *.
  destruct a as [a |]; [| now rewrite sum_counts_none in E ].
  destruct (countLeafTokens fuel h v) as [m |] eqn:Em;
    [| now rewrite sum_counts_none in E ].
  rewrite (H v m (or_introl eq_refl) Em).
  apply IH; [ | exact E ]. intros v' m' Hv'. apply H. now right.
Qed.

(** More fuel gives the same count. *)
Lemma countLeafTokens_more (fuel : nat) (h : heap) :
  forall (v : value) (n : Z) (fuel' : nat),
    fuel <= fuel' ->
    countLeafTokens fuel h v = Some n -> countLeafTokens fuel' h v = Some n.
Proof.
  induction fuel as [| fuel IH]; intros v n fuel' Hle E.
  - destruct v as [| | b | x | s | l | f]; try (destruct fuel'; exact E).
    cbn [countLeafTokens] in E. fold (is_token h l) in E.
    destruct (is_token h l) eqn:Et; [| discriminate ].
    rewrite <- E. now apply countLeafTokens_token.
  - destruct v as [| | b | x | s | l | f]; try (destruct fuel'; exact E).
    destruct fuel' as [| fuel']; [ lia | ].
    rewrite countLeafTokens_object in *.
    destruct (is_token h l); [ exact E | ].
    apply (sum_counts_more fuel fuel'); [ | exact E ].
    intros v m _. apply IH. lia.
Qed.

Lemma truthy_field_set (o : object) (k f : jsstring) (x : loc) :
  JsString.eqb k (js "__proto__") = false ->
  truthy (match Obj.get o f with Some v => v | None => VUndefined end) = true ->
  truthy (match Obj.get (Obj.set o k (VObj x)) f with
          | Some v => v
          | None => VUndefined
          end) = true.
Proof.
  intros Hk H. destruct (list_eq_dec N.eq_dec f k) as [-> | Hne].
  - now rewrite get_set_same.
  - now rewrite get_set_other.
Qed.

(** Assigning an object to a property of a token leaves it a token. *)
Lemma is_token_set (h : heap) (l l' : loc) (k : jsstring) (x : loc) :
  l < length h -> JsString.eqb k (js "__proto__") = false ->
  is_token h l' = true -> is_token (set_prop h l k (VObj x)) l' = true.
Proof.
  intros Hl Hk H. unfold is_token, get_prop in *.
  destruct (Nat.eq_dec l' l) as [-> | Hne].
  - rewrite own_set_prop_same by exact Hl.
    apply andb_true_iff in H. destruct H as [H1 H2].
    apply andb_true_iff. split; now apply truthy_field_set.
  - now rewrite own_set_prop_other.
Qed.

Lemma is_token_frame (h h' : heap) (l : loc) :
  own h' l = own h l -> is_token h' l = is_token h l.
Proof. intros E. unfold is_token, get_prop. now rewrite E. Qed.

Lemma child_ok_frame (h0 h h' : heap) (out lv : loc) (v : value) :
  length h <= length h' ->
  (forall l, out < l < length h -> l <> lv ->
             group_ok h0 out h l -> group_ok h0 out h' l) ->
  child_ok h0 out h lv v -> child_ok h0 out h' lv v.
Proof.
  intros Hlen Hframe [l [-> [Hl [Hne Hcase]]]].
  exists l. split; [ reflexivity | ]. split; [ lia | ]. split; [ exact Hne | ].
  destruct Hcase as [Hold | [Hnew Hg]]; [ now left | right ].
  split; [ exact Hnew | ]. apply Hframe; [ lia | exact Hne | exact Hg ].
Qed.

Lemma group_ok_single (h0 : heap) (out : loc) (h : heap) (l : loc)
    (leaf : jsstring) (lt : loc) :
  own h l = [(leaf, VObj lt)] -> lt < out -> is_token h0 lt = true ->
  group_ok h0 out h l.
Proof.
  intros E Hlt Htok k v. rewrite E. intros [[= <- <-] | []].
  exists lt. now repeat split.
Qed.

Lemma group_ok_set (h0 : heap) (out : loc) (h h' : heap) (l : loc)
    (leaf : jsstring) (lt : loc) :
  own h' l = Obj.set (own h l) leaf (VObj lt) ->
  lt < out -> is_token h0 lt = true ->
  group_ok h0 out h l -> group_ok h0 out h' l.
Proof.
  intros E Hlt Htok Hg k v. rewrite E. intros Hin.
  apply in_set in Hin. destruct Hin as [[-> [-> _]] | Hin].
  - exists lt. now repeat split.
  - now apply (Hg k v).
Qed.

Lemma plain_two (seg : jsstring) :
  plain_path [js "vscode"; seg] = true ->
  JsString.eqb seg (js "__proto__") = false.
Proof.
  cbn [plain_path]. intros Hp.
  apply andb_true_iff in Hp. destruct Hp as [_ Hp]. now apply proto_not_plain.
Qed.

Lemma plain_three (g leaf : jsstring) :
  plain_path [js "vscode"; g; leaf] = true ->
  own_key g = true /\ JsString.eqb leaf (js "__proto__") = false.
Proof.
  cbn [plain_path]. intros Hp.
  apply andb_true_iff in Hp. destruct Hp as [_ Hp].
  apply andb_true_iff in Hp. destruct Hp as [Hg Hp].
  split; [ exact Hg | now apply proto_not_plain ].
Qed.

(** A path of two segments, whatever the tree holds. *)
Lemma shape_two (h0 h : heap) (out : loc) (seg : jsstring) (lt : loc) :
  shape h0 out h -> lt < out -> is_token h0 lt = true ->
  plain_path [js "vscode"; seg] = true ->
  exists h',
    setNested h (VObj out) [js "vscode"; seg] (VObj lt) = Ok h'
    /\ shape h0 out h'.
Proof.
  intros [Hout [Htoks Hroot]] Hlt Htok Hplain.
  pose proof (plain_two seg Hplain) as Hproto.
  destruct Hroot as [Hroot | [lv [Hroot [Hlv Hch]]]].
  - exists (set_prop (set_prop (fst (alloc h)) out (js "vscode") (VObj (length h)))
              (length h) seg (VObj lt)).
    split.
    { cbn [setNested]. rewrite descend_fresh;
        [ | reflexivity | now rewrite Hroot ].
      now apply put_plain. }
    split; [ len_simpl; lia | ].
    split.
    { intros l Hl Ht. rewrite (is_token_frame h); [ now apply Htoks | ].
      now own_simpl. }
    right. exists (length h).
    split; [ own_simpl; rewrite Hroot; now apply set_empty | ].
    split; [ len_simpl; lia | ].
    intros k v. own_simpl. rewrite own_beyond by lia.
    rewrite set_empty by exact Hproto. intros [[= <- <-] | []].
    exists lt. split; [ reflexivity | ]. split; [ len_simpl; lia | ].
    split; [ lia | ]. left. now split.
  - exists (set_prop h lv seg (VObj lt)).
    split.
    { cbn [setNested]. rewrite (descend_found h out lv);
        [ | reflexivity | rewrite Hroot; apply get_single ].
      now apply put_plain. }
    split; [ now rewrite length_set_prop | ].
    split.
    { intros l Hl Ht. apply is_token_set; [ lia | exact Hproto | now apply Htoks ]. }
    right. exists lv.
    split; [ now own_simpl | ].
    split; [ now rewrite length_set_prop | ].
    intros k v. own_simpl. intros Hin.
    apply in_set in Hin. destruct Hin as [[-> [-> _]] | Hin].
    + exists lt. split; [ reflexivity | ]. split; [ len_simpl; lia | ].
      split; [ lia | ]. left. now split.
    + apply (child_ok_frame h0 h); [ len_simpl; lia | | now apply (Hch k) ].
      intros l Hl Hne Hg k' v'. own_simpl. apply Hg.
Qed.

(** A path of three segments: the group is new, or it is a group of
    the tree, or a token sits at its place and receives the property. *)
Lemma shape_three (h0 h : heap) (out : loc) (g leaf : jsstring) (lt : loc) :
  shape h0 out h -> lt < out -> is_token h0 lt = true ->
  plain_path [js "vscode"; g; leaf] = true ->
  exists h',
    setNested h (VObj out) [js "vscode"; g; leaf] (VObj lt) = Ok h'
    /\ shape h0 out h'.
Proof.
  intros [Hout [Htoks Hroot]] Hlt Htok Hplain.
  destruct (plain_three g leaf Hplain) as [Hg Hproto].
  pose proof (own_key_not_proto g Hg) as Hgp.
  destruct Hroot as [Hroot | [lv [Hroot [Hlv Hch]]]].
  - exists (set_prop
              (set_prop
                 (fst (alloc (set_prop (fst (alloc h)) out (js "vscode")
                                (VObj (length h)))))
                 (length h) g (VObj (S (length h))))
              (S (length h)) leaf (VObj lt)).
    split.
    { cbn [setNested]. rewrite descend_fresh;
        [ | reflexivity | now rewrite Hroot ].
      rewrite descend_fresh; [ | exact Hg | ].
      2:{ own_simpl. now rewrite own_beyond by lia. }
      len_simpl. now apply put_plain. }
    split; [ len_simpl; lia | ].
    split.
    { intros l Hl Ht. rewrite (is_token_frame h); [ now apply Htoks | ].
      now own_simpl. }
    right. exists (length h).
    split; [ own_simpl; rewrite Hroot; now apply set_empty | ].
    split; [ len_simpl; lia | ].
    intros k v. own_simpl. rewrite own_beyond by lia.
    rewrite set_empty by exact Hgp. intros [[= <- <-] | []].
    exists (S (length h)). split; [ reflexivity | ].
    split; [ len_simpl; lia | ]. split; [ lia | ].
    right. split; [ lia | ].
    apply (group_ok_single h0 out _ _ leaf lt); [ | exact Hlt | exact Htok ].
    own_simpl. rewrite own_beyond by lia. now apply set_empty.
  - assert (Hd1 : descend h (VObj out) (js "vscode") = Ok (h, VObj lv))
      by (apply descend_found; [ reflexivity | rewrite Hroot; apply get_single ]).
    destruct (Obj.get (own h lv) g) as [v |] eqn:E.
    + pose proof (get_some_in _ _ _ _ E) as Hin.
      destruct (Hch g v Hin) as [l [-> [Hl [Hne Hcase]]]].
      exists (set_prop h l leaf (VObj lt)).
      split.
      { cbn [setNested]. rewrite Hd1. rewrite (descend_found h lv l);
          [ now apply put_plain | exact Hg | exact E ]. }
      split; [ now rewrite length_set_prop | ].
      split.
      { intros l' Hl' Ht.
        apply is_token_set; [ exact Hl | exact Hproto | now apply Htoks ]. }
      right. exists lv.
      split.
      { rewrite own_set_prop_other; [ exact Hroot | ].
        destruct Hcase as [[Hold _] | [Hnew _]]; lia. }
      split; [ now rewrite length_set_prop | ].
      intros k v. rewrite own_set_prop_other by (intros Heq; now apply Hne).
      intros Hk.
      apply (child_ok_frame h0 h); [ len_simpl; lia | | now apply (Hch k) ].
      intros l' Hl' Hne' Hg'.
      destruct (Nat.eq_dec l' l) as [-> | Hother].
      * apply (group_ok_set h0 out h _ l leaf lt);
          [ now apply own_set_prop_same | exact Hlt | exact Htok | exact Hg' ].
      * intros k' v'. rewrite own_set_prop_other by exact Hother. apply Hg'.
    + exists (set_prop (set_prop (fst (alloc h)) lv g (VObj (length h)))
                (length h) leaf (VObj lt)).
      split.
      { cbn [setNested]. rewrite Hd1. rewrite descend_fresh;
          [ now apply put_plain | exact Hg | exact E ]. }
      split; [ len_simpl; lia | ].
      split.
      { intros l Hl Ht. rewrite (is_token_frame h); [ now apply Htoks | ].
        now own_simpl. }
      right. exists lv.
      split; [ now own_simpl | ].
      split; [ len_simpl; lia | ].
      intros k v. own_simpl. intros Hin.
      apply in_set in Hin. destruct Hin as [[-> [-> _]] | Hin].
      * exists (length h). split; [ reflexivity | ].
        split; [ len_simpl; lia | ]. split; [ lia | ].
        right. split; [ lia | ].
        apply (group_ok_single h0 out _ _ leaf lt); [ | exact Hlt | exact Htok ].
        own_simpl. rewrite own_beyond by lia. now apply set_empty.
      * apply (child_ok_frame h0 h); [ len_simpl; lia | | now apply (Hch k) ].
        intros l Hl Hne Hg' k' v'. own_simpl. apply Hg'.
Qed.

Lemma shape_key (h0 h : heap) (out : loc) (k : jsstring) (lt : loc) :
  shape h0 out h -> lt < out -> is_token h0 lt = true ->
  plain_path (toTokenPath k) = true ->
  exists h',
    setNested h (VObj out) (toTokenPath k) (VObj lt) = Ok h'
    /\ shape h0 out h'.
Proof.
  intros Hs Hlt Htok Hplain.
  destruct (toTokenPath_shape k) as [[seg E] | [g [leaf E]]]; rewrite E in *.
  - now apply shape_two.
  - now apply shape_three.
Qed.

Lemma nest_keys_shape (h0 : heap) (out : loc) (flatMap : object)
    (ks : list jsstring) (h : heap) :
  shape h0 out h ->
  (forall k, In k ks ->
     exists lt, Obj.get flatMap k = Some (VObj lt)
                /\ lt < out /\ is_token h0 lt = true) ->
  forallb plain_key ks = true ->
  exists h', nest_keys h flatMap out ks = Ok h' /\ shape h0 out h'.
Proof.
  revert h. induction ks as [| k ks IH]; intros h Hs Htok Hplain.
  - now exists h.
  - cbn [forallb] in Hplain.
    apply andb_true_iff in Hplain. destruct Hplain as [Hk Hplain].
    destruct (plain_key_parts k Hk) as [Hown Hpath].
    destruct (Htok k (or_introl eq_refl)) as [lt [Hget [Hlt Ht]]].
    destruct (shape_key h0 h out k lt Hs Hlt Ht Hpath) as [h1 [Hrun Hs1]].
    destruct (IH h1 Hs1) as [h' [Hrun' Hs']]; [ | exact Hplain | ].
    { intros k' Hk'. apply Htok. now right. }
    exists h'. split; [| exact Hs' ].
    cbn [nest_keys]. rewrite Hown, Hget. cbn [truthy]. now rewrite Hrun.
Qed.

Lemma shape_fresh (h : heap) : shape h (length h) (fst (alloc h)).
Proof.
  split; [ rewrite length_alloc; lia | ].
  split.
  - intros l Hl Ht. rewrite (is_token_frame h); [ exact Ht | apply own_alloc ].
  - left. apply own_fresh.
Qed.

(** The sum over values that all have a count. *)
Lemma sum_counts_some (fuel : nat) (h : heap) (vs : list value) (a : Z) :
  (forall v, In v vs ->
     exists m, countLeafTokens fuel h v = Some m /\ (0 <= m)%Z) ->
  (0 <= a)%Z ->
  exists n, sum_counts fuel h vs (Some a) = Some n /\ (0 <= n)%Z.
Proof.
  revert a. induction vs as [| v vs IH]; intros a H Ha.
  - now exists a.
  - rewrite sum_counts_cons.
    destruct (H v (or_introl eq_refl)) as [m [-> Hm]].
    apply IH; [ | lia ]. intros v' Hv'. apply H. now right.
Qed.

(** An object whose properties all have a count has one. *)
Lemma count_object (fuel : nat) (h : heap) (l : loc) :
  (forall k v, In (k, v) (own h l) ->
     exists m, countLeafTokens fuel h v = Some m /\ (0 <= m)%Z) ->
  exists n, countLeafTokens (S fuel) h (VObj l) = Some n /\ (0 <= n)%Z.
Proof.
  intros H. rewrite countLeafTokens_object.
  destruct (is_token h l); [ exists 1%Z; split; [ reflexivity | lia ] | ].
  apply sum_counts_some; [ | lia ].
  intros v Hv. apply in_map_iff in Hv. destruct Hv as [[k v'] [<- Hin]].
  now apply (H k).
Qed.

Lemma shape_count (h0 : heap) (out : loc) (h : heap) :
  shape h0 out h ->
  exists n, countLeafTokens 3 h (VObj out) = Some n /\ (0 <= n)%Z.
Proof.
  intros [Hout [Htoks Hroot]].
  apply count_object. intros k v Hin.
  destruct Hroot as [Hroot | [lv [Hroot [Hlv Hch]]]];
    [ rewrite Hroot in Hin; destruct Hin | ].
  rewrite Hroot in Hin. destruct Hin as [[= <- <-] | []].
  apply count_object. intros k' v' Hin'.
  destruct (Hch k' v' Hin') as [l [-> [Hl [Hne Hcase]]]].
  destruct Hcase as [[Hold Ht] | [Hnew Hg]].
  - exists 1%Z. split; [ apply countLeafTokens_token; now apply Htoks | lia ].
  - apply count_object. intros k'' v'' Hin''.
    destruct (Hg k'' v'' Hin'') as [lt [-> [Hlt Ht]]].
    exists 1%Z. split; [ apply countLeafTokens_token; now apply Htoks | lia ].
Qed.

(** Whatever the paths: for keys the model follows, each with a token
    in the flat map, the nester returns a tree and [countLeafTokens]
    returns on it, also when paths lead through one another and a token
    has become a property of a token (or of itself). *)
Theorem count_returns (h : heap) (flatMap : object)
    (orderedKeys : option (list jsstring)) :
  (forall k, In k (keys_walked flatMap orderedKeys) ->
     exists lt, Obj.get flatMap k = Some (VObj lt)
                /\ lt < length h /\ is_token h lt = true) ->
  forallb plain_key (keys_walked flatMap orderedKeys) = true ->
  exists h' n,
    nestFlatTokens h flatMap orderedKeys = Ok (h', length h)
    /\ (forall fuel, 3 <= fuel ->
          countLeafTokens fuel h' (VObj (length h)) = Some n)
    /\ (0 <= n)%Z.
Proof.
  intros Htok Hplain.
  destruct (nest_keys_shape h (length h) flatMap
              (keys_walked flatMap orderedKeys) (fst (alloc h))
              (shape_fresh h) Htok Hplain) as [h' [Hrun Hs]].
  destruct (shape_count h (length h) h' Hs) as [n [Hn Hpos]].
  exists h', n. split; [ now apply nestFlatTokens_run | ].
  split; [| exact Hpos ].
  intros fuel Hfuel. now apply (countLeafTokens_more 3).
Qed.

(** A token at [editor] and the same token again at
    [editor-background]: the second assignment makes the token a
    property of itself. *)
Definition example_clash_heap : heap :=
  [ [(js "$type", VStr (js "color")); (js "$value", VObj 1)];
    [(js "hex", VStr (js "#000000"))] ].

Definition example_clash_flat : object :=
  [(js "--vscode-editor", VObj 0);
   (js "--vscode-editor-background", VObj 0)].

Lemma count_returns_witness :
  exists h' n,
    nestFlatTokens example_clash_heap example_clash_flat None = Ok (h', 2)
    /\ get_prop h' 0 (js "background") = VObj 0
    /\ countLeafTokens 3 h' (VObj 2) = Some n.
Proof.
  destruct (count_returns example_clash_heap example_clash_flat None)
    as [h' [n [Hrun [Hcount _]]]].
  - intros k [<- | [<- | []]];
      eexists; (split; [ reflexivity | split; [ cbn; lia | reflexivity ] ]).
  - reflexivity.
  - exists h', n. split; [ exact Hrun | ].
    split; [| exact (Hcount 3 (le_n 3)) ].
    vm_compute in Hrun. injection Hrun as <-. reflexivity.
Defined.

(* ================================================================== *)
(** ** The flat token set on the heap and its tree *)

(** The object at [t] is the token [tok]: its two fields, the fields of
    its value and the components under their indices. *)
Definition holds (h : heap) (t : loc) (tok : Token.ColorToken) : Prop :=
  own h t
  = [(js "$type", VStr (Token.type tok)); (js "$value", VObj (S t))]
  /\ own h (S t)
     = [(js "colorSpace", VStr (Token.colorSpace (Token.value tok)));
        (js "components", VObj (S (S t)));
        (js "alpha", VNum (Token.alpha (Token.value tok)));
        (js "hex", VStr (Token.hex (Token.value tok)))]
  /\ own h (S (S t))
     = combine [js "0"; js "1"; js "2"]
         (map VNum (Token.components (Token.value tok))).


(** An entry that gets a token. *)
Definition exported (kv : jsstring * jsstring) : bool :=
  startsWith (js "--vscode-") (fst kv)
  && match parseColor (snd kv) with Some _ => true | None => false end.

Lemma own_app_old (h xs : heap) (l : loc) :
  l < length h -> own (h ++ xs) l = own h l.
Proof. intros H. unfold own. now apply app_nth1. Qed.

Lemma own_app_new (h xs : heap) (i : nat) :
  own (h ++ xs) (length h + i) = nth i xs [].
Proof.
  unfold own. rewrite app_nth2 by lia. f_equal. lia.
Qed.


(** The token object the builder creates is the token. *)
Lemma make_holds (h : heap) (c : NormalizedColor) :
  snd (Main.makeDtcgColorTokenFromParsedColor h c) = length h
  /\ (exists xs, fst (Main.makeDtcgColorTokenFromParsedColor h c) = h ++ xs
                 /\ length xs = 3)
  /\ holds (fst (Main.makeDtcgColorTokenFromParsedColor h c)) (length h)
       (makeDtcgColorTokenFromParsedColor c).
Proof.
  unfold Main.makeDtcgColorTokenFromParsedColor. cbn [fst snd].
  split; [ reflexivity | ]. split; [ eexists; split; reflexivity | ].
  match goal with |- holds (h ++ ?xs) _ _ =>
    pose proof (own_app_new h xs 0) as H0;
    pose proof (own_app_new h xs 1) as H1;
    pose proof (own_app_new h xs 2) as H2
  end.
  replace (length h + 0) with (length h) in H0 by lia.
  replace (length h + 1) with (S (length h)) in H1 by lia.
  replace (length h + 2) with (S (S (length h))) in H2 by lia.
  unfold holds. rewrite H0, H1, H2. repeat split.
Qed.









(** A tree holds paths, not names: a name without the prefix can have
    the path of a name with it. *)
Lemma unprefixed_path_shared :
  toTokenPath (js "vscode-foo") = toTokenPath (js "--vscode-foo").
Proof. reflexivity. Qed.





(* ================================================================== *)
(** ** The token paths of a text *)

(** The name a path stands for is the trimmed name. *)
Lemma path_names (n : jsstring) :
  startsWith (js "--vscode-") n = true ->
  variable_name (toTokenPath n) = trim n.
Proof.
  intros Hn. destruct (trim_keeps_prefix n Hn) as [r E].
  rewrite toTokenPath_spec, E. apply resolve_prefixed.
Qed.

(** The names with a token: prefixed, and without white space around. *)
Lemma text_token_name (content k : jsstring) :
  In k (Obj.keys
          (flattenCssVarsToColorTokens (vars (parseCssDeclarations content)))) ->
  startsWith (js "--vscode-") k = true /\ trim k = k.
Proof.
  assert (Hnd : NoDup (map fst (vars (parseCssDeclarations content)))).
  { rewrite reader_vars. apply (fold_assign_nodup _ []). constructor. }
  rewrite (flatten_kept _ Hnd). intros Hk.
  apply in_map_iff in Hk. destruct Hk as [[k' tok] [<- Hin]]. cbn [fst].
  apply in_kept in Hin. destruct Hin as [v [c [Hkv [Es _]]]].
  split; [ exact Es | ].
  rewrite reader_vars in Hkv. apply fold_assign_in in Hkv.
  destruct Hkv as [[H _] | []].
  apply declarations_in in H. destruct H as [Hn _].
  apply trim_no_ws. now apply css_name_no_ws.
Qed.

(** Two variables of a text never share a token path: of the names
    that get a token, different ones have different paths, so no token
    of a text is written over another's place (one path can still lead
    through another).  A variable map read from elsewhere can hold two
    names that differ in white space at the end, which do share their
    path. *)
Theorem css_paths_distinct (content k1 k2 : jsstring) :
  In k1 (Obj.keys
           (flattenCssVarsToColorTokens (vars (parseCssDeclarations content)))) ->
  In k2 (Obj.keys
           (flattenCssVarsToColorTokens (vars (parseCssDeclarations content)))) ->
  k1 <> k2 -> toTokenPath k1 <> toTokenPath k2.
Proof.
  intros H1 H2 Hne E.
  apply text_token_name in H1, H2. destruct H1 as [P1 T1], H2 as [P2 T2].
  apply Hne. rewrite <- T1, <- T2.
  rewrite <- (path_names k1 P1), <- (path_names k2 P2). now rewrite E.
Qed.

Lemma css_paths_distinct_witness :
  toTokenPath (js "--vscode-editor-background")
  <> toTokenPath (js "--vscode-editor-foreground").
Proof.
  apply (css_paths_distinct
           (js "--vscode-editor-background: #1e1e1e;" ++ [10]%N
            ++ js "--vscode-editor-foreground: #d4d4d4;")).
  - vm_compute. left. reflexivity.
  - vm_compute. right. left. reflexivity.
  - discriminate.
Defined.

(** Names that differ in white space at the end both get a token, at
    the same path. *)
Example spaced_names_share_a_path :
  let flat := flattenCssVarsToColorTokens
                [(js "--vscode-focus", js "#fff"); (js "--vscode-focus ", js "#000")] in
  Obj.keys flat = [js "--vscode-focus"; js "--vscode-focus "]
  /\ toTokenPath (js "--vscode-focus") = toTokenPath (js "--vscode-focus ").
Proof. split; reflexivity. Qed.

(* ================================================================== *)
(** ** The fuel of [serialize] *)

Lemma stack_short (h : heap) (stack : list loc) :
  NoDup stack -> (forall l, In l stack -> l < length h) ->
  length stack <= length h.
Proof.
  intros Hnd Hb. rewrite <- (length_seq (length h) 0).
  apply NoDup_incl_length; [ exact Hnd | ].
  intros l Hl. apply in_seq. specialize (Hb l Hl). lia.
Qed.

Lemma serialize_fold (f f' : value -> result unit)
    (o : object) (r : result unit) :
  (forall kv, In kv o -> f (snd kv) = f' (snd kv)) ->
  fold_left (fun (r : result unit) (kv : jsstring * value) =>
               Main.bind r (fun _ => f (snd kv))) o r
  = fold_left (fun (r : result unit) (kv : jsstring * value) =>
                 Main.bind r (fun _ => f' (snd kv))) o r.
Proof.
  revert r. induction o as [| kv o IH]; intros r H; [ reflexivity | ].
  cbn [fold_left]. rewrite (H kv (or_introl eq_refl)).
  apply IH. intros kv' Hkv'. apply H. now right.
Qed.

(** With the objects it is inside of all different, [serialize] never
    runs out of the fuel [writeJson] gives it: more fuel changes
    nothing. *)
Lemma serialize_fuel (h : heap) (fuel : nat) :
  forall (fuel' : nat) (stack : list loc) (v : value),
    NoDup stack -> (forall l, In l stack -> l < length h) ->
    length h < fuel + length stack -> length h < fuel' + length stack ->
    Main.serialize fuel h stack v = Main.serialize fuel' h stack v.
Proof.
  induction fuel as [| fuel IH]; intros fuel' stack v Hnd Hb Hf Hf'.
  - pose proof (stack_short h stack Hnd Hb). cbn in Hf. lia.
  - destruct fuel' as [| fuel'];
      [ pose proof (stack_short h stack Hnd Hb); cbn in Hf'; lia | ].
    destruct v as [| | b | x | s | l | f]; try reflexivity.
    cbn [Main.serialize].
    destruct (existsb (Nat.eqb l) stack) eqn:Ein; [ reflexivity | ].
    replace (match Obj.get (own h l) (js "toJSON") with
             | Some (VBuiltin _) => Inherited
             | _ =>
                 fold_left
                   (fun (r : result unit) (kv : jsstring * value) =>
                      Main.bind r
                        (fun _ => Main.serialize fuel h (l :: stack) (snd kv)))
                   (own h l) (Ok tt)
             end)
      with (match Obj.get (own h l) (js "toJSON") with
            | Some (VBuiltin _) => Inherited
            | _ =>
                fold_left
                  (fun (r : result unit) (kv : jsstring * value) =>
                     Main.bind r
                       (fun _ => Main.serialize fuel' h (l :: stack) (snd kv)))
                  (own h l) (Ok tt)
            end); [ reflexivity | ].
    assert (E : fold_left
                  (fun (r : result unit) (kv : jsstring * value) =>
                     Main.bind r
                       (fun _ => Main.serialize fuel' h (l :: stack) (snd kv)))
                  (own h l) (Ok tt)
                = fold_left
                    (fun (r : result unit) (kv : jsstring * value) =>
                       Main.bind r
                         (fun _ => Main.serialize fuel h (l :: stack) (snd kv)))
                    (own h l) (Ok tt)).
    { destruct (Nat.lt_ge_cases l (length h)) as [Hl | Hl].
      - apply (serialize_fold
                 (Main.serialize fuel' h (l :: stack))
                 (Main.serialize fuel h (l :: stack))).
        intros kv _. symmetry. apply IH.
        + constructor; [| exact Hnd ]. intros Hin.
          assert (existsb (Nat.eqb l) stack = true); [| congruence ].
          apply existsb_exists. exists l. split; [ exact Hin | apply Nat.eqb_refl ].
        + intros l' [<- | Hl']; [ exact Hl | now apply Hb ].
        + cbn [length]. lia.
        + cbn [length]. lia.
      - now rewrite (own_beyond h l Hl). }
    now rewrite E.
Qed.

Lemma writeJson_fuel (h : heap) (v : value) (fuel : nat) :
  length h < fuel -> Main.serialize fuel h [] v = Main.writeJson h v.
Proof.
  intros H. unfold Main.writeJson.
  apply serialize_fuel; [ constructor | intros l [] | cbn; lia | cbn; lia ].
Qed.

(* ================================================================== *)
(** ** The union block on the heap *)

(** What [unionFlat] gets for a key: the item's own token object, or
    the placeholder object. *)
Definition own_or_placeholder (it : Main.Item) (k : jsstring) : value :=
  match Obj.get (Main.flat it) k with
  | Some v => v
  | None => VObj Main.TRANSPARENT_TOKEN
  end.

Definition lacks (it : Main.Item) (k : jsstring) : bool :=
  match Obj.get (Main.flat it) k with
  | Some _ => false
  | None => true
  end.

(** A flat set as the extractor leaves it: names with the prefix, each
    referring to an object. *)
Definition token_refs (flat : object) : Prop :=
  forall k v, In (k, v) flat ->
    startsWith (js "--vscode-") k = true /\ exists t, v = VObj t.


Lemma prefix_own_key (k : jsstring) :
  startsWith (js "--vscode-") k = true -> own_key k = true.
Proof.
  intros H. unfold own_key. apply negb_true_iff.
  destruct (existsb (JsString.eqb k) object_prototype_names) eqn:E;
    [| reflexivity ].
  apply existsb_exists in E. destruct E as [n [Hn En]].
  apply eqb_eq in En. subst n. exfalso.
  unfold object_prototype_names in Hn. cbn [map In] in Hn.
  repeat (destruct Hn as [<- | Hn]; [ discriminate H | ]). destruct Hn.
Qed.

Lemma flatten_refs (cssVars : list (jsstring * jsstring)) (h : heap) :
  token_refs (snd (Main.flattenCssVarsToColorTokens h cssVars)).
Proof.
  unfold Main.flattenCssVarsToColorTokens.
  assert (H0 : token_refs []) by (intros k v []).
  revert H0. generalize ([] : object) as flat. revert h.
  induction cssVars as [| [k v] cssVars IH]; intros h flat H; [ exact H | ].
  cbn [fold_left].
  destruct (startsWith (js "--vscode-") k) eqn:Es; [| now apply IH ].
  destruct (parseColor v) as [c |]; [| now apply IH ].
  unfold Main.makeDtcgColorTokenFromParsedColor. cbv zeta. apply IH.
  intros k' v' Hin. apply in_set in Hin.
  destruct Hin as [[-> [-> _]] | Hin]; [| now apply H ].
  split; [ exact Es | now eexists ].
Qed.



(** The union keys of the items. *)
Lemma main_unionKeySet_from (items : list Main.Item) (set : list jsstring)
    (x : jsstring) :
  In x (fold_left
          (fun set it => fold_left Union.set_add (Obj.keys (Main.flat it)) set)
          items set)
  <-> In x set \/ exists it, In it items /\ In x (Obj.keys (Main.flat it)).
Proof.
  revert set. induction items as [| it items IH]; intros set; cbn.
  - split; [ tauto | ]. intros [H | [it [[] _]]]. exact H.
  - rewrite IH, add_all_in. split.
    + intros [[H | H] | [it' [H1 H2]]]; [ now left | right | right ].
      * exists it. tauto.
      * exists it'. tauto.
    + intros [H | [it' [[<- | H1] H2]]]; [ tauto | tauto | ].
      right. now exists it'.
Qed.

Lemma main_unionKeySet_nodup (items : list Main.Item) :
  NoDup (Main.unionKeySet items).
Proof.
  unfold Main.unionKeySet. generalize (@nil jsstring) (NoDup_nil jsstring).
  induction items as [| it items IH]; intros set H; cbn; [ exact H | ].
  apply IH. now apply add_all_nodup.
Qed.

Lemma main_unionKeys_in (items : list Main.Item) (k : jsstring) :
  In k (Main.unionKeys items)
  <-> exists it, In it items /\ In k (Obj.keys (Main.flat it)).
Proof.
  unfold Main.unionKeys, Main.unionKeySet.
  rewrite sort_in, main_unionKeySet_from.
  split; [ intros [[] | H]; exact H | tauto ].
Qed.


(** The loop over the union keys for one item. *)
Lemma fill_from_acc (it : Main.Item) (keys missing0 : list jsstring)
    (flat0 : object) :
  token_refs (Main.flat it) ->
  NoDup keys ->
  (forall k, In k keys ->
     startsWith (js "--vscode-") k = true /\ ~ In k (Obj.keys flat0)) ->
  fold_left
    (fun (acc : result (list jsstring * object)) (k : jsstring) =>
       Main.bind acc (fun mu =>
         let (missing, unionFlat) := mu in
         if own_key k then
           let token := match Obj.get (Main.flat it) k with
                        | Some v => v
                        | None => VUndefined
                        end in
           if truthy token then Ok (missing, Obj.set unionFlat k token)
           else Ok (missing ++ [k],
                    Obj.set unionFlat k (VObj Main.TRANSPARENT_TOKEN))
         else Inherited))
    keys (Ok (missing0, flat0))
  = Ok (missing0 ++ filter (lacks it) keys,
        flat0 ++ map (fun k => (k, own_or_placeholder it k)) keys).
Proof.
  intros Hrefs. revert missing0 flat0.
  induction keys as [| k keys IH]; intros missing0 flat0 Hnd Hfresh;
    cbn [fold_left filter map].
  - now rewrite !app_nil_r.
  - inversion Hnd as [| ? ? Hk Hkeys]; subst.
    destruct (Hfresh k (or_introl eq_refl)) as [Hpre Hnew].
    assert (Hnext : forall v k', In k' keys ->
                    startsWith (js "--vscode-") k' = true
                    /\ ~ In k' (Obj.keys (flat0 ++ [(k, v)]))).
    { intros v k' Hk'. split; [ apply Hfresh; now right | ].
      unfold Obj.keys. rewrite map_app, in_app_iff. cbn.
      intros [H | [-> | []]]; [| contradiction ].
      apply (Hfresh k'); [ now right | exact H ]. }
    cbn [Main.bind]. rewrite (prefix_own_key k Hpre).
    unfold own_or_placeholder, lacks.
    destruct (Obj.get (Main.flat it) k) as [v |] eqn:E.
    + apply get_some_in in E. destruct (Hrefs k v E) as [_ [t ->]].
      cbn [truthy].
      rewrite set_fresh by (try exact Hnew; now apply prefix_not_proto).
      rewrite IH by (try assumption; apply Hnext).
      now rewrite <- !app_assoc.
    + cbn [truthy].
      rewrite set_fresh by (try exact Hnew; now apply prefix_not_proto).
      rewrite IH by (try assumption; apply Hnext).
      now rewrite <- !app_assoc.
Qed.

Lemma fill_result (it : Main.Item) (keys : list jsstring) :
  token_refs (Main.flat it) -> NoDup keys ->
  (forall k, In k keys -> startsWith (js "--vscode-") k = true) ->
  Main.fill keys it
  = Ok (filter (lacks it) keys,
        map (fun k => (k, own_or_placeholder it k)) keys).
Proof.
  intros Hrefs Hnd Hk. unfold Main.fill.
  rewrite fill_from_acc; [ reflexivity | exact Hrefs | exact Hnd | ].
  intros k Hin. split; [ now apply Hk | intros [] ].
Qed.







(** The two sources of the specification's example. *)
Definition example_inputs : list Main.Input :=
  [ {| Main.input_name := js "A";
       Main.vars := [(js "--vscode-foreground", js "#cccccc")] |};
    {| Main.input_name := js "B";
       Main.vars := [(js "--vscode-foreground", js "#cccccc");
                     (js "--vscode-editor-background", js "#1e1e1e")] |} ].


(* ------------------------------------------------------------------ *)
(** *** The placeholder is one object *)

(** Two themes: the first has a variable whose path leads through the
    path of the second's variable, and ends in [$value]. *)
Definition theme_one : Main.Input :=
  {| Main.input_name := js "one";
     Main.vars := [(js "--vscode-a-$value", js "#111111")] |}.

Definition theme_two : Main.Input :=
  {| Main.input_name := js "two";
     Main.vars := [(js "--vscode-a", js "#222222")] |}.

(** C5, the failing input.  The union keys are [--vscode-a] and
    [--vscode-a-$value].  Theme one lacks the first: the placeholder
    object is put at [vscode.a], and the nester then assigns theme one's
    token to its [$value].  Theme two lacks the second key, and what is
    substituted for it is that same object: its [$value] is now theme
    one's token, of hex [#111111] and alpha 1, and no longer the colour
    of hex [#000000] and alpha 0 it had when the run began. *)
Lemma placeholder_changed :
  exists out u f1 f2 token_one,
    Main.main true [theme_one; theme_two] = Ok out
    /\ Main.union out = Some u
    /\ Main.union_filled u = [f1; f2]
    /\ Main.unionKeys (Main.items out)
       = [js "--vscode-a"; js "--vscode-a-$value"]
    /\ lookup Main.initial_heap (VObj Main.TRANSPARENT_TOKEN)
         [js "$value"; js "hex"] = VStr (js "#000000")
    /\ lookup Main.initial_heap (VObj Main.TRANSPARENT_TOKEN)
         [js "$value"; js "alpha"] = VNum (of_Z 0)
    /\ Main.missing f1 = [js "--vscode-a"]
    /\ Obj.get (Main.unionFlat f1) (js "--vscode-a-$value")
       = Some (VObj token_one)
    /\ lookup (Main.before f1) (VObj token_one) [js "$value"; js "hex"]
       = VStr (js "#111111")
    /\ Main.missing f2 = [js "--vscode-a-$value"]
    /\ Obj.get (Main.unionFlat f2) (js "--vscode-a-$value")
       = Some (VObj Main.TRANSPARENT_TOKEN)
    /\ get_prop (Main.before f2) Main.TRANSPARENT_TOKEN (js "$value")
       = VObj token_one
    /\ lookup (Main.before f2) (VObj Main.TRANSPARENT_TOKEN)
         [js "$value"; js "hex"] = VUndefined
    /\ lookup (Main.before f2) (VObj Main.TRANSPARENT_TOKEN)
         [js "$value"; js "alpha"] = VUndefined
    /\ lookup (Main.before f2) (VObj Main.TRANSPARENT_TOKEN)
         [js "$value"; js "$value"; js "hex"] = VStr (js "#111111")
    /\ lookup (Main.before f2) (VObj Main.TRANSPARENT_TOKEN)
         [js "$value"; js "$value"; js "alpha"] = VNum (of_Z 1).
Proof.
  do 5 eexists. vm_compute. repeat split.
Qed.

(** A theme that lacks two union keys of which one's path leads through
    the other's: the placeholder is assigned into itself, the tree is
    cyclic, and [JSON.stringify] throws before any report is written. *)
Lemma cyclic_union_throws :
  Main.main true
    [ {| Main.input_name := js "one";
         Main.vars := [(js "--vscode-a", js "#111111");
                       (js "--vscode-a-b", js "#222222")] |};
      {| Main.input_name := js "two";
         Main.vars := [(js "--vscode-c", js "#333333")] |} ]
  = TypeError.
Proof. vm_compute. reflexivity. Qed.

(* ================================================================== *)
(** ** [main] comes to its end *)

(** The three objects of a token the builder made, as they were made. *)
Definition token_shape (h : heap) (t : loc) : Prop :=
  exists c, holds h t (makeDtcgColorTokenFromParsedColor c).

(** A flat set whose objects are as the builder made them. *)
Definition shaped (h : heap) (flat : object) : Prop :=
  forall k v, In (k, v) flat ->
    exists t, v = VObj t /\ t + 2 < length h /\ token_shape h t.

Lemma token_shape_frame (h h' : heap) (t : loc) :
  (forall l, l <= t + 2 -> own h' l = own h l) ->
  token_shape h t -> token_shape h' t.
Proof.
  intros Hframe [c [H0 [H1 H2]]]. exists c. unfold holds.
  rewrite !Hframe by lia. now repeat split.
Qed.

Lemma token_shape_token (h : heap) (t : loc) :
  token_shape h t -> is_token h t = true.
Proof.
  intros [c [H0 _]]. unfold is_token, get_prop. now rewrite H0.
Qed.

Lemma shaped_frame (h h' : heap) (flat : object) :
  length h <= length h' ->
  (forall l, l < length h -> own h' l = own h l) ->
  shaped h flat -> shaped h' flat.
Proof.
  intros Hlen Hframe H k v Hin. destruct (H k v Hin) as [t [-> [Ht Hs]]].
  exists t. split; [ reflexivity | ]. split; [ lia | ].
  apply (token_shape_frame h); [| exact Hs ].
  intros l Hl. apply Hframe. lia.
Qed.

Lemma not_on_stack (l : loc) (stack : list loc) :
  ~ In l stack -> existsb (Nat.eqb l) stack = false.
Proof.
  intros H. destruct (existsb (Nat.eqb l) stack) eqn:E; [| reflexivity ].
  apply existsb_exists in E. destruct E as [x [Hx E]].
  apply Nat.eqb_eq in E. subst x. contradiction.
Qed.

Lemma serialize_object (fuel : nat) (h : heap) (stack : list loc) (l : loc) :
  (forall f, Obj.get (own h l) (js "toJSON") <> Some (VBuiltin f)) ->
  ~ In l stack ->
  Main.serialize (S fuel) h stack (VObj l)
  = fold_left
      (fun (r : result unit) (kv : jsstring * value) =>
         Main.bind r (fun _ => Main.serialize fuel h (l :: stack) (snd kv)))
      (own h l) (Ok tt).
Proof.
  intros E N. cbn [Main.serialize]. rewrite (not_on_stack _ _ N).
  destruct (Obj.get (own h l) (js "toJSON")) as [[| | b | x | s | l' | f] |];
    try reflexivity.
  now destruct (E f).
Qed.

Lemma serialize_all (fuel : nat) (h : heap) (stack : list loc) (o : object) :
  (forall k v, In (k, v) o -> Main.serialize fuel h stack v = Ok tt) ->
  fold_left
    (fun (r : result unit) (kv : jsstring * value) =>
       Main.bind r (fun _ => Main.serialize fuel h stack (snd kv)))
    o (Ok tt)
  = Ok tt.
Proof.
  induction o as [| [k v] o IH]; intros H; [ reflexivity | ].
  cbn [fold_left snd]. rewrite (H k v (or_introl eq_refl)). cbn [Main.bind].
  apply IH. intros k' v' Hin. apply (H k'). now right.
Qed.

Lemma serialize_string (fuel : nat) (h : heap) (stack : list loc)
    (s : jsstring) :
  Main.serialize fuel h stack (VStr s) = Ok tt.
Proof. now destruct fuel. Qed.

Lemma serialize_number (fuel : nat) (h : heap) (stack : list loc)
    (x : number) :
  Main.serialize fuel h stack (VNum x) = Ok tt.
Proof. now destruct fuel. Qed.

(** [JSON.stringify] accepts a token as the builder made it. *)
Lemma serialize_token (fuel : nat) (h : heap) (stack : list loc) (t : loc) :
  token_shape h t ->
  ~ In t stack -> ~ In (S t) stack -> ~ In (S (S t)) stack ->
  Main.serialize (3 + fuel) h stack (VObj t) = Ok tt.
Proof.
  intros [c [H0 [H1 H2]]] N0 N1 N2.
  cbn [makeDtcgColorTokenFromParsedColor Token.type Token.value
       Token.colorSpace Token.components Token.alpha Token.hex map combine]
    in H0, H1, H2.
  change (3 + fuel) with (S (S (S fuel))).
  rewrite serialize_object; [| intros f; now rewrite H0 | exact N0 ].
  rewrite H0. cbn [fold_left snd].
  rewrite serialize_string. cbn [Main.bind].
  rewrite serialize_object; [| intros f; now rewrite H1 | ].
  2:{ intros [E | Hin]; [ lia | contradiction ]. }
  rewrite H1. cbn [fold_left snd].
  rewrite serialize_string. cbn [Main.bind].
  rewrite serialize_object; [| intros f; now rewrite H2 | ].
  2:{ intros [E | [E | Hin]]; [ lia | lia | contradiction ]. }
  rewrite H2. cbn [fold_left snd].
  repeat first [ rewrite serialize_number | rewrite serialize_string
               | progress cbn [Main.bind] ].
  reflexivity.
Qed.

(** [JSON.stringify] accepts the tree of independent paths. *)
Lemma serialize_repr (h0 : heap) (out : loc) (h : heap) (A : tree) :
  repr h0 out h A ->
  (forall q lt, In (q, lt) (tree_entries A) ->
     token_shape h lt /\ lt + 2 < out) ->
  Main.writeJson h (VObj out) = Ok tt.
Proof.
  intros [Hout [Hframe [Hnd [Hgl Hroot]]]] Htok.
  rewrite <- (writeJson_fuel h (VObj out) (6 + S (length h))) by lia.
  change (6 + S (length h)) with (S (S (3 + S (S (length h))))).
  destruct A as [| a A0].
  - rewrite serialize_object; [ now rewrite Hroot | | intros [] ].
    intros f. now rewrite Hroot.
  - destruct Hroot as [lv [Hroot [Hlv [Hprops Hok]]]].
    set (A := a :: A0) in *.
    rewrite serialize_object; [ | intros f; now rewrite Hroot | intros [] ].
    rewrite Hroot. cbn [fold_left snd Main.bind].
    rewrite serialize_object.
    2:{ intros f E. rewrite Hprops in E. apply get_some_in in E.
        apply in_map_iff in E. destruct E as [[seg n] [E _]].
        injection E as _ E. now destruct n. }
    2:{ intros [E | []]. lia. }
    rewrite Hprops. apply serialize_all. intros k v Hin.
    apply in_map_iff in Hin. destruct Hin as [[seg n] [[= <- <-] Hsn]].
    pose proof (proj1 (Forall_forall _ _) Hok _ Hsn) as [_ Hn].
    cbn [fst snd] in *. destruct n as [lt | lg es]; cbn [node_value].
    + destruct (Htok [js "vscode"; seg] lt) as [Hs Hb].
      { unfold tree_entries. apply in_flat_map. exists (seg, Leaf lt).
        split; [ exact Hsn | now left ]. }
      apply serialize_token; [ exact Hs | | | ];
        intros [E | [E | []]]; lia.
    + destruct Hn as [Hlg [Hne [Hown _]]].
      change (3 + S (S (length h))) with (S (3 + S (length h))).
      rewrite serialize_object.
      2:{ intros f E. rewrite Hown in E. apply get_some_in in E.
          apply in_map_iff in E. destruct E as [e [E _]]. discriminate E. }
      2:{ intros [E | [E | []]]; [ now apply Hne | lia ]. }
      rewrite Hown. apply serialize_all. intros leaf v Hin.
      apply in_map_iff in Hin. destruct Hin as [[leaf' lt] [[= <- <-] He]].
      destruct (Htok [js "vscode"; seg; leaf'] lt) as [Hs Hb].
      { unfold tree_entries. apply in_flat_map. exists (seg, Group lg es).
        split; [ exact Hsn | ]. unfold node_entries. cbn [fst snd].
        apply in_map_iff. now exists (leaf', lt). }
      apply serialize_token; [ exact Hs | | | ];
        intros [E | [E | [E | []]]]; lia.
Qed.

(** The nester and [JSON.stringify] on a flat set of tokens as the
    builder made them, with independent paths. *)
Lemma nest_and_write (h : heap) (flatMap : object)
    (orderedKeys : option (list jsstring)) :
  (forall k, In k (keys_walked flatMap orderedKeys) ->
     exists t, Obj.get flatMap k = Some (VObj t)
               /\ t + 2 < length h /\ token_shape h t) ->
  forallb plain_key (keys_walked flatMap orderedKeys) = true ->
  forallb (fun k => no_token_field (toTokenPath k))
    (keys_walked flatMap orderedKeys) = true ->
  independent (map toTokenPath (keys_walked flatMap orderedKeys)) = true ->
  exists h',
    nestFlatTokens h flatMap orderedKeys = Ok (h', length h)
    /\ length h < length h'
    /\ (forall l, l < length h -> own h' l = own h l)
    /\ Main.writeJson h' (VObj (length h)) = Ok tt.
Proof.
  intros Htok Hplain Hfield Hind.
  assert (Htok' : forall k, In k (keys_walked flatMap orderedKeys) ->
            exists lt, Obj.get flatMap k = Some (VObj lt)
                       /\ token_at h (length h) lt).
  { intros k Hk. destruct (Htok k Hk) as [t [Hget [Ht Hs]]].
    exists t. split; [ exact Hget | ].
    split; [ lia | now apply token_shape_token ]. }
  destruct (nest_keys_tree h (length h) flatMap
              (keys_walked flatMap orderedKeys) (fst (alloc h)) []
              (repr_fresh h) Htok' Hplain Hfield Hind)
    as [h' [A' [Hrun [Hrepr Hperm]]]].
  { intros q k []. }
  cbn [tree_entries flat_map app] in Hperm.
  exists h'. split; [ now apply nestFlatTokens_run | ].
  pose proof Hrepr as [Hout [Hframe _]].
  split; [ exact Hout | ]. split; [ exact Hframe | ].
  apply (serialize_repr h (length h) h' A' Hrepr).
  intros q lt Hin. apply (Permutation_in _ Hperm) in Hin.
  apply in_map_iff in Hin. destruct Hin as [k [E Hk]].
  destruct (Htok k Hk) as [t [Hget [Ht Hs]]].
  unfold entry_of in E. rewrite Hget in E. injection E as _ <-.
  split; [| exact Ht ].
  apply (token_shape_frame h); [| exact Hs ].
  intros l Hl. apply Hframe. lia.
Qed.

(** Names of which no two have paths that lead through one another. *)
Definition apart (names : list jsstring) : Prop :=
  forall k1 k2, In k1 names -> In k2 names -> k1 <> k2 ->
    clash (toTokenPath k1) (toTokenPath k2) = false.

Lemma apart_independent (names ks : list jsstring) :
  apart names -> NoDup ks -> incl ks names ->
  independent (map toTokenPath ks) = true.
Proof.
  intros Ha Hnd Hin. induction Hnd as [| k ks Hk Hnd IH]; [ reflexivity | ].
  cbn [map independent]. apply andb_true_iff. split.
  - apply forallb_forall. intros q Hq. apply in_map_iff in Hq.
    destruct Hq as [k' [<- Hk']]. apply negb_true_iff.
    apply Ha; [ apply Hin; now left | apply Hin; now right | ].
    intros ->. contradiction.
  - apply IH. intros x Hx. apply Hin. now right.
Qed.

Lemma forallb_incl (A : Type) (p : A -> bool) (ks names : list A) :
  forallb p names = true -> incl ks names -> forallb p ks = true.
Proof.
  intros H Hin. rewrite forallb_forall in *. intros x Hx. apply H. now apply Hin.
Qed.

(** The loop of [flattenCssVarsToColorTokens] from any heap and flat
    set. *)
Definition flatten_loop (cssVars : list (jsstring * jsstring))
    (acc : heap * object) : heap * object :=
  fold_left
    (fun (acc : heap * object) (kv : jsstring * jsstring) =>
       let (h, flat) := acc in
       let (k, v) := kv in
       if startsWith (js "--vscode-") k then
         match parseColor v with
         | Some c =>
             let (h', token) := Main.makeDtcgColorTokenFromParsedColor h c in
             (h', Obj.set flat k (VObj token))
         | None => (h, flat)
         end
       else (h, flat))
    cssVars acc.

Lemma flatten_loop_facts (names : list jsstring)
    (cssVars : list (jsstring * jsstring)) :
  incl (map fst (filter exported cssVars)) names ->
  forall (h : heap) (flat : object),
    shaped h flat -> NoDup (Obj.keys flat) -> incl (Obj.keys flat) names ->
    shaped (fst (flatten_loop cssVars (h, flat)))
      (snd (flatten_loop cssVars (h, flat)))
    /\ NoDup (Obj.keys (snd (flatten_loop cssVars (h, flat))))
    /\ incl (Obj.keys (snd (flatten_loop cssVars (h, flat)))) names
    /\ exists xs, fst (flatten_loop cssVars (h, flat)) = h ++ xs.
Proof.
  unfold flatten_loop.
  induction cssVars as [| [k v] cssVars IH]; intros Hsub h flat H N I.
  - cbn [fold_left fst snd]. split; [ exact H | ]. split; [ exact N | ].
    split; [ exact I | ]. exists []. now rewrite app_nil_r.
  - cbn [fold_left]. cbn [filter] in Hsub. unfold exported at 1 in Hsub.
    cbn [fst snd] in Hsub.
    destruct (startsWith (js "--vscode-") k) eqn:Es; cbn [andb] in Hsub;
      [| now apply IH ].
    destruct (parseColor v) as [c |] eqn:Ec; [| now apply IH ].
    cbn [map] in Hsub.
    destruct (make_holds h c) as [Et [[xs [Eh Hlen]] Hh]].
    destruct (Main.makeDtcgColorTokenFromParsedColor h c) as [h' t].
    cbn [fst snd] in Et, Eh, Hh. subst t h'.
    destruct (IH (fun x Hx => Hsub x (or_intror Hx)) (h ++ xs)
                (Obj.set flat k (VObj (length h))))
      as [Hs [Hn [Hi [ys Hys]]]].
    + intros k' v' Hin. apply in_set in Hin.
      destruct Hin as [[-> [-> _]] | Hin].
      * exists (length h). split; [ reflexivity | ].
        split; [ rewrite length_app; lia | now exists c ].
      * refine (shaped_frame h (h ++ xs) flat _ _ H k' v' Hin);
          [ rewrite length_app; lia | ].
        intros l Hl. now apply own_app_old.
    + now apply set_keys_nodup.
    + intros k' Hk'. unfold Obj.keys in Hk'. apply in_map_iff in Hk'.
      destruct Hk' as [[k'' v''] [<- Hin]]. apply in_set in Hin.
      destruct Hin as [[-> _] | Hin]; [ apply Hsub; now left | ].
      apply I. unfold Obj.keys. apply in_map_iff. now exists (k'', v'').
    + split; [ exact Hs | ]. split; [ exact Hn | ]. split; [ exact Hi | ].
      exists (xs ++ ys). rewrite app_assoc. exact Hys.
Qed.

(** The same, decided. *)
Definition apartb (names : list jsstring) : bool :=
  forallb
    (fun k1 =>
       forallb
         (fun k2 =>
            JsString.eqb k1 k2 || negb (clash (toTokenPath k1) (toTokenPath k2)))
         names)
    names.

Lemma apartb_apart (names : list jsstring) :
  apartb names = true -> apart names.
Proof.
  unfold apartb. intros H k1 k2 H1 H2 Hne.
  rewrite forallb_forall in H. specialize (H k1 H1).
  rewrite forallb_forall in H. specialize (H k2 H2).
  apply orb_true_iff in H. destruct H as [H | H].
  - apply eqb_eq in H. contradiction.
  - now apply negb_true_iff in H.
Qed.

Lemma get_map_keys (V : Type) (f : jsstring -> V) (ks : list jsstring)
    (k : jsstring) :
  In k ks -> Obj.get (map (fun k => (k, f k)) ks) k = Some (f k).
Proof.
  induction ks as [| k' ks IH]; intros Hin; [ destruct Hin | ].
  cbn. destruct (JsString.eqb k' k) eqn:E.
  - apply eqb_eq in E. now subst.
  - apply eqb_neq in E. destruct Hin as [-> | Hin]; [ contradiction | ].
    now apply IH.
Qed.

(** The names of all inputs that get a token. *)
Definition exported_names (inputs : list Main.Input) : list jsstring :=
  flat_map (fun input => map fst (filter exported (Main.vars input))) inputs.

(** The heap has the placeholder as the module made it. *)
Definition heap_well (h : heap) : Prop :=
  3 <= length h /\ forall l, l < 3 -> own h l = own Main.initial_heap l.

Lemma heap_well_frame (h h' : heap) :
  length h <= length h' ->
  (forall l, l < length h -> own h' l = own h l) ->
  heap_well h -> heap_well h'.
Proof.
  intros Hlen Hframe [H3 H]. split; [ lia | ].
  intros l Hl. rewrite Hframe by lia. now apply H.
Qed.

Lemma placeholder_shape (h : heap) :
  heap_well h -> token_shape h Main.TRANSPARENT_TOKEN.
Proof.
  intros [_ H].
  exists {| r := of_Z 0; g := of_Z 0; b := of_Z 0; a := of_Z 0;
            hex := js "#000000" |}.
  unfold holds, Main.TRANSPARENT_TOKEN. rewrite !H by lia. now repeat split.
Qed.

Section Returns.

Variable names : list jsstring.
Hypothesis Hplain : forallb plain_key names = true.
Hypothesis Hfield :
  forallb (fun k => no_token_field (toTokenPath k)) names = true.
Hypothesis Hapart : apart names.

(** An item of [main] whose flat set is as the extractor left it. *)
Definition item_well (h : heap) (it : Main.Item) : Prop :=
  shaped h (Main.flat it)
  /\ token_refs (Main.flat it)
  /\ NoDup (Obj.keys (Main.flat it))
  /\ incl (Obj.keys (Main.flat it)) names.

Lemma item_well_frame (h h' : heap) (it : Main.Item) :
  length h <= length h' ->
  (forall l, l < length h -> own h' l = own h l) ->
  item_well h it -> item_well h' it.
Proof.
  intros Hlen Hframe [Hs Hrest]. split; [| exact Hrest ].
  now apply (shaped_frame h).
Qed.

Lemma walk_returns (h : heap) (flatMap : object)
    (orderedKeys : option (list jsstring)) :
  NoDup (keys_walked flatMap orderedKeys) ->
  incl (keys_walked flatMap orderedKeys) names ->
  (forall k, In k (keys_walked flatMap orderedKeys) ->
     exists t, Obj.get flatMap k = Some (VObj t)
               /\ t + 2 < length h /\ token_shape h t) ->
  exists h',
    nestFlatTokens h flatMap orderedKeys = Ok (h', length h)
    /\ length h < length h'
    /\ (forall l, l < length h -> own h' l = own h l)
    /\ Main.writeJson h' (VObj (length h)) = Ok tt.
Proof.
  intros Hnd Hin Htok. apply nest_and_write.
  - exact Htok.
  - now apply (forallb_incl _ _ _ names).
  - now apply (forallb_incl _ _ _ names).
  - now apply (apart_independent names).
Qed.

(** The first loop. *)
Lemma convert_returns (inputs : list Main.Input) :
  forall st : heap * list Main.Item,
    (forall input, In input inputs ->
       incl (map fst (filter exported (Main.vars input))) names) ->
    heap_well (fst st) -> Forall (item_well (fst st)) (snd st) ->
    exists st',
      fold_left (fun acc input => Main.bind acc (fun st => Main.convert st input))
        inputs (Ok st) = Ok st'
      /\ heap_well (fst st') /\ Forall (item_well (fst st')) (snd st')
      /\ length (snd st') = length (snd st) + length inputs.
Proof.
  induction inputs as [| input inputs IH]; intros [h items] Hsub Hh Hitems.
  - exists (h, items). cbn [fold_left length].
    split; [ reflexivity | ]. split; [ exact Hh | ].
    split; [ exact Hitems | lia ].
  - cbn [fold_left Main.bind fst snd] in *.
    unfold Main.convert at 2, Main.tokens_tree.
    change (Main.flattenCssVarsToColorTokens h (Main.vars input))
      with (flatten_loop (Main.vars input) (h, ([] : object))).
    destruct (flatten_loop_facts names (Main.vars input)
                (Hsub input (or_introl eq_refl)) h ([] : object))
      as [Hs [Hn [Hi [xs Hxs]]]];
      [ intros k v [] | constructor | intros k [] | ].
    pose proof (flatten_refs (Main.vars input) h) as Hrefs.
    change (Main.flattenCssVarsToColorTokens h (Main.vars input))
      with (flatten_loop (Main.vars input) (h, ([] : object))) in Hrefs.
    destruct (flatten_loop (Main.vars input) (h, ([] : object))) as [h1 flat].
    cbn [fst snd] in Hs, Hn, Hi, Hxs, Hrefs. subst h1.
    destruct (walk_returns (h ++ xs) flat None) as [h' [Hrun [Hlt [Hframe Hw]]]].
    + exact Hn.
    + exact Hi.
    + intros k Hk. cbn [keys_walked] in Hk.
      destruct (Obj.get flat k) as [v |] eqn:Eg.
      * apply get_some_in in Eg. destruct (Hs k v Eg) as [t [-> Ht]].
        now exists t.
      * apply get_none_keys in Eg. contradiction.
    + rewrite Hrun. cbn [Main.bind]. rewrite Hw. cbn [Main.bind].
      assert (Hlen : length h <= length h') by (rewrite length_app in Hlt; lia).
      assert (Hold : forall l, l < length h -> own h' l = own h l).
      { intros l Hl. rewrite Hframe by (rewrite length_app; lia).
        now apply own_app_old. }
      destruct (IH (h', items ++ [ {| Main.name := Main.input_name input;
                                       Main.flat := flat;
                                       Main.nested := length (h ++ xs) |} ]))
        as [st' [Hrun' [Hh' [Hitems' Hcount]]]].
      * intros i Hin. apply Hsub. now right.
      * now apply (heap_well_frame h).
      * cbn [fst snd]. apply Forall_app. split.
        -- eapply Forall_impl; [| exact Hitems ].
           intros it. now apply item_well_frame.
        -- constructor; [| constructor ].
           unfold item_well. cbn [Main.flat].
           split; [| split; [ exact Hrefs | split; [ exact Hn | exact Hi ] ] ].
           apply (shaped_frame (h ++ xs)); [ lia | exact Hframe | exact Hs ].
      * exists st'. split; [ exact Hrun' | ]. split; [ exact Hh' | ].
        split; [ exact Hitems' | ].
        rewrite Hcount. cbn [snd length]. rewrite length_app. cbn [length]. lia.
Qed.

(** The union loop. *)
Lemma union_returns (keys : list jsstring) :
  NoDup keys -> incl keys names ->
  (forall k, In k keys -> startsWith (js "--vscode-") k = true) ->
  forall (items : list Main.Item) (st : Main.UnionState),
    heap_well (Main.heap_now st) ->
    Forall (item_well (Main.heap_now st)) items ->
    exists st',
      fold_left (fun acc it => Main.bind acc (fun st => Main.union_step keys st it))
        items (Ok st) = Ok st'
      /\ heap_well (Main.heap_now st')
      /\ length (Main.heap_now st) <= length (Main.heap_now st')
      /\ (forall l, l < length (Main.heap_now st) ->
            own (Main.heap_now st') l = own (Main.heap_now st) l).
Proof.
  intros Hnd Hin Hpre.
  induction items as [| it items IH]; intros st Hh Hitems.
  - exists st. split; [ reflexivity | ]. split; [ exact Hh | ].
    split; [ lia | reflexivity ].
  - cbn [fold_left Main.bind]. unfold Main.union_step at 2.
    inversion Hitems as [| ? ? Hit Hrest]; subst.
    destruct Hit as [Hs [Hrefs [Hn Hi]]].
    rewrite (fill_result it keys Hrefs Hnd Hpre). cbn [Main.bind].
    destruct (walk_returns (Main.heap_now st)
                (map (fun k => (k, own_or_placeholder it k)) keys) (Some keys))
      as [h' [Hrun [Hlt [Hframe Hw]]]].
    + exact Hnd.
    + exact Hin.
    + intros k Hk. cbn [keys_walked] in Hk.
      rewrite (get_map_keys _ (own_or_placeholder it) keys k Hk).
      unfold own_or_placeholder.
      destruct (Obj.get (Main.flat it) k) as [v |] eqn:Eg.
      * apply get_some_in in Eg. destruct (Hs k v Eg) as [t [-> Ht]].
        now exists t.
      * exists Main.TRANSPARENT_TOKEN. split; [ reflexivity | ].
        split; [ destruct Hh as [H3 _]; unfold Main.TRANSPARENT_TOKEN; lia | ].
        now apply placeholder_shape.
    + rewrite Hrun. cbn [Main.bind]. rewrite Hw. cbn [Main.bind].
      match goal with |- context [Ok ?s] => 
        destruct (IH s) as [st' [Hrun' [Hh' [Hlen' Hframe']]]]
      end; cbn [Main.heap_now] in *.
      * apply (heap_well_frame (Main.heap_now st)); [ lia | exact Hframe | exact Hh ].
      * eapply Forall_impl; [| exact Hrest ].
        intros it'. apply item_well_frame; [ lia | exact Hframe ].
      * exists st'. split; [ exact Hrun' | ]. split; [ exact Hh' | ].
        split; [ lia | ].
        intros l Hl. rewrite Hframe' by lia. now apply Hframe.
Qed.

End Returns.

(** [main] comes to its end when the names that get a token, of all
    inputs together, lead to paths of which no segment but the last is
    the name of a member of [Object.prototype], the last is not
    [__proto__], none is [$type], and no two different names have paths
    of which one begins with the other.  It then has an item for every
    input, the placeholder is at the end the token it was made as, and
    so is every token of every item. *)
Theorem main_returns (unionEnabled : bool) (inputs : list Main.Input) :
  forallb plain_key (exported_names inputs) = true ->
  forallb (fun k => no_token_field (toTokenPath k)) (exported_names inputs)
  = true ->
  apartb (exported_names inputs) = true ->
  exists out,
    Main.main unionEnabled inputs = Ok out
    /\ length (Main.items out) = length inputs
    /\ holds (Main.heap_end out) Main.TRANSPARENT_TOKEN TRANSPARENT_TOKEN
    /\ Forall (fun it => shaped (Main.heap_end out) (Main.flat it))
         (Main.items out).
Proof.
  intros Hplain Hfield Hapart. apply apartb_apart in Hapart.
  assert (H0 : heap_well Main.initial_heap) by (split; [ cbn; lia | reflexivity ]).
  assert (Hplace : forall h, heap_well h ->
            holds h Main.TRANSPARENT_TOKEN TRANSPARENT_TOKEN).
  { intros h [_ H]. unfold holds, Main.TRANSPARENT_TOKEN.
    rewrite !H by lia. now repeat split. }
  destruct (convert_returns (exported_names inputs) Hplain Hfield Hapart
              inputs (Main.initial_heap, []))
    as [[h items] [Hrun [Hh [Hitems Hcount]]]].
  - intros input Hin x Hx. unfold exported_names. apply in_flat_map.
    now exists input.
  - exact H0.
  - constructor.
  - cbn [fst snd length] in *. unfold Main.main. rewrite Hrun. cbn [Main.bind].
    destruct (unionEnabled && (2 <=? length items)%nat).
    + unfold Main.union_block.
      destruct (union_returns (exported_names inputs) Hplain Hfield Hapart
                  (Main.unionKeys items))
        with (items := items)
             (st := {| Main.heap_now := h; Main.report := [];
                       Main.filled := [] |})
        as [st' [Hrun' [Hh' [Hlen Hframe]]]].
      * apply (Permutation_NoDup (Permutation_sym (sort_perm _))).
        apply main_unionKeySet_nodup.
      * intros k Hk. apply main_unionKeys_in in Hk.
        destruct Hk as [it [Hit Hk]].
        rewrite Forall_forall in Hitems.
        destruct (Hitems it Hit) as [_ [_ [_ Hi]]]. now apply Hi.
      * intros k Hk. apply main_unionKeys_in in Hk.
        destruct Hk as [it [Hit Hk]].
        rewrite Forall_forall in Hitems.
        destruct (Hitems it Hit) as [_ [Hrefs _]].
        unfold Obj.keys in Hk. apply in_map_iff in Hk.
        destruct Hk as [[k' v] [<- Hin]]. now apply (Hrefs k' v).
      * exact Hh.
      * exact Hitems.
      * rewrite Hrun'. cbn [Main.bind]. eexists. split; [ reflexivity | ].
        cbn [Main.items Main.heap_end Main.heap_now] in *.
        split; [ exact Hcount | ]. split; [ now apply Hplace | ].
        eapply Forall_impl; [| exact Hitems ].
        intros it [Hs _]. now apply (shaped_frame h).
    + eexists. split; [ reflexivity | ]. cbn [Main.items Main.heap_end].
      split; [ exact Hcount | ]. split; [ now apply Hplace | ].
      eapply Forall_impl; [| exact Hitems ]. now intros it [Hs _].
Qed.

Lemma main_returns_witness :
  exists out,
    Main.main true example_inputs = Ok out
    /\ length (Main.items out) = 2
    /\ holds (Main.heap_end out) Main.TRANSPARENT_TOKEN TRANSPARENT_TOKEN
    /\ Forall (fun it => shaped (Main.heap_end out) (Main.flat it))
         (Main.items out).
Proof.
  apply (main_returns true example_inputs); vm_compute; reflexivity.
Defined.
